(** * JEL: JSON Expression Language, transcoded to SQL

    A shallow embedding of the Go package [jel] and the properties of its
    expression compiler and ordering compiler.

    The source tree holds two generations of the expression compiler:

    - the [sqlb.Query] generation ([doc.go], [utils.go], [ord.go] and the
      older [jel.go]), where [Expr] embeds a [sqlb.Query], decoding happens in
      [UnmarshalText]/[UnmarshalJSON], and failures come back as [error]
      values ([must] panics, [defer rec(&err)] recovers);
    - the [sqlb.Bui] generation ([jel.go], [jel_internal.go]), where [Expr]
      stores the input text, decoding happens in [AppendExpr], and failures
      are panics ([try]) that nothing in the package recovers.

    Both are embedded, in [ExprQuery] and [ExprBui].  Go strings and byte
    slices are Rocq [string]s (sequences of 8-bit characters).

    The collaborators [encoding/json], [regexp], [reflect], [refut] and [sqlb]
    are not part of the package; they are modelled by executable definitions
    in [Regexp], [Json], [Reflect] and [Sqlb]. *)

From Stdlib Require Import String Ascii List Bool Arith NArith Lia.
Import ListNotations.

Set Warnings "-register-all".
Open Scope string_scope.
Open Scope nat_scope.

(* ------------------------------------------------------------------ *)
(** ** Bytes *)

Definition byte_val (c : ascii) : nat := nat_of_ascii c.

Definition byte_in (lo hi : nat) (c : ascii) : bool :=
  (lo <=? byte_val c) && (byte_val c <=? hi).

Definition is_digit (c : ascii) : bool := byte_in 48 57 c.
Definition is_upper (c : ascii) : bool := byte_in 65 90 c.
Definition is_lower (c : ascii) : bool := byte_in 97 122 c.

Definition one (c : ascii) : string := String c "".

(** The double quote, as a byte and as a text. *)
Definition quote : ascii := ascii_of_nat 34.
Definition dq : string := one quote.

(** [strings.Contains(str, sub)] for a one-byte [sub]. *)
Fixpoint contains_byte (c : ascii) (s : string) : bool :=
  match s with
  | "" => false
  | String d s' => Ascii.eqb d c || contains_byte c s'
  end.

(** The last byte of a buffer, if any. *)
Fixpoint last_byte (s : string) : option ascii :=
  match s with
  | "" => None
  | String c "" => Some c
  | String _ s' => last_byte s'
  end.

(** Decimal rendering of a parameter ordinal ([strconv.Itoa]). *)
Fixpoint itoa_aux (fuel n : nat) (acc : string) : string :=
  match fuel with
  | 0 => acc
  | S fuel' =>
    let acc' := String (ascii_of_nat (48 + n mod 10)) acc in
    if n / 10 =? 0 then acc' else itoa_aux fuel' (n / 10) acc'
  end.

Definition itoa (n : nat) : string := itoa_aux (S n) n "".

(* ------------------------------------------------------------------ *)
(** ** SQL identifiers *)

(** An identifier between double quotes. *)
Definition quoted (ident : string) : string :=
  one quote ++ ident ++ one quote.

(** The identifiers of a path after its first: each after a dot. *)
Fixpoint render_tail (path : list string) : string :=
  match path with
  | [] => ""
  | s :: path' => "." ++ quoted s ++ render_tail path'
  end.

(** The SQL text of the leading identifiers of a path of several. *)
Definition render_many (path : list string) : string :=
  match path with
  | [] => ""
  | s :: path' => "(" ++ quoted s ++ ")" ++ render_tail path'
  end.

(** The SQL text of a path of identifiers. *)
Definition render_path (path : list string) : string :=
  match path with
  | [s] => quoted s
  | _ => render_many path
  end.

(** The first identifier of a path that holds a double quote. *)
Fixpoint first_quoted (path : list string) : option string :=
  match path with
  | [] => None
  | s :: path' => if contains_byte quote s then Some s else first_quoted path'
  end.

(* ------------------------------------------------------------------ *)
(** ** Values and errors *)

(** Go values held in [interface{}]: what [json.Unmarshal] produces and what
    ends up in the argument list.  A [float64] is kept as the number literal
    it was read from. *)
Inductive Value : Type :=
| VNil
| VBool (b : bool)
| VNumber (lit : string)
| VString (s : string)
| VList (items : list Value)
| VMap (entries : list (string * Value))
| VCustom (type_name : string) (payload : string).

(** One constructor per failure site of the package (each is a
    [fmt.Errorf] or a propagated collaborator error in the source). *)
Inductive Error : Type :=
| ErrUnexpectedDict (input : string)
| ErrUnmarshalList
| ErrEmptyList
| ErrHeadNotString (head : string)
| ErrUnmarshalHead
| ErrPrefixArity (name : string) (found : nat)
| ErrPostfixArity (name : string) (found : nat)
| ErrInfixArity (name : string) (found : nat)
| ErrAnyArity (name : string) (found : nat)
| ErrBetweenArity (name : string) (found : nat)
| ErrCastArity (name : string) (found : nat)
| ErrJson
| ErrInvalidPath (pathStr : string)
| ErrNoTypeForPath (pathStr : string)
| ErrNoTypeForField (name : string)
| ErrNotStruct (type_name : string)
| ErrNoSuchField (name : string) (type_name : string)
| ErrNoColumnName (segment : string) (type_name : string) (pathStr : string)
| ErrQuoteInIdent (ident : string)
| ErrOrdSyntax (str : string).

(** A Go [error] result: [None] is [nil]. *)
Definition error : Type := option Error.

(* ------------------------------------------------------------------ *)
(** ** Regular expressions ([regexp])

    Matching by Brzozowski derivatives over bytes.  The package's patterns
    use byte classes only, so matching bytes agrees with matching runes. *)

Module Regexp.

Inductive re : Type :=
| Never
| Empty
| Class (p : ascii -> bool)
| Seq (a b : re)
| Alt (a b : re)
| Star (a : re).

Fixpoint nullable (r : re) : bool :=
  match r with
  | Never => false
  | Empty => true
  | Class _ => false
  | Seq a b => nullable a && nullable b
  | Alt a b => nullable a || nullable b
  | Star _ => true
  end.

Fixpoint deriv (c : ascii) (r : re) : re :=
  match r with
  | Never => Never
  | Empty => Never
  | Class p => if p c then Empty else Never
  | Seq a b =>
    if nullable a then Alt (Seq (deriv c a) b) (deriv c b)
    else Seq (deriv c a) b
  | Alt a b => Alt (deriv c a) (deriv c b)
  | Star a => Seq (deriv c a) (Star a)
  end.

(** Anchored match: [^r$]. *)
Fixpoint matches (r : re) (s : string) : bool :=
  match s with
  | "" => nullable r
  | String c s' => matches (deriv c r) s'
  end.

Definition Plus (a : re) : re := Seq a (Star a).

Definition Byte (c : ascii) : re := Class (Ascii.eqb c).

(** [\w]: [0-9A-Za-z_]. *)
Definition word_char (c : ascii) : bool :=
  is_digit c || is_upper c || is_lower c || Ascii.eqb c "_".

(** [\s]: [\t\n\f\r ]. *)
Definition space_char (c : ascii) : bool :=
  match byte_val c with
  | 9 | 10 | 12 | 13 | 32 => true
  | _ => false
  end.

(** A letter under [(?i)]: both ASCII cases. *)
Definition FoldLetter (lower upper : ascii) : re :=
  Alt (Byte lower) (Byte upper).

(** [(?i)s]: simple case folding also relates [s] to U+017F (LATIN SMALL
    LETTER LONG S), bytes C5 BF in UTF-8. *)
Definition FoldS : re :=
  Alt (FoldLetter "s" "S")
      (Seq (Byte (ascii_of_nat 197)) (Byte (ascii_of_nat 191))).

(** The splits of a string into a prefix and the rest, longest prefix
    first: the order in which a greedy quantifier gives back. *)
Fixpoint splits (s : string) : list (string * string) :=
  match s with
  | "" => [("", "")]
  | String c s' =>
    map (fun p => (String c (fst p), snd p)) (splits s') ++ [("", s)]
  end.

Fixpoint first_some {A B : Type} (f : A -> option B) (l : list A) : option B :=
  match l with
  | [] => None
  | x :: l' => match f x with Some y => Some y | None => first_some f l' end
  end.

(** Submatches of [^(a)b(c)$]: the texts of the two groups. *)
Definition find_groups (a b c : re) (s : string) : option (string * string) :=
  first_some
    (fun p1 =>
       if matches a (fst p1) then
         first_some
           (fun p2 =>
              if matches b (fst p2) && matches c (snd p2)
              then Some (fst p1, snd p2) else None)
           (splits (snd p1))
       else None)
    (splits s).

(** The language of an expression, for stating what [matches] decides. *)
Inductive lang : re -> string -> Prop :=
| lang_empty : lang Empty ""
| lang_class : forall p c, p c = true -> lang (Class p) (one c)
| lang_seq : forall a b s t, lang a s -> lang b t -> lang (Seq a b) (s ++ t)
| lang_alt_l : forall a b s, lang a s -> lang (Alt a b) s
| lang_alt_r : forall a b s, lang b s -> lang (Alt a b) s
| lang_star_nil : forall a, lang (Star a) ""
| lang_star_cons : forall a s t, lang a s -> lang (Star a) t -> lang (Star a) (s ++ t).

End Regexp.

(* ------------------------------------------------------------------ *)
(** ** JSON ([encoding/json])

    A recursive-descent reader of RFC 8259 texts.  [json.Unmarshal] first
    validates the whole input, then fills the target; a [json.RawMessage]
    target receives the exact bytes of the value.

    Two conversions of the library are left abstract: a number is kept as
    its literal (the library converts it to [float64] and refuses a literal
    out of range), and the bytes of a string above 127 are kept as they are
    (the library replaces invalid UTF-8).  The budgets of the recursive
    readers are the lengths of their inputs, which is enough for every
    text ([JsonFuel.parseDoc_budget]). *)

Module Json.

(** A parsed value.  Array elements and object members keep their raw
    text, which is what a [json.RawMessage] holds. *)
Inductive Json : Type :=
| JNull
| JBool (b : bool)
| JNumber (lit : string)
| JString (s : string)
| JArray (elems : list (string * Json))
| JObject (members : list (string * (string * Json))).

(** The scanner's limit on open arrays and objects ([maxNestingDepth] in
    [encoding/json/scanner.go], Go 1.15 and later). *)
Definition maxNestingDepth : N := 10000.

Definition is_ws (c : ascii) : bool :=
  match byte_val c with
  | 9 | 10 | 13 | 32 => true
  | _ => false
  end.

Fixpoint spanWs (s : string) : string * string :=
  match s with
  | "" => ("", "")
  | String c s' =>
    if is_ws c then let (w, r) := spanWs s' in (String c w, r)
    else ("", s)
  end.

Fixpoint spanDigits (s : string) : string * string :=
  match s with
  | "" => ("", "")
  | String c s' =>
    if is_digit c then let (d, r) := spanDigits s' in (String c d, r)
    else ("", s)
  end.

(** The rest of [s] after the byte [c], if [s] starts with it. *)
Definition expect (c : ascii) (s : string) : option string :=
  match s with
  | String d r => if Ascii.eqb d c then Some r else None
  | "" => None
  end.

Definition scanSign (s : string) : string * string :=
  match expect "-" s with
  | Some r => ("-", r)
  | None => ("", s)
  end.

Definition scanInt (s : string) : option (string * string) :=
  match expect "0" s with
  | Some r => Some ("0", r)
  | None =>
    match s with
    | String c r =>
      if is_digit c then let (d, r') := spanDigits r in Some (String c d, r')
      else None
    | "" => None
    end
  end.

Definition scanFrac (s : string) : option (string * string) :=
  match expect "." s with
  | Some r =>
    match spanDigits r with
    | ("", _) => None
    | (d, r') => Some (String "." d, r')
    end
  | None => Some ("", s)
  end.

Definition scanExpSign (s : string) : string * string :=
  match expect "+" s with
  | Some r => ("+", r)
  | None =>
    match expect "-" s with
    | Some r => ("-", r)
    | None => ("", s)
    end
  end.

Definition scanExp (s : string) : option (string * string) :=
  match s with
  | String c r =>
    if Ascii.eqb c "e" || Ascii.eqb c "E" then
      let (sg, r1) := scanExpSign r in
      match spanDigits r1 with
      | ("", _) => None
      | (d, r2) => Some (String c (sg ++ d), r2)
      end
    else Some ("", s)
  | "" => Some ("", s)
  end.

(** A number literal at the head of [s]: the literal and the rest. *)
Definition scanNumber (s : string) : option (string * string) :=
  let (sg, s1) := scanSign s in
  match scanInt s1 with
  | None => None
  | Some (i, s2) =>
    match scanFrac s2 with
    | None => None
    | Some (f, s3) =>
      match scanExp s3 with
      | None => None
      | Some (e, s4) => Some (sg ++ i ++ f ++ e, s4)
      end
    end
  end.

Definition hexVal (c : ascii) : option N :=
  let n := N_of_ascii c in
  if is_digit c then Some (n - 48)%N
  else if byte_in 97 102 c then Some (n - 87)%N
  else if byte_in 65 70 c then Some (n - 55)%N
  else None.

Definition hex4 (a b c d : ascii) : option N :=
  match hexVal a, hexVal b, hexVal c, hexVal d with
  | Some x, Some y, Some z, Some w => Some (((x * 16 + y) * 16 + z) * 16 + w)%N
  | _, _, _, _ => None
  end.

Definition utf8_cont (n : N) : ascii := ascii_of_N (128 + n mod 64).

(** [utf8.EncodeRune]. *)
Definition utf8_encode (cp : N) : string :=
  if (cp <? 128)%N then one (ascii_of_N cp)
  else if (cp <? 2048)%N then
    String (ascii_of_N (192 + cp / 64)) (one (utf8_cont cp))
  else if (cp <? 65536)%N then
    String (ascii_of_N (224 + cp / 4096))
      (String (utf8_cont (cp / 64)) (one (utf8_cont cp)))
  else
    String (ascii_of_N (240 + cp / 262144))
      (String (utf8_cont (cp / 4096))
         (String (utf8_cont (cp / 64)) (one (utf8_cont cp)))).

Definition replacement_char : N := 65533.

Definition is_surrogate (cp : N) : bool := ((55296 <=? cp) && (cp <? 57344))%N.

(** [utf16.DecodeRune]. *)
Definition utf16_decode (hi lo : N) : option N :=
  if ((55296 <=? hi) && (hi <? 56320) && (56320 <=? lo) && (lo <? 57344))%N
  then Some ((hi - 55296) * 1024 + (lo - 56320) + 65536)%N
  else None.

(** The one-byte escapes: quote, backslash, slash, b, f, n, r, t. *)
Definition simple_escape (c : ascii) : option ascii :=
  match byte_val c with
  | 34 => Some c
  | 92 => Some c
  | 47 => Some c
  | 98 => Some (ascii_of_nat 8)
  | 102 => Some (ascii_of_nat 12)
  | 110 => Some (ascii_of_nat 10)
  | 114 => Some (ascii_of_nat 13)
  | 116 => Some (ascii_of_nat 9)
  | _ => None
  end.

Definition backslash : ascii := ascii_of_nat 92.

(** The pair of a low surrogate escape at the head of [s], if any. *)
Definition low_escape (hi : N) (s : string) : option (string * N * string) :=
  match s with
  | String b (String u (String g1 (String g2 (String g3 (String g4 r))))) =>
    if Ascii.eqb b backslash && Ascii.eqb u "u" then
      match hex4 g1 g2 g3 g4 with
      | Some lo =>
        match utf16_decode hi lo with
        | Some cp =>
          Some (String b (String u (String g1 (String g2 (String g3 (one g4))))),
                cp, r)
        | None => None
        end
      | None => None
      end
    else None
  | _ => None
  end.

(** The body of a string literal, after the opening quote: the raw text up
    to and including the closing quote, the decoded text, and the rest.
    Bytes above 127 are copied as they are. *)
Fixpoint scanStringBody (fuel : nat) (s : string) : option (string * string * string) :=
  match fuel with
  | 0 => None
  | S fuel' =>
    match s with
    | "" => None
    | String c s' =>
      if Ascii.eqb c quote then Some (one c, "", s')
      else if Ascii.eqb c backslash then
        match s' with
        | "" => None
        | String e s2 =>
          if Ascii.eqb e "u" then
            match s2 with
            | String h1 (String h2 (String h3 (String h4 s3))) =>
              match hex4 h1 h2 h3 h4 with
              | None => None
              | Some cp =>
                let raw1 := String c (String e (String h1 (String h2 (String h3 (one h4))))) in
                if is_surrogate cp then
                  match low_escape cp s3 with
                  | Some (raw2, cp', s4) =>
                    match scanStringBody fuel' s4 with
                    | Some (raw, dec, rest) =>
                      Some (raw1 ++ raw2 ++ raw, utf8_encode cp' ++ dec, rest)
                    | None => None
                    end
                  | None =>
                    match scanStringBody fuel' s3 with
                    | Some (raw, dec, rest) =>
                      Some (raw1 ++ raw, utf8_encode replacement_char ++ dec, rest)
                    | None => None
                    end
                  end
                else
                  match scanStringBody fuel' s3 with
                  | Some (raw, dec, rest) =>
                    Some (raw1 ++ raw, utf8_encode cp ++ dec, rest)
                  | None => None
                  end
              end
            | _ => None
            end
          else
            match simple_escape e with
            | None => None
            | Some d =>
              match scanStringBody fuel' s2 with
              | Some (raw, dec, rest) =>
                Some (String c (String e raw), String d dec, rest)
              | None => None
              end
            end
        end
      else if byte_val c <? 32 then None
      else
        match scanStringBody fuel' s' with
        | Some (raw, dec, rest) => Some (String c raw, String c dec, rest)
        | None => None
        end
    end
  end.

(** A string literal at the head of [s]. *)
Definition scanString (s : string) : option (string * string * string) :=
  match s with
  | String c s' =>
    if Ascii.eqb c quote then
      match scanStringBody (String.length s') s' with
      | Some (raw, dec, rest) => Some (String c raw, dec, rest)
      | None => None
      end
    else None
  | "" => None
  end.

(** The rest of [s] after the prefix [lit], if [s] starts with it. *)
Fixpoint scanLiteral (lit s : string) : option string :=
  match lit, s with
  | "", _ => Some s
  | String a lit', String b s' =>
    if Ascii.eqb a b then scanLiteral lit' s' else None
  | _, "" => None
  end.

(** A value at the head of [s] (no leading whitespace), under [depth] open
    containers: its raw text, its parse, and the rest. *)
Fixpoint parseValue (fuel : nat) (depth : N) (s : string)
  : option (string * Json * string) :=
  match fuel with
  | 0 => None
  | S fuel' =>
    match s with
    | "" => None
    | String c s' =>
      if Ascii.eqb c "[" then
        if (maxNestingDepth <=? depth)%N then None
        else
          let (w, s1) := spanWs s' in
          match expect "]" s1 with
          | Some s2 => Some (String c (w ++ "]"), JArray [], s2)
          | None =>
            match parseElems fuel' (depth + 1)%N s1 with
            | Some (raw, elems, rest) => Some (String c (w ++ raw), JArray elems, rest)
            | None => None
            end
          end
      else if Ascii.eqb c "{" then
        if (maxNestingDepth <=? depth)%N then None
        else
          let (w, s1) := spanWs s' in
          match expect "}" s1 with
          | Some s2 => Some (String c (w ++ "}"), JObject [], s2)
          | None =>
            match parseMembers fuel' (depth + 1)%N s1 with
            | Some (raw, members, rest) => Some (String c (w ++ raw), JObject members, rest)
            | None => None
            end
          end
      else if Ascii.eqb c quote then
        match scanString s with
        | Some (raw, dec, rest) => Some (raw, JString dec, rest)
        | None => None
        end
      else if Ascii.eqb c "t" then
        match scanLiteral "true" s with
        | Some rest => Some ("true", JBool true, rest)
        | None => None
        end
      else if Ascii.eqb c "f" then
        match scanLiteral "false" s with
        | Some rest => Some ("false", JBool false, rest)
        | None => None
        end
      else if Ascii.eqb c "n" then
        match scanLiteral "null" s with
        | Some rest => Some ("null", JNull, rest)
        | None => None
        end
      else
        match scanNumber s with
        | Some (lit, rest) => Some (lit, JNumber lit, rest)
        | None => None
        end
    end
  end

(** The elements of an array from the start of its first element through
    the closing bracket. *)
with parseElems (fuel : nat) (depth : N) (s : string)
  : option (string * list (string * Json) * string) :=
  match fuel with
  | 0 => None
  | S fuel' =>
    match parseValue fuel' depth s with
    | None => None
    | Some (raw1, v1, r1) =>
      let (w1, r2) := spanWs r1 in
      match expect "]" r2 with
      | Some r3 => Some (raw1 ++ w1 ++ "]", [(raw1, v1)], r3)
      | None =>
        match expect "," r2 with
        | Some r3 =>
          let (w2, r4) := spanWs r3 in
          match parseElems fuel' depth r4 with
          | Some (raw, elems, rest) =>
            Some (raw1 ++ w1 ++ "," ++ w2 ++ raw, (raw1, v1) :: elems, rest)
          | None => None
          end
        | None => None
        end
      end
    end
  end

(** The members of an object from the start of its first key through the
    closing brace. *)
with parseMembers (fuel : nat) (depth : N) (s : string)
  : option (string * list (string * (string * Json)) * string) :=
  match fuel with
  | 0 => None
  | S fuel' =>
    match scanString s with
    | None => None
    | Some (rawk, key, r1) =>
      let (w1, r2) := spanWs r1 in
      match expect ":" r2 with
      | None => None
      | Some r3 =>
        let (w2, r4) := spanWs r3 in
        match parseValue fuel' depth r4 with
        | None => None
        | Some (rawv, v, r5) =>
          let (w3, r6) := spanWs r5 in
          match expect "}" r6 with
          | Some r7 =>
            Some (rawk ++ w1 ++ ":" ++ w2 ++ rawv ++ w3 ++ "}", [(key, (rawv, v))], r7)
          | None =>
            match expect "," r6 with
            | Some r7 =>
              let (w4, r8) := spanWs r7 in
              match parseMembers fuel' depth r8 with
              | Some (raw, members, rest) =>
                Some (rawk ++ w1 ++ ":" ++ w2 ++ rawv ++ w3 ++ "," ++ w4 ++ raw,
                      (key, (rawv, v)) :: members, rest)
              | None => None
              end
            | None => None
            end
          end
        end
      end
    end
  end.

(** A whole JSON text: one value between optional whitespace
    ([checkValid] followed by the decode). *)
Definition parseDoc (data : string) : option (string * Json) :=
  let (_, s) := spanWs data in
  match parseValue (S (String.length s)) 0 s with
  | Some (raw, v, rest) =>
    match spanWs rest with
    | (_, "") => Some (raw, v)
    | _ => None
    end
  | None => None
  end.

(** The [interface{}] a parsed value decodes to. *)
Fixpoint toValue (j : Json) : Value :=
  match j with
  | JNull => VNil
  | JBool b => VBool b
  | JNumber lit => VNumber lit
  | JString s => VString s
  | JArray elems =>
    VList ((fix go (l : list (string * Json)) : list Value :=
              match l with
              | [] => []
              | (_, x) :: l' => toValue x :: go l'
              end) elems)
  | JObject members =>
    VMap ((fix go (l : list (string * (string * Json))) : list (string * Value) :=
             match l with
             | [] => []
             | (k, (_, x)) :: l' => (k, toValue x) :: go l'
             end) members)
  end.

(** [json.Unmarshal(data, &list)] with [list []json.RawMessage]. *)
Definition unmarshalList (data : string) : option (list string) :=
  match parseDoc data with
  | Some (_, JArray elems) => Some (map fst elems)
  | Some (_, JNull) => Some []
  | _ => None
  end.

(** [json.Unmarshal(data, &str)] with [str string]. *)
Definition unmarshalString (data : string) : option string :=
  match parseDoc data with
  | Some (_, JString s) => Some s
  | Some (_, JNull) => Some ""
  | _ => None
  end.

(** [json.Unmarshal(data, &val)] with [val interface{}]. *)
Definition unmarshalAny (data : string) : option Value :=
  match parseDoc data with
  | Some (_, v) => Some (toValue v)
  | None => None
  end.

(** Decoders of common field types, for use in schemas. *)
Definition intoString (data : string) : option Value :=
  option_map VString (unmarshalString data).

Definition intoBool (data : string) : option Value :=
  match parseDoc data with
  | Some (_, JBool b) => Some (VBool b)
  | Some (_, JNull) => Some (VBool false)
  | _ => None
  end.

Definition intoNumber (data : string) : option Value :=
  match parseDoc data with
  | Some (_, JNumber lit) => Some (VNumber lit)
  | Some (_, JNull) => Some (VNumber "0")
  | _ => None
  end.

(** A type with its own [UnmarshalJSON] that reads a JSON string, such as
    [time.Time]; the payload is kept as text. *)
Definition intoTextual (type_name : string) (data : string) : option Value :=
  match parseDoc data with
  | Some (_, JString s) => Some (VCustom type_name s)
  | _ => None
  end.

(** The number of arrays and objects open at the deepest point of a
    value. *)
Fixpoint depth (j : Json) : nat :=
  match j with
  | JArray elems =>
    S ((fix go (l : list (string * Json)) : nat :=
          match l with
          | [] => 0
          | (_, x) :: l' => Nat.max (depth x) (go l')
          end) elems)
  | JObject members =>
    S ((fix go (l : list (string * (string * Json))) : nat :=
          match l with
          | [] => 0
          | (_, (_, x)) :: l' => Nat.max (depth x) (go l')
          end) members)
  | _ => 0
  end.

(** The nesting depth of a JSON text that parses. *)
Definition nesting (data : string) : option nat :=
  option_map (fun r => depth (snd r)) (parseDoc data).

Definition intoObject (data : string) : option Value :=
  match parseDoc data with
  | Some (_, JObject members) => Some (toValue (JObject members))
  | Some (_, JNull) => Some (VMap [])
  | _ => None
  end.

End Json.

(* ------------------------------------------------------------------ *)
(** ** Execution model

    A Go function body that works on a mutable receiver or buffer of type
    [St]: it completes with a value, or unwinds with a panic value, and in
    both cases leaves the state as mutated so far.  [OutOfFuel] is the
    model's own outcome for an exhausted recursion budget. *)

Inductive Result (St A : Type) : Type :=
| Ok (a : A) (s : St)
| Panic (e : Error) (s : St)
| OutOfFuel.

Arguments Ok {St A} a s.
Arguments Panic {St A} e s.
Arguments OutOfFuel {St A}.

Definition M (St A : Type) : Type := St -> Result St A.

Definition ret {St A : Type} (a : A) : M St A := fun s => Ok a s.

Definition bind {St A B : Type} (m : M St A) (k : A -> M St B) : M St B :=
  fun s =>
    match m s with
    | Ok a s' => k a s'
    | Panic e s' => Panic e s'
    | OutOfFuel => OutOfFuel
    end.

Definition panic {St A : Type} (e : Error) : M St A := fun s => Panic e s.

Definition get {St : Type} : M St St := fun s => Ok s s.

Definition modify {St : Type} (f : St -> St) : M St unit := fun s => Ok tt (f s).

(** Running a computation on a part of the state (a field behind a
    pointer). *)
Definition zoom {St T A : Type} (proj : St -> T) (upd : T -> St -> St) (m : M T A)
  : M St A :=
  fun s =>
    match m (proj s) with
    | Ok a t => Ok a (upd t s)
    | Panic e t => Panic e (upd t s)
    | OutOfFuel => OutOfFuel
    end.

Declare Scope go_scope.
Delimit Scope go_scope with go.
Notation "x <- c1 ;; c2" := (bind c1 (fun x => c2))
  (at level 61, c1 at next level, right associativity) : go_scope.
Notation "c1 ;; c2" := (bind c1 (fun _ => c2))
  (at level 61, right associativity) : go_scope.
Open Scope go_scope.

(** [for i, x := range xs { body(i, x) }]. *)
Fixpoint for_range {St A : Type} (body : nat -> A -> M St unit) (i : nat) (xs : list A)
  : M St unit :=
  match xs with
  | [] => ret tt
  | x :: xs' => body i x ;; for_range body (S i) xs'
  end.

(** What a caller sees of a public call. *)
Inductive Outcome (A : Type) : Type :=
| Returns (a : A)
| Panics (e : Error)
| Exhausted.

Arguments Returns {A} a.
Arguments Panics {A} e.
Arguments Exhausted {A}.

(* ------------------------------------------------------------------ *)
(** ** Schemas ([reflect], [refut]) *)

Module Reflect.

(** [reflect.StructField], with the values of its [json] and [db] tags. *)
Record StructFieldOf (T : Type) : Type := MkField {
  Name : string;
  Anonymous : bool;
  TagJson : string;
  TagDb : string;
  Type_ : T
}.

Arguments MkField {T}.
Arguments Name {T}.
Arguments Anonymous {T}.
Arguments TagJson {T}.
Arguments TagDb {T}.
Arguments Type_ {T}.

(** How [json.Unmarshal] fills a value of a type: as one of the built-in
    kinds, through the type's own [UnmarshalJSON] reading a JSON string
    (such as [time.Time]), as any JSON object, or by a given function. *)
Inductive Decoding : Type :=
| AsString
| AsBool
| AsNumber
| AsTextual
| AsObject
| Custom (unmarshalJSON : string -> option Value).

(** [reflect.Type], as far as the package looks at it. *)
Inductive Rtype : Type :=
| Struct (name : string) (fields : list (StructFieldOf Rtype)) (dec : Decoding)
| Ptr (elem : Rtype)
| Slice (elem : Rtype)
| Basic (name : string) (dec : Decoding).

Definition StructField : Type := StructFieldOf Rtype.

(** [rtype.String()]. *)
Fixpoint type_name (t : Rtype) : string :=
  match t with
  | Struct n _ _ => n
  | Ptr e => "*" ++ type_name e
  | Slice e => "[]" ++ type_name e
  | Basic n _ => n
  end.

Definition is_null (data : string) : bool :=
  match Json.parseDoc data with
  | Some (_, Json.JNull) => true
  | _ => false
  end.

Fixpoint all_some {A : Type} (l : list (option A)) : option (list A) :=
  match l with
  | [] => Some []
  | Some x :: l' => option_map (cons x) (all_some l')
  | None :: _ => None
  end.

Definition decodeWith (name : string) (dec : Decoding) (data : string) : option Value :=
  match dec with
  | AsString => Json.intoString data
  | AsBool => Json.intoBool data
  | AsNumber => Json.intoNumber data
  | AsTextual => Json.intoTextual name data
  | AsObject => Json.intoObject data
  | Custom f => f data
  end.

(** [json.Unmarshal(data, reflect.New(t).Interface())], giving the decoded
    value of type [t]. *)
Fixpoint unmarshalInto (t : Rtype) (data : string) : option Value :=
  match t with
  | Struct n _ dec => decodeWith n dec data
  | Basic n dec => decodeWith n dec data
  | Ptr e => if is_null data then Some VNil else unmarshalInto e data
  | Slice e =>
    if is_null data then Some VNil
    else
      match Json.unmarshalList data with
      | Some raws => option_map VList (all_some (map (unmarshalInto e) raws))
      | None => None
      end
  end.

End Reflect.

Module Refut.
Import Reflect.

(** [refut.TagIdent]: the name part of a tag value; a dash is no name. *)
Fixpoint before_comma (s : string) : string :=
  match s with
  | "" => ""
  | String c s' => if Ascii.eqb c "," then "" else String c (before_comma s')
  end.

Definition TagIdent (tag : string) : string :=
  let ident := before_comma tag in
  if (ident =? "-")%string then "" else ident.

(** How a traversal ended: the callback broke out with a field, the
    traversal failed, or every field was visited. *)
Inductive Traversal : Type :=
| Broke (sfield : StructField)
| Failed (e : Error)
| Finished.

Fixpoint derefs_to_struct (t : Rtype) : bool :=
  match t with
  | Ptr e => derefs_to_struct e
  | Struct _ _ _ => true
  | _ => false
  end.

(** Visits the fields of a struct type in order, descending into embedded
    structs and not into other nested structs, until [found] holds. *)
Fixpoint traverse (found : StructField -> bool) (t : Rtype) {struct t} : option StructField :=
  match t with
  | Ptr e => traverse found e
  | Struct _ fields _ =>
    (fix visit (fs : list StructField) : option StructField :=
       match fs with
       | [] => None
       | f :: fs' =>
         if Anonymous f && derefs_to_struct (Type_ f) then
           match traverse found (Type_ f) with
           | Some r => Some r
           | None => visit fs'
           end
         else if found f then Some f
         else visit fs'
       end) fields
  | _ => None
  end.

(** [refut.TraverseStructRtype] with a callback that breaks at the first
    field satisfying [found]. *)
Definition TraverseStructRtype (t : Rtype) (found : StructField -> bool) : Traversal :=
  if derefs_to_struct t then
    match traverse found t with
    | Some f => Broke f
    | None => Finished
    end
  else Failed (ErrNotStruct (type_name t)).

End Refut.

(* ------------------------------------------------------------------ *)
(** ** SQL builders ([sqlb])

    The operations of [sqlb.Query] and [sqlb.Bui] that the package calls,
    for arguments that are plain values. *)

Module Sqlb.

(** [sqlb.FieldJsonName] and [sqlb.FieldDbName]: the names in the [json]
    and [db] tags of a field. *)
Definition FieldJsonName (sfield : Reflect.StructField) : string :=
  Refut.TagIdent (Reflect.TagJson sfield).

Definition FieldDbName (sfield : Reflect.StructField) : string :=
  Refut.TagIdent (Reflect.TagDb sfield).

Definition isWhitespaceChar (c : ascii) : bool :=
  match byte_val c with
  | 32 | 10 | 13 | 9 | 11 => true
  | _ => false
  end.

Definition endsWithWhitspace (chunk : string) : bool :=
  match last_byte chunk with
  | Some c => isWhitespaceChar c
  | None => false
  end.

(** The spacing of the older builder; [utils.go] holds a copy of it,
    marked as duplicated from [sqlb]. *)
Definition appendSpaceIfNeeded (buf : string) : string :=
  if (0 <? String.length buf) && negb (endsWithWhitspace buf)
  then buf ++ " " else buf.

Fixpoint nat_of_digits (acc : nat) (s : string) : nat :=
  match s with
  | "" => acc
  | String c s' => nat_of_digits (10 * acc + (byte_val c - 48)) s'
  end.

(** Shifts every ordinal parameter [$N] of a query text by [offset]. *)
Fixpoint renumber (fuel offset : nat) (s : string) : string :=
  match fuel with
  | 0 => s
  | S fuel' =>
    match s with
    | "" => ""
    | String c s' =>
      if Ascii.eqb c "$" then
        match Json.spanDigits s' with
        | ("", _) => String c (renumber fuel' offset s')
        | (d, r) => String c (itoa (nat_of_digits 0 d + offset) ++ renumber fuel' offset r)
        end
      else String c (renumber fuel' offset s')
    end
  end.

(** The older builder: a text with ordinal parameters and their
    arguments. *)
Record Query : Type := MkQuery { Text : string; Args : list Value }.

(** [Query.Append(src, args...)] for plain arguments: a space if needed,
    then [src] with its ordinals moved past the arguments already held. *)
Definition Query_Append (src : string) (args : list Value) (q : Query) : Query :=
  MkQuery
    (appendSpaceIfNeeded (Text q) ++ renumber (String.length src) (length (Args q)) src)
    (Args q ++ args)%list.

(** [Query.QueryAppend(out)]: the query appended to [out] as a
    sub-query. *)
Definition Query_QueryAppend (q : Query) (out : Query) : Query :=
  Query_Append (Text q) (Args q) out.

(** The newer builder. *)
Record Bui : Type := MkBui { BuiText : string; BuiArgs : list Value }.

Definition first_byte (s : string) : option ascii :=
  match s with
  | "" => None
  | String c _ => Some c
  end.

(** No space is wanted after an empty text, whitespace or an opening
    parenthesis. *)
Definition hasDelimSuffix (text : string) : bool :=
  match last_byte text with
  | None => true
  | Some c => isWhitespaceChar c || Ascii.eqb c "("
  end.

(** No space is wanted before nothing, whitespace or a closing
    parenthesis. *)
Definition hasDelimPrefix (text : string) : bool :=
  match first_byte text with
  | None => true
  | Some c => isWhitespaceChar c || Ascii.eqb c ")"
  end.

(** The spacing of the builder, as the expected text of [TestTranscode] in
    [jel_test.go] shows it. *)
Definition appendMaybeSpaced (text suffix : string) : string :=
  if negb (hasDelimSuffix text) && negb (hasDelimPrefix suffix)
  then text ++ " " ++ suffix
  else text ++ suffix.

Definition Bui_Str (val : string) (b : Bui) : Bui :=
  MkBui (appendMaybeSpaced (BuiText b) val) (BuiArgs b).

(** [Bui.Arg]: holds the argument and gives its ordinal. *)
Definition Bui_Arg (val : Value) (b : Bui) : nat * Bui :=
  (S (length (BuiArgs b)), MkBui (BuiText b) (BuiArgs b ++ [val])%list).

(** [Bui.Param]: writes an ordinal parameter. *)
Definition Bui_Param (ordinal : nat) (b : Bui) : Bui :=
  MkBui (appendMaybeSpaced (BuiText b) ("$" ++ itoa ordinal)) (BuiArgs b).

Definition Bui_Get (b : Bui) : string * list Value := (BuiText b, BuiArgs b).

Definition Bui_Set (text : string) (args : list Value) (b : Bui) : Bui :=
  MkBui text args.

(** Modelled from the spec: [sqlb.Path.AppendExpr] is called by
    [Expr.decodeString] of [jel.go] and is not in the source tree.  The spec
    has a path of one identifier written as the quoted identifier, a longer
    one with the first identifier quoted in parentheses and each later one
    after a dot, every identifier in double quotes, and an identifier that
    holds a double quote rejected. *)
Definition Path_AppendExpr (path : list string) (text : string) (args : list Value)
  : Error + (string * list Value) :=
  match first_quoted path with
  | Some s => inl (ErrQuoteInIdent s)
  | None =>
    match path with
    | [] => inr (text, args)
    | _ => inr (appendMaybeSpaced text (render_path path), args)
    end
  end.

End Sqlb.

(* ------------------------------------------------------------------ *)
(** ** [utils.go] *)

Module Utils.
Import Regexp Reflect.

(** [dottedPath]: [(?:\w+\.)*\w+]. *)
Definition dottedPath : re :=
  Seq (Star (Seq (Plus (Class word_char)) (Byte "."))) (Plus (Class word_char)).

(** [dottedPathReg.MatchString]. *)
Definition dottedPathReg_MatchString (s : string) : bool := matches dottedPath s.

(** The direction of [ordReg]: [(?i)(asc|desc)]. *)
Definition ordDirection : re :=
  Alt (Seq (FoldLetter "a" "A") (Seq FoldS (FoldLetter "c" "C")))
      (Seq (FoldLetter "d" "D")
           (Seq (FoldLetter "e" "E") (Seq FoldS (FoldLetter "c" "C")))).

Definition ordSpaces : re := Plus (Class space_char).

(** [ordReg] as one expression: [^(dottedPath)\s+(?i)(asc|desc)$]. *)
Definition ordReg : re := Seq dottedPath (Seq ordSpaces ordDirection).

(** [ordReg.FindStringSubmatch]: the texts of the two groups, or [None]
    for a [nil] match. *)
Definition ordReg_FindStringSubmatch (s : string) : option (string * string) :=
  find_groups dottedPath ordSpaces ordDirection s.

(** [defer rec(&err)] around a body with the named result [err]: a panic
    with an error value becomes the returned error.  Every panic value of
    the package is an error. *)
Definition rec {St : Type} (body : M St error) : M St error :=
  fun s =>
    match body s with
    | Panic e s' => Ok (Some e) s'
    | r => r
    end.

Definition must {St : Type} (err : error) : M St unit :=
  match err with
  | Some e => panic e
  | None => ret tt
  end.

Definition appendStr (str : string) : M string unit :=
  modify (fun buf => buf ++ str).

Definition appendEnclosed (prefix infix suffix : string) : M string unit :=
  modify (fun buf => buf ++ prefix) ;;
  modify (fun buf => buf ++ infix) ;;
  modify (fun buf => buf ++ suffix).

Definition sfieldJsonFieldName (sfield : StructField) : string :=
  Refut.TagIdent (TagJson sfield).

Definition sfieldColumnName (sfield : StructField) : string :=
  Refut.TagIdent (TagDb sfield).

(** The white space of [unicode.IsSpace] below 128. *)
Definition ascii_space (c : ascii) : bool :=
  match byte_val c with
  | 9 | 10 | 11 | 12 | 13 | 32 => true
  | _ => false
  end.

(** The two-byte spaces U+0085 and U+00A0. *)
Definition space2 (a b : ascii) : bool :=
  (byte_val a =? 194) && ((byte_val b =? 133) || (byte_val b =? 160)).

(** The three-byte spaces U+1680, U+2000 to U+200A, U+2028, U+2029,
    U+202F, U+205F and U+3000. *)
Definition space3 (a b c : ascii) : bool :=
  ((byte_val a =? 225) && (byte_val b =? 154) && (byte_val c =? 128))
  || ((byte_val a =? 226) && (byte_val b =? 128)
      && (byte_in 128 138 c || byte_in 168 169 c || (byte_val c =? 175)))
  || ((byte_val a =? 226) && (byte_val b =? 129) && (byte_val c =? 159))
  || ((byte_val a =? 227) && (byte_val b =? 128) && (byte_val c =? 128)).

(** The left half of [bytes.TrimSpace]. *)
Fixpoint trimLeftSpace (s : string) : string :=
  match s with
  | "" => ""
  | String a s1 =>
    if ascii_space a then trimLeftSpace s1
    else
      match s1 with
      | String b s2 =>
        if space2 a b then trimLeftSpace s2
        else
          match s2 with
          | String c s3 => if space3 a b c then trimLeftSpace s3 else s
          | "" => s
          end
      | "" => s
      end
  end.

(** The first byte that is left after [bytes.TrimSpace], or zero. *)
Definition firstMeaningfulByte (val : string) : ascii :=
  match trimLeftSpace val with
  | String c _ => c
  | "" => zero
  end.

Definition isJsonDict (val : string) : bool := Ascii.eqb (firstMeaningfulByte val) "{".
Definition isJsonList (val : string) : bool := Ascii.eqb (firstMeaningfulByte val) "[".
Definition isJsonString (val : string) : bool := Ascii.eqb (firstMeaningfulByte val) quote.

Definition sfieldByJsonName (rtype : option Rtype) (name : string) : Error + StructField :=
  match rtype with
  | None => inl (ErrNoTypeForField name)
  | Some t =>
    match Refut.TraverseStructRtype t
            (fun sfield => (sfieldJsonFieldName sfield =? name)%string) with
    | Refut.Broke sfield => inr sfield
    | Refut.Failed e => inl e
    | Refut.Finished => inl (ErrNoSuchField name (type_name t))
    end
  end.

(** [strings.Split(s, ".")]. *)
Fixpoint split_dots (s : string) : list string :=
  match s with
  | "" => [""]
  | String c s' =>
    if Ascii.eqb c "." then "" :: split_dots s'
    else
      match split_dots s' with
      | h :: t => String c h :: t
      | [] => [one c]
      end
  end.

(** The loop of [structFieldByJsonPath]: [sfield] is the field found last
    ([None] for the zero value before the first segment), the result path
    holds the column names. *)
Fixpoint walkPath (pathStr : string) (rtype : option Rtype) (sfield : option StructField)
         (segments : list string) : Error + (option StructField * list string) :=
  match segments with
  | [] => inr (sfield, [])
  | segment :: rest =>
    match sfieldByJsonName rtype segment with
    | inl e => inl e
    | inr found =>
      let colName := sfieldColumnName found in
      if (colName =? "")%string then
        inl (ErrNoColumnName segment
               (match rtype with Some t => type_name t | None => "" end) pathStr)
      else
        match walkPath pathStr (Some (Type_ found)) (Some found) rest with
        | inl e => inl e
        | inr (last, cols) => inr (last, colName :: cols)
        end
    end
  end.

Definition structFieldByJsonPath (rtype : option Rtype) (pathStr : string)
  : Error + (option StructField * list string) :=
  if negb (dottedPathReg_MatchString pathStr) then inl (ErrInvalidPath pathStr)
  else
    match rtype with
    | None => inl (ErrNoTypeForPath pathStr)
    | Some _ => walkPath pathStr rtype None (split_dots pathStr)
    end.

(** [appendSqlPath(buf, path)]; [many] is [len(path) > 1]. *)
Definition appendSqlPath_step (many : bool) (i : nat) (str : string) : M string unit :=
  if contains_byte quote str then panic (ErrQuoteInIdent str)
  else if i =? 0 then
    if many then appendEnclosed ("(" ++ one quote) str (one quote ++ ")")
    else appendEnclosed (one quote) str (one quote)
  else
    appendStr "." ;;
    appendEnclosed (one quote) str (one quote).

Definition appendSqlPath (path : list string) : M string unit :=
  for_range (appendSqlPath_step (1 <? length path)) 0 path.

(** [appendedBy(fun)]: what [fun] writes into a fresh buffer. *)
Definition appendedBy (fn : M string unit) : Outcome string :=
  match fn "" with
  | Ok _ buf => Returns buf
  | Panic e _ => Panics e
  | OutOfFuel => Exhausted
  end.

Definition isWhitespaceChar (c : ascii) : bool :=
  match byte_val c with
  | 32 | 10 | 13 | 9 | 11 => true
  | _ => false
  end.

Definition endsWithWhitspace (chunk : string) : bool :=
  match last_byte chunk with
  | Some c => isWhitespaceChar c
  | None => false
  end.

Definition appendSpaceIfNeeded : M string unit :=
  modify (fun buf =>
            if (0 <? String.length buf) && negb (endsWithWhitspace buf)
            then buf ++ " " else buf).

End Utils.

(* ------------------------------------------------------------------ *)
(** ** [ord.go] *)

Module Ords.
Import Reflect Utils.

Record Ord : Type := MkOrd { Path : list string; IsDesc : bool }.

Record Ords : Type := MkOrds { Items : list Ord; Type_ : option Rtype }.

Definition OrdsFrom (items : list Ord) : Ords := MkOrds items None.

(** [OrdsFor(val)]; [rtype] is [reflect.TypeOf(val)]. *)
Definition OrdsFor (rtype : option Rtype) : Ords := MkOrds [] rtype.

Definition OrdAsc (path : list string) : Ord := MkOrd path false.
Definition OrdDesc (path : list string) : Ord := MkOrd path true.

(** Simple case folding of the bytes that fold into ASCII letters: the
    upper-case letters, U+017F (long s) and U+212A (Kelvin sign). *)
Fixpoint fold_case (s : string) : string :=
  match s with
  | "" => ""
  | String a s1 =>
    if is_upper a then String (ascii_of_nat (byte_val a + 32)) (fold_case s1)
    else
      match s1 with
      | String b s2 =>
        if (byte_val a =? 197) && (byte_val b =? 191) then String "s" (fold_case s2)
        else
          match s2 with
          | String c s3 =>
            if (byte_val a =? 226) && (byte_val b =? 132) && (byte_val c =? 170)
            then String "k" (fold_case s3)
            else String a (fold_case s1)
          | "" => String a (fold_case s1)
          end
      | "" => String a ""
      end
  end.

(** [strings.EqualFold] on texts of ASCII letters and their folds. *)
Definition EqualFold (s t : string) : bool := (fold_case s =? fold_case t)%string.

Definition parseOrd (self : Ords) (str : string) : Error + Ord :=
  match ordReg_FindStringSubmatch str with
  | None => inl (ErrOrdSyntax str)
  | Some (ident, direction) =>
    match structFieldByJsonPath (Type_ self) ident with
    | inl e => inl e
    | inr (_, path) => inr (MkOrd path (EqualFold direction "desc"))
    end
  end.

(** The loop of [ParseSlice]: returns at the first directive that fails. *)
Fixpoint parseEach (vals : list string) : M Ords error :=
  match vals with
  | [] => ret None
  | val :: vals' =>
    self <- get ;;
    match parseOrd self val with
    | inl e => ret (Some e)
    | inr ord =>
      modify (fun o => MkOrds (Items o ++ [ord]) (Type_ o)) ;;
      parseEach vals'
    end
  end.

Definition ParseSlice (vals : list string) : M Ords error :=
  modify (fun o => MkOrds [] (Type_ o)) ;;
  parseEach vals.

(** [json.Unmarshal(input, &vals)] with [vals []string]. *)
Definition unmarshalStrings (input : string) : option (list string) :=
  match Json.unmarshalList input with
  | Some raws => all_some (map Json.unmarshalString raws)
  | None => None
  end.

Definition UnmarshalJSON (input : string) : M Ords error :=
  match unmarshalStrings input with
  | None => ret (Some ErrJson)
  | Some vals => ParseSlice vals
  end.

Definition Ord_AppendBytes (self : Ord) : M string unit :=
  appendSqlPath (Path self) ;;
  appendStr " " ;;
  if IsDesc self then appendStr "desc" else appendStr "asc".

Definition Ord_String (self : Ord) : Outcome string :=
  appendedBy (Ord_AppendBytes self).

(** The loop of [Ords.AppendBytes], with its flag [first]. *)
Fixpoint appendItems (first : bool) (items : list Ord) : M string unit :=
  match items with
  | [] => ret tt
  | ord :: items' =>
    (if first then appendSpaceIfNeeded ;; appendStr "order by "
     else appendStr ", ") ;;
    Ord_AppendBytes ord ;;
    appendItems false items'
  end.

Definition AppendBytes (self : Ords) : M string unit :=
  appendItems true (Items self).

Definition String_ (self : Ords) : Outcome string :=
  appendedBy (AppendBytes self).

Definition QueryAppend (self : Ords) (out : Sqlb.Query) : Result Sqlb.Query unit :=
  zoom Sqlb.Text (fun t q => Sqlb.MkQuery t (Sqlb.Args q)) (AppendBytes self) out.

Definition IsEmpty (self : Ords) : bool := length (Items self) =? 0.

Definition Append (items : list Ord) : M Ords unit :=
  modify (fun o => MkOrds (Items o ++ items) (Type_ o)).

Definition Or (items : list Ord) : M Ords unit :=
  self <- get ;;
  if IsEmpty self then modify (fun o => MkOrds items (Type_ o)) else ret tt.

End Ords.

(* ------------------------------------------------------------------ *)
(** ** The operator whitelist (both generations of [jel.go]) *)

Inductive SqlOpSyntax : Type :=
| SqlPrefix
| SqlPostfix
| SqlInfix
| SqlFunc
| SqlAny
| SqlBetween.

Definition SqlOps : list (string * SqlOpSyntax) :=
  [ ("and", SqlInfix);
    ("or", SqlInfix);
    ("not", SqlPrefix);
    ("is null", SqlPostfix);
    ("is not null", SqlPostfix);
    ("is true", SqlPostfix);
    ("is not true", SqlPostfix);
    ("is false", SqlPostfix);
    ("is not false", SqlPostfix);
    ("is unknown", SqlPostfix);
    ("is not unknown", SqlPostfix);
    ("is distinct from", SqlInfix);
    ("is not distinct from", SqlInfix);
    ("=", SqlInfix);
    ("~", SqlInfix);
    ("~*", SqlInfix);
    ("~=", SqlInfix);
    ("<>", SqlInfix);
    ("<", SqlInfix);
    (">", SqlInfix);
    (">=", SqlInfix);
    ("<=", SqlInfix);
    ("@@", SqlInfix);
    ("any", SqlAny);
    ("between", SqlBetween) ].

Fixpoint assoc_get {A : Type} (m : list (string * A)) (key : string) : option A :=
  match m with
  | [] => None
  | (k, v) :: m' => if (k =? key)%string then Some v else assoc_get m' key
  end.

(** [SqlOps[name]]; [None] is the zero value, which is no syntax. *)
Definition SqlOps_get (name : string) : option SqlOpSyntax := assoc_get SqlOps name.

(* ------------------------------------------------------------------ *)
(** ** The [sqlb.Query] generation of [jel.go] *)

Module ExprQuery.
Import Reflect Utils.

Record Expr : Type := MkExpr {
  Query : Sqlb.Query;
  Type_ : option Rtype;
  IsBool : bool
}.

(** [ExprFor(val)] and [Bool(val)]; [rtype] is [reflect.TypeOf(val)]. *)
Definition ExprFor (rtype : option Rtype) : Expr :=
  MkExpr (Sqlb.MkQuery "" []) rtype false.

Definition Bool (rtype : option Rtype) : Expr :=
  MkExpr (Sqlb.MkQuery "" []) rtype true.

Definition with_query (q : Sqlb.Query) (self : Expr) : Expr :=
  MkExpr q (Type_ self) (IsBool self).

Definition with_text (text : string) (self : Expr) : Expr :=
  with_query (Sqlb.MkQuery text (Sqlb.Args (Query self))) self.

(** [self.Append(src, args...)], the method of the embedded query. *)
Definition Append (src : string) (args : list Value) : M Expr unit :=
  modify (fun self => with_query (Sqlb.Query_Append src args (Query self)) self).

Definition openParen : M Expr unit := Append "(" [].
Definition closeParen : M Expr unit := Append ")" [].

(** A function on [&self.Text]. *)
Definition onText {A : Type} (m : M string A) : M Expr A :=
  zoom (fun self => Sqlb.Text (Query self)) with_text m.

(** The recursive call [self.decode]. *)
Definition Decoder : Type := string -> M Expr error.

Definition decodeOpPrefix (decode : Decoder) (name : string) (args : list string)
  : M Expr error :=
  rec (
    if negb (length args =? 1) then ret (Some (ErrPrefixArity name (length args)))
    else
      openParen ;;
      Append name [] ;;
      (err <- decode (nth 0 args "") ;; must err) ;;
      closeParen ;;
      ret None).

Definition decodeOpPostfix (decode : Decoder) (name : string) (args : list string)
  : M Expr error :=
  rec (
    if negb (length args =? 1) then ret (Some (ErrPostfixArity name (length args)))
    else
      openParen ;;
      (err <- decode (nth 0 args "") ;; must err) ;;
      Append name [] ;;
      closeParen ;;
      ret None).

(** The body of the loop of [decodeOpInfix]. *)
Definition infixArg (decode : Decoder) (name : string) (i : nat) (arg : string)
  : M Expr unit :=
  (if 0 <? i then Append name [] else ret tt) ;;
  err <- decode arg ;; must err.

Definition decodeOpInfix (decode : Decoder) (name : string) (args : list string)
  : M Expr error :=
  rec (
    if negb (2 <=? length args) then ret (Some (ErrInfixArity name (length args)))
    else
      openParen ;;
      for_range (infixArg decode name) 0 args ;;
      closeParen ;;
      ret None).

(** The body of the loop of [decodeOpFunc]. *)
Definition funcArg (decode : Decoder) (i : nat) (arg : string) : M Expr unit :=
  (if 0 <? i then onText (appendStr ", ") else ret tt) ;;
  err <- decode arg ;; must err.

Definition decodeOpFunc (decode : Decoder) (name : string) (args : list string)
  : M Expr error :=
  rec (
    Append name [] ;;
    openParen ;;
    for_range (funcArg decode) 0 args ;;
    closeParen ;;
    ret None).

Definition decodeOpAny (decode : Decoder) (name : string) (args : list string)
  : M Expr error :=
  rec (
    if negb (length args =? 2) then ret (Some (ErrAnyArity name (length args)))
    else
      openParen ;;
      (err <- decode (nth 0 args "") ;; must err) ;;
      Append "=" [] ;;
      Append name [] ;;
      openParen ;;
      (err <- decode (nth 1 args "") ;; must err) ;;
      closeParen ;;
      closeParen ;;
      ret None).

Definition decodeOpBetween (decode : Decoder) (name : string) (args : list string)
  : M Expr error :=
  rec (
    if negb (length args =? 3) then ret (Some (ErrBetweenArity name (length args)))
    else
      openParen ;;
      (err <- decode (nth 0 args "") ;; must err) ;;
      Append "between" [] ;;
      (err <- decode (nth 1 args "") ;; must err) ;;
      Append "and" [] ;;
      (err <- decode (nth 2 args "") ;; must err) ;;
      closeParen ;;
      ret None).

(** [reflect.New(sfield.Type)] followed by [json.Unmarshal] into it; the
    zero [StructField] has no type to instantiate. *)
Definition unmarshalField (sfield : option StructField) (data : string) : Error + Value :=
  match sfield with
  | None => inl ErrJson
  | Some f =>
    match unmarshalInto (Reflect.Type_ f) data with
    | Some v => inr v
    | None => inl ErrJson
    end
  end.

Definition decodeCast (name : string) (args : list string) : M Expr error :=
  rec (
    if negb (length args =? 1) then ret (Some (ErrCastArity name (length args)))
    else
      self <- get ;;
      match structFieldByJsonPath (Type_ self) name with
      | inl e => must (Some e) ;; ret None
      | inr (sfield, _) =>
        match unmarshalField sfield (nth 0 args "") with
        | inl e => must (Some e) ;; ret None
        | inr val => Append "$1" [val] ;; ret None
        end
      end).

Definition decodeString (input : string) : M Expr error :=
  rec (
    match Json.unmarshalString input with
    | None => must (Some ErrJson) ;; ret None
    | Some str =>
      self <- get ;;
      match structFieldByJsonPath (Type_ self) str with
      | inl e => ret (Some e)
      | inr (_, path) => onText (appendSqlPath path) ;; ret None
      end
    end).

Definition decodeAny (input : string) : M Expr error :=
  match Json.unmarshalAny input with
  | None => ret (Some ErrJson)
  | Some val => Append "$1" [val] ;; ret None
  end.

Definition decodeList (decode : Decoder) (input : string) : M Expr error :=
  match Json.unmarshalList input with
  | None => ret (Some ErrUnmarshalList)
  | Some list =>
    if negb (0 <? length list) then ret (Some ErrEmptyList)
    else
      let head := nth 0 list "" in
      let args := tl list in
      if negb (isJsonString head) then ret (Some (ErrHeadNotString head))
      else
        match Json.unmarshalString head with
        | None => ret (Some ErrUnmarshalHead)
        | Some name =>
          match SqlOps_get name with
          | Some SqlPrefix => decodeOpPrefix decode name args
          | Some SqlPostfix => decodeOpPostfix decode name args
          | Some SqlInfix => decodeOpInfix decode name args
          | Some SqlFunc => decodeOpFunc decode name args
          | Some SqlAny => decodeOpAny decode name args
          | Some SqlBetween => decodeOpBetween decode name args
          | None => decodeCast name args
          end
        end
  end.

(** [Expr.decode]; [fuel] bounds the depth of the recursion through
    [decodeList]. *)
Fixpoint decode (fuel : nat) (input : string) : M Expr error :=
  match fuel with
  | 0 => fun _ => OutOfFuel
  | S fuel' =>
    if isJsonDict input then ret (Some (ErrUnexpectedDict input))
    else if isJsonList input then decodeList (decode fuel') input
    else if isJsonString input then decodeString input
    else decodeAny input
  end.

(** A list element is shorter than its list, so the length of the input
    bounds the depth of the recursion. *)
Definition enough (input : string) : nat := S (String.length input).

(** What the caller of a method on [*Expr] sees: the error result with the
    receiver as left by the call, or a panic. *)
Definition call (m : M Expr error) (self : Expr) : Outcome (Expr * error) :=
  match m self with
  | Ok err self' => Returns (self', err)
  | Panic e _ => Panics e
  | OutOfFuel => Exhausted
  end.

Definition UnmarshalText (self : Expr) (input : string) : Outcome (Expr * error) :=
  call (decode (enough input) input) self.

Definition UnmarshalJSON (self : Expr) (input : string) : Outcome (Expr * error) :=
  call (decode (enough input) input) self.

Definition QueryAppend (self : Expr) (out : Sqlb.Query) : Sqlb.Query :=
  if IsBool self && (String.length (Sqlb.Text (Query self)) =? 0)
  then Sqlb.Query_Append "true" [] out
  else Sqlb.Query_QueryAppend (Query self) out.

(** [expr.String()], the text of the embedded query. *)
Definition String_ (self : Expr) : string := Sqlb.Text (Query self).

End ExprQuery.

(* ------------------------------------------------------------------ *)
(** ** [jel_internal.go] *)

Module Internal.
Import Reflect.

Definition try {St : Type} (err : error) : M St unit :=
  match err with
  | Some e => panic e
  | None => ret tt
  end.

Definition firstMeaningfulByte (val : string) : ascii :=
  match Utils.trimLeftSpace val with
  | String c _ => c
  | "" => zero
  end.

Definition isJsonDict (val : string) : bool := Ascii.eqb (firstMeaningfulByte val) "{".
Definition isJsonList (val : string) : bool := Ascii.eqb (firstMeaningfulByte val) "[".
Definition isJsonString (val : string) : bool := Ascii.eqb (firstMeaningfulByte val) quote.

Definition dottedPathReg_MatchString (s : string) : bool :=
  Regexp.matches Utils.dottedPath s.

Definition fieldByJsonName (rtype : option Rtype) (name : string) : Error + StructField :=
  match rtype with
  | None => inl (ErrNoTypeForField name)
  | Some t =>
    match Refut.TraverseStructRtype t
            (fun sfield => (Sqlb.FieldJsonName sfield =? name)%string) with
    | Refut.Broke sfield => inr sfield
    | Refut.Failed e => inl e
    | Refut.Finished => inl (ErrNoSuchField name (type_name t))
    end
  end.

(** The loop of [fieldByJsonPath]. *)
Fixpoint walkPath (pathStr : string) (rtype : option Rtype) (sfield : option StructField)
         (segments : list string) : Error + (option StructField * list string) :=
  match segments with
  | [] => inr (sfield, [])
  | segment :: rest =>
    match fieldByJsonName rtype segment with
    | inl e => inl e
    | inr found =>
      let colName := Sqlb.FieldDbName found in
      if (colName =? "")%string then
        inl (ErrNoColumnName segment
               (match rtype with Some t => type_name t | None => "" end) pathStr)
      else
        match walkPath pathStr (Some (Type_ found)) (Some found) rest with
        | inl e => inl e
        | inr (last, cols) => inr (last, colName :: cols)
        end
    end
  end.

Definition fieldByJsonPath (rtype : option Rtype) (pathStr : string)
  : Error + (option StructField * list string) :=
  if negb (dottedPathReg_MatchString pathStr) then inl (ErrInvalidPath pathStr)
  else
    match rtype with
    | None => inl (ErrNoTypeForPath pathStr)
    | Some _ => walkPath pathStr rtype None (Utils.split_dots pathStr)
    end.

Fixpoint typeElem_some (typ : Rtype) : Rtype :=
  match typ with
  | Ptr e => typeElem_some e
  | Slice e => typeElem_some e
  | _ => typ
  end.

Definition typeElem (typ : option Rtype) : option Rtype :=
  option_map typeElem_some typ.

(** [elemTypeOf(val)]; [rtype] is [reflect.TypeOf(val)]. *)
Definition elemTypeOf (rtype : option Rtype) : option Rtype := typeElem rtype.

End Internal.

(* ------------------------------------------------------------------ *)
(** ** The [sqlb.Bui] generation of [jel.go] *)

Module ExprBui.
Import Reflect Internal.

Record Expr : Type := MkExpr {
  Text : string;
  Type_ : option Rtype;
  IsBool : bool
}.

Definition ExprFor (rtype : option Rtype) : Expr :=
  MkExpr "" (elemTypeOf rtype) false.

Definition Bool (rtype : option Rtype) : Expr :=
  MkExpr "" (elemTypeOf rtype) true.

(** Both store the input and return [nil]. *)
Definition UnmarshalText (self : Expr) (val : string) : Expr * error :=
  (MkExpr val (Type_ self) (IsBool self), None).

Definition UnmarshalJSON (self : Expr) (val : string) : Expr * error :=
  (MkExpr val (Type_ self) (IsBool self), None).

Definition Str (val : string) : M Sqlb.Bui unit := modify (Sqlb.Bui_Str val).

Definition Arg (val : Value) : M Sqlb.Bui nat :=
  fun bui => let (ordinal, bui') := Sqlb.Bui_Arg val bui in Ok ordinal bui'.

Definition Param (ordinal : nat) : M Sqlb.Bui unit := modify (Sqlb.Bui_Param ordinal).

Definition openParen : M Sqlb.Bui unit := Str "(".
Definition closeParen : M Sqlb.Bui unit := Str ")".

(** The recursive call [self.decode(bui, input)]. *)
Definition Decoder : Type := string -> M Sqlb.Bui unit.

Definition decodeOpPrefix (decode : Decoder) (name : string) (args : list string)
  : M Sqlb.Bui unit :=
  if negb (length args =? 1) then panic (ErrPrefixArity name (length args))
  else
    openParen ;;
    Str name ;;
    decode (nth 0 args "") ;;
    closeParen.

Definition decodeOpPostfix (decode : Decoder) (name : string) (args : list string)
  : M Sqlb.Bui unit :=
  if negb (length args =? 1) then panic (ErrPostfixArity name (length args))
  else
    openParen ;;
    decode (nth 0 args "") ;;
    Str name ;;
    closeParen.

(** The body of the loop of [decodeOpInfix]. *)
Definition infixArg (decode : Decoder) (name : string) (i : nat) (arg : string)
  : M Sqlb.Bui unit :=
  (if 0 <? i then Str name else ret tt) ;; decode arg.

Definition decodeOpInfix (decode : Decoder) (name : string) (args : list string)
  : M Sqlb.Bui unit :=
  if negb (2 <=? length args) then panic (ErrInfixArity name (length args))
  else
    openParen ;;
    for_range (infixArg decode name) 0 args ;;
    closeParen.

(** The body of the loop of [decodeOpFunc]. *)
Definition funcArg (decode : Decoder) (i : nat) (arg : string) : M Sqlb.Bui unit :=
  (if 0 <? i then Str "," else ret tt) ;; decode arg.

Definition decodeOpFunc (decode : Decoder) (name : string) (args : list string)
  : M Sqlb.Bui unit :=
  Str name ;;
  openParen ;;
  for_range (funcArg decode) 0 args ;;
  closeParen.

Definition decodeOpAny (decode : Decoder) (name : string) (args : list string)
  : M Sqlb.Bui unit :=
  if negb (length args =? 2) then panic (ErrAnyArity name (length args))
  else
    openParen ;;
    decode (nth 0 args "") ;;
    Str "=" ;;
    Str name ;;
    openParen ;;
    decode (nth 1 args "") ;;
    closeParen ;;
    closeParen.

Definition decodeOpBetween (decode : Decoder) (name : string) (args : list string)
  : M Sqlb.Bui unit :=
  if negb (length args =? 3) then panic (ErrBetweenArity name (length args))
  else
    openParen ;;
    decode (nth 0 args "") ;;
    Str "between" ;;
    decode (nth 1 args "") ;;
    Str "and" ;;
    decode (nth 2 args "") ;;
    closeParen.

(** [reflect.New(sfield.Type)] followed by [json.Unmarshal] into it. *)
Definition unmarshalField (sfield : option StructField) (data : string) : Error + Value :=
  match sfield with
  | None => inl ErrJson
  | Some f =>
    match unmarshalInto (Reflect.Type_ f) data with
    | Some v => inr v
    | None => inl ErrJson
    end
  end.

Definition decodeCast (self : Expr) (name : string) (args : list string)
  : M Sqlb.Bui unit :=
  if negb (length args =? 1) then panic (ErrCastArity name (length args))
  else
    match fieldByJsonPath (Type_ self) name with
    | inl e => try (Some e)
    | inr (sfield, _) =>
      match unmarshalField sfield (nth 0 args "") with
      | inl e => try (Some e)
      | inr val => ordinal <- Arg val ;; Param ordinal
      end
    end.

Definition decodeString (self : Expr) (input : string) : M Sqlb.Bui unit :=
  match Json.unmarshalString input with
  | None => try (Some ErrJson)
  | Some str =>
    match fieldByJsonPath (Type_ self) str with
    | inl e => try (Some e)
    | inr (_, path) =>
      bui <- get ;;
      let (text, args) := Sqlb.Bui_Get bui in
      match Sqlb.Path_AppendExpr path text args with
      | inl e => panic e
      | inr (text', args') => modify (Sqlb.Bui_Set text' args')
      end
    end
  end.

Definition decodeAny (input : string) : M Sqlb.Bui unit :=
  match Json.unmarshalAny input with
  | None => try (Some ErrJson)
  | Some val => ordinal <- Arg val ;; Param ordinal
  end.

Definition decodeList (self : Expr) (decode : Decoder) (input : string)
  : M Sqlb.Bui unit :=
  match Json.unmarshalList input with
  | None => panic ErrUnmarshalList
  | Some list =>
    if negb (0 <? length list) then panic ErrEmptyList
    else
      let head := nth 0 list "" in
      let args := tl list in
      if negb (isJsonString head) then panic (ErrHeadNotString head)
      else
        match Json.unmarshalString head with
        | None => panic ErrUnmarshalHead
        | Some name =>
          match SqlOps_get name with
          | Some SqlPrefix => decodeOpPrefix decode name args
          | Some SqlPostfix => decodeOpPostfix decode name args
          | Some SqlInfix => decodeOpInfix decode name args
          | Some SqlFunc => decodeOpFunc decode name args
          | Some SqlAny => decodeOpAny decode name args
          | Some SqlBetween => decodeOpBetween decode name args
          | None => decodeCast self name args
          end
        end
  end.

(** [Expr.decode]; [fuel] bounds the depth of the recursion through
    [decodeList]. *)
Fixpoint decode (fuel : nat) (self : Expr) (input : string) : M Sqlb.Bui unit :=
  match fuel with
  | 0 => fun _ => OutOfFuel
  | S fuel' =>
    if isJsonDict input then panic (ErrUnexpectedDict input)
    else if isJsonList input then decodeList self (decode fuel' self) input
    else if isJsonString input then decodeString self input
    else decodeAny input
  end.

Definition enough (input : string) : nat := S (String.length input).

(** [AppendExpr] with a given recursion budget.  The builder is a local
    of the call: a panic leaves the caller with nothing but the panic. *)
Definition AppendExprWith (fuel : nat) (self : Expr) (text : string) (args : list Value)
  : Outcome (string * list Value) :=
  let bui := Sqlb.MkBui text args in
  let run :=
      if IsBool self && (String.length (Text self) =? 0)
      then Str "true" bui
      else decode fuel self (Text self) bui in
  match run with
  | Ok _ bui' => Returns (Sqlb.Bui_Get bui')
  | Panic e _ => Panics e
  | OutOfFuel => Exhausted
  end.

Definition AppendExpr (self : Expr) (text : string) (args : list Value)
  : Outcome (string * list Value) :=
  AppendExprWith (enough (Text self)) self text args.

(** [exprAppend] and [exprString] of [jel_internal.go], at [Expr]. *)
Definition AppendTo (self : Expr) (text : string) : Outcome string :=
  match AppendExpr self text [] with
  | Returns (text', _) => Returns text'
  | Panics e => Panics e
  | Exhausted => Exhausted
  end.

Definition String_ (self : Expr) : Outcome string := AppendTo self "".

End ExprBui.

(* ------------------------------------------------------------------ *)
(** ** The schema of the package's tests ([jel_test.go]) *)

Module TestSchema.
Import Reflect.

(** A JSON string literal without escapes. *)
Definition jstr (s : string) : string := dq ++ s ++ dq.

Definition timeType : Rtype := Basic "time.Time" AsTextual.
Definition stringType : Rtype := Basic "string" AsString.

Definition Internal : Rtype :=
  Struct "jel.Internal"
         [MkField "InternalTime" false "internalTime" "internal_time" (Ptr timeType)]
         AsObject.

Definition External : Rtype :=
  Struct "jel.External"
         [MkField "ExternalName" false "externalName" "external_name" stringType;
          MkField "Internal" false "internal" "internal" Internal]
         AsObject.

(** The input of [TestTranscode]. *)
Definition src : string :=
  "[" ++ jstr "and" ++ ",
      [" ++ jstr "or" ++ ",
        false,
        [" ++ jstr "=" ++ ", " ++ jstr "externalName" ++ ", ["
             ++ jstr "externalName" ++ ", " ++ jstr "literal string" ++ "]]
      ],
      [" ++ jstr "and" ++ ",
        true,
        [" ++ jstr "<" ++ ", " ++ jstr "internal.internalTime" ++ ", ["
             ++ jstr "internal.internalTime" ++ ", " ++ jstr "9999-01-01T00:00:00Z" ++ "]]
      ]
    ]".

(** A schema whose column name holds a double quote. *)
Definition Quoted : Rtype :=
  Struct "Quoted"
         [MkField "Plain" false "plain" "plain_col" stringType;
          MkField "Odd" false "odd" ("od" ++ dq ++ "d") stringType;
          MkField "Inner" false "inner" "inner"
                  (Struct "QuotedInner"
                          [MkField "Odd" false "odd" ("od" ++ dq ++ "d") stringType]
                          AsObject)]
         AsObject.

(** [n] prefix operations around a literal. *)
Fixpoint nested (n : nat) : string :=
  match n with
  | 0 => "true"
  | S n' => "[" ++ jstr "not" ++ "," ++ nested n' ++ "]"
  end.

(** The parse of [nested n]. *)
Fixpoint nested_json (n : nat) : Json.Json :=
  match n with
  | 0 => Json.JBool true
  | S n' => Json.JArray [(jstr "not", Json.JString "not"); (nested n', nested_json n')]
  end.

(** The SQL text of [nested n] as the [sqlb.Bui] generation writes it. *)
Fixpoint nested_sql (n : nat) : string :=
  match n with
  | 0 => "$1"
  | S n' => "(not " ++ nested_sql n' ++ ")"
  end.

(** The SQL text of [nested n] as the [sqlb.Query] generation writes
    it. *)
Fixpoint nested_sql_spaced (n : nat) : string :=
  match n with
  | 0 => "$1"
  | S n' => "( not " ++ nested_sql_spaced n' ++ " )"
  end.

End TestSchema.

(* ------------------------------------------------------------------ *)
(** ** Vocabulary of the properties *)

(** The raw text of an element is shorter than [raw]. *)
Definition shorter_than (raw : string) {A : Type} (e : string * A) : Prop :=
  String.length (fst e) < String.length raw.

(** A computation that stays within its recursion budget. *)
Definition safe {St A : Type} (m : M St A) : Prop :=
  forall s, m s <> OutOfFuel.

(** A computation out of which no panic comes. *)
Definition calm {St A : Type} (m : M St A) : Prop :=
  forall s e s', m s <> Panic e s'.

(** An error other than that of the ordering syntax. *)
Definition not_syntax (e : Error) : Prop := forall s, e <> ErrOrdSyntax s.

(** Computations with the same outcome from every state. *)
Definition agree {St A : Type} (m1 m2 : M St A) : Prop :=
  forall s, m1 s = m2 s.

(* ------------------------------------------------------------------ *)
(** ** Vocabulary of the further properties *)

(** A text that the newer builder sets off with a space on either side:
    it neither starts nor ends with a delimiter. *)
Definition solid (x : string) : Prop :=
  Sqlb.hasDelimPrefix x = false /\ Sqlb.hasDelimSuffix x = false.

(** The space that the newer builder puts between two texts. *)
Definition sep (x y : string) : string :=
  if negb (Sqlb.hasDelimSuffix x) && negb (Sqlb.hasDelimPrefix y) then " " else "".

(** A computation that, from every state of the builder, appends one
    fragment, which may depend on the number of arguments already held,
    and a fixed list of arguments. *)
Definition writes (m : M Sqlb.Bui unit) (frag : nat -> string) (vals : list Value) : Prop :=
  forall t a,
    m (Sqlb.MkBui t a) =
    Ok tt (Sqlb.MkBui (Sqlb.appendMaybeSpaced t (frag (length a))) (a ++ vals)).

(** A computation that panics with [e] from every state. *)
Definition refuses {St A : Type} (m : M St A) (e : Error) : Prop :=
  forall s, exists s', m s = Panic e s'.

Definition parens (x : string) : string := "(" ++ x ++ ")".

(** What an operand contributes: its fragment, as a function of the
    number of arguments held before it, and its arguments. *)
Definition Piece : Type := (nat -> string) * list Value.

(** The fragments of operands in a row, with [between] between them; each
    operand is numbered after the arguments of those before it. *)
Fixpoint joined (between : string) (pieces : list Piece) (k : nat) : string :=
  match pieces with
  | [] => ""
  | (f, v) :: rest =>
    match rest with
    | [] => f k
    | _ :: _ => f k ++ between ++ joined between rest (k + length v)
    end
  end.

(** The arguments of operands in a row. *)
Definition values (pieces : list Piece) : list Value := concat (map snd pieces).

(** A fragment with [n] parameters, numbered in the order in which they
    are written from the first free ordinal on: it is made of fixed texts
    and of parameters, each part numbered after the parameters of the parts
    before it. *)
Inductive numbered : (nat -> string) -> nat -> Prop :=
| numbered_const : forall s, numbered (fun _ => s) 0
| numbered_param : numbered (fun k => "$" ++ itoa (S k)) 1
| numbered_cat : forall f g m n,
    numbered f m -> numbered g n -> numbered (fun k => f k ++ g (k + m)) (m + n)
| numbered_ext : forall f g n,
    (forall k, f k = g k) -> numbered f n -> numbered g n.

(** A computation that writes a piece, whatever the builder holds: the
    fragment is one that the builder sets off with spaces, and it has one
    parameter for each argument, in their order. *)
Definition emits (m : M Sqlb.Bui unit) (p : Piece) : Prop :=
  writes m (fst p) (snd p)
  /\ (forall k, solid (fst p k))
  /\ numbered (fst p) (length (snd p)).

(** A text of bytes that all satisfy [p]. *)
Fixpoint all_bytes (p : ascii -> bool) (s : string) : bool :=
  match s with
  | "" => true
  | String c s' => p c && all_bytes p s'
  end.

(** A non-empty text of word characters. *)
Definition is_word (s : string) : bool :=
  negb (s =? "")%string && all_bytes Regexp.word_char s.

(** [strings.Join(segments, ".")]. *)
Fixpoint join_dots (segments : list string) : string :=
  match segments with
  | [] => ""
  | [s] => s
  | s :: rest => s ++ "." ++ join_dots rest
  end.

(** The two spellings of a direction under [(?i)], the alternatives of
    [Utils.ordDirection]. *)
Definition ascending : Regexp.re :=
  Regexp.Seq (Regexp.FoldLetter "a" "A")
             (Regexp.Seq Regexp.FoldS (Regexp.FoldLetter "c" "C")).

Definition descending : Regexp.re :=
  Regexp.Seq (Regexp.FoldLetter "d" "D")
             (Regexp.Seq (Regexp.FoldLetter "e" "E")
                         (Regexp.Seq Regexp.FoldS (Regexp.FoldLetter "c" "C"))).

(** The SQL text of one ordering. *)
Definition ord_text (ord : Ords.Ord) : string :=
  render_path (Ords.Path ord) ++ (if Ords.IsDesc ord then " desc" else " asc").

(** Texts with a comma and a space between each two. *)
Fixpoint join_commas (texts : list string) : string :=
  match texts with
  | [] => ""
  | [t] => t
  | t :: rest => t ++ ", " ++ join_commas rest
  end.

(** A buffer after [appendSpaceIfNeeded]. *)
Definition with_space (buf : string) : string :=
  if (0 <? String.length buf) && negb (Utils.endsWithWhitspace buf)
  then buf ++ " " else buf.

(** An expression of the older generation after more was written to it:
    the type and the flag are the same, the text and the arguments begin
    with what they were. *)
Definition extends (s s' : ExprQuery.Expr) : Prop :=
  ExprQuery.Type_ s' = ExprQuery.Type_ s
  /\ ExprQuery.IsBool s' = ExprQuery.IsBool s
  /\ (exists t, Sqlb.Text (ExprQuery.Query s') = Sqlb.Text (ExprQuery.Query s) ++ t)
  /\ (exists v, Sqlb.Args (ExprQuery.Query s') = (Sqlb.Args (ExprQuery.Query s) ++ v)%list).

(** A computation that only adds to the expression, also when it
    panics. *)
Definition grows {A : Type} (m : M ExprQuery.Expr A) : Prop :=
  forall s,
    match m s with
    | Ok _ s' => extends s s'
    | Panic _ s' => extends s s'
    | OutOfFuel => True
    end.

(** A computation on a buffer that only adds to it. *)
Definition appends {A : Type} (m : M string A) : Prop :=
  forall buf,
    match m buf with
    | Ok _ buf' => exists t, buf' = buf ++ t
    | Panic _ buf' => exists t, buf' = buf ++ t
    | OutOfFuel => True
    end.

(** For the examples: the decoder of an expression without a type, and
    the piece of a literal. *)
Definition plain : ExprBui.Decoder := ExprBui.decode 3 (ExprBui.ExprFor None).
Definition param_of (val : Value) : Piece := (fun k => "$" ++ itoa (S k), [val]).

(** Steps of the older generation on an expression of type [ty]: one that
    goes through and adds the arguments [vals]; one that panics with [e]. *)
Definition advances (ty : option Reflect.Rtype) (m : M ExprQuery.Expr unit)
           (vals : list Value) : Prop :=
  forall s, ExprQuery.Type_ s = ty ->
    exists s', m s = Ok tt s'
               /\ ExprQuery.Type_ s' = ty
               /\ Sqlb.Args (ExprQuery.Query s') = (Sqlb.Args (ExprQuery.Query s) ++ vals)%list.

Definition fails {A : Type} (ty : option Reflect.Rtype) (m : M ExprQuery.Expr A)
           (e : Error) : Prop :=
  forall s, ExprQuery.Type_ s = ty -> exists s', m s = Panic e s'.

(** Methods of the older generation: one that returns [nil] and adds the
    arguments [vals]; one that returns the error [e]. *)
Definition finishes (ty : option Reflect.Rtype) (m : M ExprQuery.Expr error)
           (vals : list Value) : Prop :=
  forall s, ExprQuery.Type_ s = ty ->
    exists s', m s = Ok None s'
               /\ ExprQuery.Type_ s' = ty
               /\ Sqlb.Args (ExprQuery.Query s') = (Sqlb.Args (ExprQuery.Query s) ++ vals)%list.

Definition errs (ty : option Reflect.Rtype) (m : M ExprQuery.Expr error)
           (e : Error) : Prop :=
  forall s, ExprQuery.Type_ s = ty -> exists s', m s = Ok (Some e) s'.

(** A method of the older generation and a computation of the newer one
    that do the same: the one returns the error with which the other
    panics, or the one returns [nil] and both add the same arguments. *)
Definition mirrors (ty : option Reflect.Rtype)
           (older : M ExprQuery.Expr error) (newer : M Sqlb.Bui unit) : Prop :=
  (exists e, errs ty older e /\ refuses newer e)
  \/ (exists p, finishes ty older (snd p) /\ emits newer p).

(** A computation whose outcome does not depend on what the builder
    holds: it is refused with one error, or writes one piece. *)
Definition uniform (m : M Sqlb.Bui unit) : Prop :=
  (exists e, refuses m e) \/ (exists p, emits m p).

(** A computation that goes through from every state. *)
Definition passes {St : Type} (m : M St unit) : Prop :=
  forall s, exists s', m s = Ok tt s'.

(* ================================================================== *)
(** * Properties *)

(* ------------------------------------------------------------------ *)
(** ** Strings *)

Lemma append_nil_r (s : string) : s ++ "" = s.
Proof. induction s; simpl; congruence. Qed.

Lemma append_assoc (s t u : string) : (s ++ t) ++ u = s ++ t ++ u.
Proof. induction s; simpl; congruence. Qed.

Lemma length_append (s t : string) :
  String.length (s ++ t) = String.length s + String.length t.
Proof. induction s; simpl; auto. Qed.

Lemma append_eq_nil (s t : string) : s ++ t = "" -> s = "" /\ t = "".
Proof. destruct s; simpl; intros H; [auto | discriminate]. Qed.

Lemma last_byte_snoc (s : string) (c : ascii) : last_byte (s ++ one c) = Some c.
Proof.
  induction s as [|d s IH]; simpl; auto.
  rewrite IH. destruct (s ++ one c) eqn:E; auto.
  destruct s; discriminate.
Qed.

Lemma last_byte_append (s t : string) :
  t <> "" -> last_byte (s ++ t) = last_byte t.
Proof.
  intros Ht. induction s as [|d s IH]; simpl; auto.
  rewrite IH. destruct (s ++ t) eqn:E; auto.
  apply append_eq_nil in E. tauto.
Qed.

(* ------------------------------------------------------------------ *)
(** ** Regular expressions: [matches] decides [lang] *)

Module RegexpFacts.
Import Regexp.

Lemma nullable_lang (r : re) : nullable r = true <-> lang r "".
Proof.
  induction r as [ | | p | a IHa b IHb | a IHa b IHb | a IHa]; simpl; split; intros H.
  - discriminate.
  - inversion H.
  - constructor.
  - reflexivity.
  - discriminate.
  - inversion H.
  - apply andb_true_iff in H as [H1 H2].
    change "" with ("" ++ ""). constructor; tauto.
  - inversion H as [ | | a' b' s t Hs Ht E1 E2 | | | | ]; subst.
    apply append_eq_nil in E2 as [-> ->]. apply andb_true_iff; tauto.
  - apply orb_true_iff in H as [H | H];
      [apply lang_alt_l | apply lang_alt_r]; tauto.
  - apply orb_true_iff. inversion H; subst; tauto.
  - constructor.
  - reflexivity.
Qed.

Lemma lang_star_cons_inv (a : re) (u : string) :
  lang (Star a) u ->
  forall c s, u = String c s ->
  exists s1 s2, s = s1 ++ s2 /\ lang a (String c s1) /\ lang (Star a) s2.
Proof.
  intros H. remember (Star a) as r eqn:Er.
  induction H as [ | | | | | a' | a' x t Hx _ Ht IHt]; try discriminate Er.
  - intros c s E. discriminate E.
  - injection Er as ->. intros c s E.
    destruct x as [|d x]; simpl in E.
    + apply IHt; auto.
    + injection E as -> <-. exists x, t. auto.
Qed.

Lemma deriv_lang (r : re) : forall c s, lang (deriv c r) s <-> lang r (String c s).
Proof.
  induction r as [ | | p | a IHa b IHb | a IHa b IHb | a IHa]; intros c s; simpl.
  - split; intros H; inversion H.
  - split; intros H; inversion H.
  - destruct (p c) eqn:Hp; split; intros H.
    + inversion H; subst. apply (lang_class p c Hp).
    + inversion H; subst. constructor.
    + inversion H.
    + inversion H; subst. congruence.
  - assert (Hseq : lang (Seq (deriv c a) b) s -> lang (Seq a b) (String c s)).
    { intros H. inversion H as [ | | a' b' s1 s2 H1 H2 E1 E2 | | | | ]; subst.
      change (String c (s1 ++ s2)) with (String c s1 ++ s2).
      constructor; [apply IHa|]; assumption. }
    assert (Hinv : lang (Seq a b) (String c s) ->
                   lang (Seq (deriv c a) b) s \/ (lang a "" /\ lang b (String c s))).
    { intros H. inversion H as [ | | a' b' s1 s2 H1 H2 E1 E2 | | | | ]; subst.
      destruct s1 as [|d s1]; simpl in E2.
      - right. subst. auto.
      - injection E2 as -> <-. left. constructor; [apply IHa|]; assumption. }
    destruct (nullable a) eqn:Hn; split; intros H.
    + inversion H; subst; auto.
      change (String c s) with ("" ++ String c s).
      constructor; [apply nullable_lang | apply IHb]; assumption.
    + destruct (Hinv H) as [H' | [_ H']].
      * apply lang_alt_l; assumption.
      * apply lang_alt_r, IHb; assumption.
    + auto.
    + destruct (Hinv H) as [H' | [H' _]]; auto.
      apply nullable_lang in H'. congruence.
  - split; intros H; inversion H; subst;
      solve [apply lang_alt_l, IHa; assumption | apply lang_alt_r, IHb; assumption].
  - split; intros H.
    + inversion H as [ | | a' b' s1 s2 H1 H2 E1 E2 | | | | ]; subst.
      change (String c (s1 ++ s2)) with (String c s1 ++ s2).
      constructor; [apply IHa|]; assumption.
    + destruct (lang_star_cons_inv a _ H c s eq_refl) as (s1 & s2 & -> & H1 & H2).
      constructor; [apply IHa|]; assumption.
Qed.

Lemma matches_lang (s : string) : forall r, matches r s = true <-> lang r s.
Proof.
  induction s as [|c s IH]; intros r; simpl.
  - apply nullable_lang.
  - rewrite IH. apply deriv_lang.
Qed.

Lemma matches_seq (a b : re) (s : string) :
  matches (Seq a b) s = true <->
  exists s1 s2, s = s1 ++ s2 /\ matches a s1 = true /\ matches b s2 = true.
Proof.
  rewrite matches_lang. split.
  - intros H. inversion H as [ | | a' b' s1 s2 H1 H2 E1 E2 | | | | ]; subst.
    exists s1, s2. rewrite !matches_lang. auto.
  - intros (s1 & s2 & -> & H1 & H2). apply matches_lang in H1, H2.
    constructor; assumption.
Qed.

Lemma in_splits (s s1 s2 : string) : In (s1, s2) (splits s) <-> s = s1 ++ s2.
Proof.
  revert s1 s2. induction s as [|c s IH]; intros s1 s2; simpl.
  - split.
    + intros [H | []]. injection H as <- <-. reflexivity.
    + intros H. symmetry in H. apply append_eq_nil in H as [-> ->]. auto.
  - rewrite in_app_iff, in_map_iff. split.
    + intros [((t1 & t2) & E & Hin) | [E | []]].
      * simpl in E. injection E as <- <-. apply IH in Hin. subst. reflexivity.
      * injection E as <- <-. reflexivity.
    + intros E. destruct s1 as [|d s1]; simpl in E.
      * right. left. subst. reflexivity.
      * injection E as <- ->. left. exists (s1, s2). split; auto. apply IH; auto.
Qed.

Lemma first_some_none {A B : Type} (f : A -> option B) (l : list A) :
  first_some f l = None <-> forall x, In x l -> f x = None.
Proof.
  induction l as [|x l IH]; simpl.
  - split; auto. intros _ x [].
  - destruct (f x) eqn:E.
    + split; [discriminate|]. intros H. rewrite <- E. symmetry. rewrite <- (H x); auto.
    + rewrite IH. split.
      * intros H y [<- | Hy]; auto.
      * auto.
Qed.

Lemma first_some_some {A B : Type} (f : A -> option B) (l : list A) (y : B) :
  first_some f l = Some y -> exists x, In x l /\ f x = Some y.
Proof.
  induction l as [|x l IH]; simpl; [discriminate|].
  destruct (f x) eqn:E.
  - intros H. injection H as <-. exists x. auto.
  - intros H. destruct (IH H) as (x' & Hin & Hx). exists x'. auto.
Qed.

(** The groups found are a split of the text into the three parts. *)
Lemma find_groups_some (a b c : re) (s x z : string) :
  find_groups a b c s = Some (x, z) ->
  exists y, s = x ++ y ++ z /\
            matches a x = true /\ matches b y = true /\ matches c z = true.
Proof.
  unfold find_groups. intros H.
  apply first_some_some in H as ((s1 & r1) & Hin1 & H). simpl in H.
  destruct (matches a s1) eqn:Ha; [|discriminate].
  apply first_some_some in H as ((s2 & s3) & Hin2 & H). simpl in H.
  destruct (matches b s2 && matches c s3) eqn:Hbc; [|discriminate].
  injection H as <- <-. apply andb_true_iff in Hbc as [Hb Hc].
  apply in_splits in Hin1, Hin2. subst. exists s2. auto.
Qed.

(** No groups are found exactly when the whole expression does not
    match. *)
Lemma find_groups_none (a b c : re) (s : string) :
  find_groups a b c s = None <-> matches (Seq a (Seq b c)) s = false.
Proof.
  split.
  - intros H. destruct (matches (Seq a (Seq b c)) s) eqn:E; auto.
    apply matches_seq in E as (s1 & r1 & -> & Ha & E).
    apply matches_seq in E as (s2 & s3 & -> & Hb & Hc).
    unfold find_groups in H. rewrite first_some_none in H.
    specialize (H (s1, s2 ++ s3)). simpl in H. rewrite Ha in H.
    assert (Hin : In (s1, s2 ++ s3) (splits (s1 ++ s2 ++ s3))) by (apply in_splits; auto).
    specialize (H Hin). rewrite first_some_none in H.
    specialize (H (s2, s3)). simpl in H. rewrite Hb, Hc in H.
    assert (Hin2 : In (s2, s3) (splits (s2 ++ s3))) by (apply in_splits; auto).
    specialize (H Hin2). discriminate.
  - intros H. destruct (find_groups a b c s) as [[x z]|] eqn:E; auto.
    apply find_groups_some in E as (y & -> & Ha & Hb & Hc).
    assert (matches (Seq a (Seq b c)) (x ++ y ++ z) = true).
    { apply matches_seq. exists x, (y ++ z). repeat split; auto.
      apply matches_seq. exists y, z. auto. }
    congruence.
Qed.

End RegexpFacts.

(* ------------------------------------------------------------------ *)
(** ** The JSON reader consumes what it returns *)

Module JsonFacts.
Import Json.

(** Case analysis on the scrutinee of a match in a hypothesis. *)
Ltac break_hyp H :=
  repeat match type of H with
         | context [match ?x with _ => _ end] =>
           let E := fresh "E" in destruct x eqn:E; try discriminate H
         | context [if ?x then _ else _] =>
           let E := fresh "E" in destruct x eqn:E; try discriminate H
         end.

(** Equations between concatenations. *)
Ltac str_assoc :=
  repeat (progress (simpl; rewrite ?append_assoc)); reflexivity.

Lemma expect_some (c : ascii) (s r : string) :
  expect c s = Some r <-> s = String c r.
Proof.
  unfold expect. destruct s as [|d s]; split; intros H; try discriminate.
  - destruct (Ascii.eqb_spec d c); [|discriminate]. injection H as ->. congruence.
  - injection H as -> ->. rewrite Ascii.eqb_refl. reflexivity.
Qed.

Lemma spanWs_app (s w r : string) : spanWs s = (w, r) -> s = w ++ r.
Proof.
  revert w r. induction s as [|c s IH]; simpl; intros w r H.
  - injection H as <- <-. reflexivity.
  - destruct (is_ws c).
    + destruct (spanWs s) as [w' r'] eqn:E. injection H as <- <-.
      simpl. f_equal. auto.
    + injection H as <- <-. reflexivity.
Qed.

Lemma spanDigits_app (s d r : string) : spanDigits s = (d, r) -> s = d ++ r.
Proof.
  revert d r. induction s as [|c s IH]; simpl; intros d r H.
  - injection H as <- <-. reflexivity.
  - destruct (is_digit c).
    + destruct (spanDigits s) as [d' r'] eqn:E. injection H as <- <-.
      simpl. f_equal. auto.
    + injection H as <- <-. reflexivity.
Qed.

Lemma scanLiteral_app (lit s rest : string) :
  scanLiteral lit s = Some rest -> s = lit ++ rest.
Proof.
  revert s. induction lit as [|a lit IH]; intros s; simpl.
  - intros H. injection H as ->. reflexivity.
  - destruct s as [|b s]; [discriminate|].
    destruct (Ascii.eqb_spec a b); [|discriminate].
    intros H. subst. f_equal. auto.
Qed.

Lemma scanSign_app (s sg r : string) : scanSign s = (sg, r) -> s = sg ++ r.
Proof.
  unfold scanSign. destruct (expect "-" s) eqn:E; intros H; injection H as <- <-.
  - apply expect_some in E. subst. reflexivity.
  - reflexivity.
Qed.

Lemma scanInt_app (s i r : string) : scanInt s = Some (i, r) -> s = i ++ r.
Proof.
  unfold scanInt. destruct (expect "0" s) eqn:E; intros H.
  - injection H as <- <-. apply expect_some in E. subst. reflexivity.
  - destruct s as [|c s]; [discriminate|].
    destruct (is_digit c); [|discriminate].
    destruct (spanDigits s) as [d r'] eqn:Ed. injection H as <- <-.
    apply spanDigits_app in Ed. subst. reflexivity.
Qed.

Lemma scanFrac_app (s f r : string) : scanFrac s = Some (f, r) -> s = f ++ r.
Proof.
  unfold scanFrac. destruct (expect "." s) eqn:E; intros H.
  - apply expect_some in E. subst.
    destruct (spanDigits s0) as [d r'] eqn:Ed.
    apply spanDigits_app in Ed. subst.
    destruct d; [discriminate|]. injection H as <- <-. reflexivity.
  - injection H as <- <-. reflexivity.
Qed.

Lemma scanExpSign_app (s sg r : string) : scanExpSign s = (sg, r) -> s = sg ++ r.
Proof.
  unfold scanExpSign. intros H.
  destruct (expect "+" s) eqn:E1.
  - injection H as <- <-. apply expect_some in E1. subst. reflexivity.
  - destruct (expect "-" s) eqn:E2; injection H as <- <-.
    + apply expect_some in E2. subst. reflexivity.
    + reflexivity.
Qed.

Lemma scanExp_app (s e r : string) : scanExp s = Some (e, r) -> s = e ++ r.
Proof.
  unfold scanExp. destruct s as [|c s]; intros H.
  - injection H as <- <-. reflexivity.
  - destruct (Ascii.eqb c "e" || Ascii.eqb c "E").
    + destruct (scanExpSign s) as [sg r1] eqn:Es.
      apply scanExpSign_app in Es. subst.
      destruct (spanDigits r1) as [d r2] eqn:Ed.
      apply spanDigits_app in Ed. subst.
      destruct d; [discriminate|]. injection H as <- <-.
      simpl. rewrite append_assoc. reflexivity.
    + injection H as <- <-. reflexivity.
Qed.

Lemma scanNumber_app (s lit rest : string) :
  scanNumber s = Some (lit, rest) -> s = lit ++ rest.
Proof.
  unfold scanNumber. destruct (scanSign s) as [sg s1] eqn:E1.
  destruct (scanInt s1) as [[i s2]|] eqn:E2; [|discriminate].
  destruct (scanFrac s2) as [[f s3]|] eqn:E3; [|discriminate].
  destruct (scanExp s3) as [[e s4]|] eqn:E4; [|discriminate].
  intros H. injection H as <- <-.
  apply scanSign_app in E1. apply scanInt_app in E2.
  apply scanFrac_app in E3. apply scanExp_app in E4. subst.
  rewrite !append_assoc. reflexivity.
Qed.

Lemma low_escape_app (hi : N) (s raw rest : string) (cp : N) :
  low_escape hi s = Some (raw, cp, rest) -> s = raw ++ rest.
Proof.
  unfold low_escape. intros H. break_hyp H. injection H as <- <- <-. reflexivity.
Qed.

Lemma scanStringBody_app (fuel : nat) :
  forall s raw dec rest,
    scanStringBody fuel s = Some (raw, dec, rest) -> s = raw ++ rest.
Proof.
  induction fuel as [|fuel IH]; intros s raw dec rest H; simpl in H; [discriminate|].
  destruct s as [|c s]; [discriminate|].
  destruct (Ascii.eqb c quote).
  { injection H as <- <- <-. reflexivity. }
  destruct (Ascii.eqb c backslash).
  - destruct s as [|e s2]; [discriminate|].
    destruct (Ascii.eqb e "u").
    + destruct s2 as [|h1 [|h2 [|h3 [|h4 s3]]]]; try discriminate.
      destruct (hex4 h1 h2 h3 h4) as [cp|]; [|discriminate].
      destruct (is_surrogate cp).
      * destruct (low_escape cp s3) as [[[raw2 cp'] s4]|] eqn:El.
        -- apply low_escape_app in El.
           destruct (scanStringBody fuel s4) as [[[raw' dec'] rest']|] eqn:Eb; [|discriminate].
           injection H as <- <- <-. apply IH in Eb. subst.
           simpl. rewrite !append_assoc. reflexivity.
        -- destruct (scanStringBody fuel s3) as [[[raw' dec'] rest']|] eqn:Eb; [|discriminate].
           injection H as <- <- <-. apply IH in Eb. subst. reflexivity.
      * destruct (scanStringBody fuel s3) as [[[raw' dec'] rest']|] eqn:Eb; [|discriminate].
        injection H as <- <- <-. apply IH in Eb. subst. reflexivity.
    + destruct (simple_escape e); [|discriminate].
      destruct (scanStringBody fuel s2) as [[[raw' dec'] rest']|] eqn:Eb; [|discriminate].
      injection H as <- <- <-. apply IH in Eb. subst. reflexivity.
  - destruct (byte_val c <? 32); [discriminate|].
    destruct (scanStringBody fuel s) as [[[raw' dec'] rest']|] eqn:Eb; [|discriminate].
    injection H as <- <- <-. apply IH in Eb. subst. reflexivity.
Qed.

Lemma scanString_app (s raw dec rest : string) :
  scanString s = Some (raw, dec, rest) -> s = raw ++ rest.
Proof.
  unfold scanString. destruct s as [|c s]; [discriminate|].
  destruct (Ascii.eqb c quote); [|discriminate].
  destruct (scanStringBody (String.length s) s) as [[[raw' dec'] rest']|] eqn:Eb; [|discriminate].
  intros H. injection H as <- <- <-. apply scanStringBody_app in Eb. subst. reflexivity.
Qed.

#[local] Arguments scanLiteral : simpl never.
#[local] Arguments scanString : simpl never.
#[local] Arguments scanNumber : simpl never.

(** What a reader returns is a prefix of its input, and every element of
    an array is shorter than the array. *)
Lemma parse_consumes (fuel : nat) :
  (forall d s raw v rest,
      parseValue fuel d s = Some (raw, v, rest) ->
      s = raw ++ rest /\
      match v with
      | JArray elems => Forall (shorter_than raw) elems
      | _ => True
      end)
  /\ (forall d s raw elems rest,
         parseElems fuel d s = Some (raw, elems, rest) ->
         s = raw ++ rest /\ Forall (shorter_than raw) elems)
  /\ (forall d s raw members rest,
         parseMembers fuel d s = Some (raw, members, rest) -> s = raw ++ rest).
Proof.
  induction fuel as [|fuel (IHv & IHe & IHm)].
  { repeat split; intros; discriminate. }
  split; [|split].
  - intros d s raw v rest H. simpl in H.
    destruct s as [|c s]; [discriminate|].
    destruct (Ascii.eqb c "[").
    { destruct (maxNestingDepth <=? d)%N; [discriminate|].
      destruct (spanWs s) as [w s1] eqn:Ew. apply spanWs_app in Ew.
      destruct (expect "]" s1) as [s2|] eqn:Ex.
      - apply expect_some in Ex. injection H as <- <- <-. subst.
        split; [|constructor]. str_assoc.
      - destruct (parseElems fuel (d + 1)%N s1) as [[[raw' elems] rest']|] eqn:Ep; [|discriminate].
        injection H as <- <- <-. apply IHe in Ep as [-> Hall]. subst.
        split; [str_assoc|].
        eapply Forall_impl; [|exact Hall].
        intros e He. unfold shorter_than in *. simpl.
        rewrite length_append. lia. }
    destruct (Ascii.eqb c "{").
    { destruct (maxNestingDepth <=? d)%N; [discriminate|].
      destruct (spanWs s) as [w s1] eqn:Ew. apply spanWs_app in Ew.
      destruct (expect "}" s1) as [s2|] eqn:Ex.
      - apply expect_some in Ex. injection H as <- <- <-. subst.
        split; auto. str_assoc.
      - destruct (parseMembers fuel (d + 1)%N s1) as [[[raw' ms] rest']|] eqn:Ep; [|discriminate].
        injection H as <- <- <-. apply IHm in Ep as ->. subst.
        split; auto. str_assoc. }
    destruct (Ascii.eqb c quote).
    { destruct (scanString (String c s)) as [[[raw' dec] rest']|] eqn:Es; [|discriminate].
      injection H as <- <- <-. apply scanString_app in Es. auto. }
    destruct (Ascii.eqb c "t").
    { destruct (scanLiteral "true" (String c s)) eqn:El; [|discriminate].
      injection H as <- <- <-. apply scanLiteral_app in El. auto. }
    destruct (Ascii.eqb c "f").
    { destruct (scanLiteral "false" (String c s)) eqn:El; [|discriminate].
      injection H as <- <- <-. apply scanLiteral_app in El. auto. }
    destruct (Ascii.eqb c "n").
    { destruct (scanLiteral "null" (String c s)) eqn:El; [|discriminate].
      injection H as <- <- <-. apply scanLiteral_app in El. auto. }
    destruct (scanNumber (String c s)) as [[lit rest']|] eqn:En; [|discriminate].
    injection H as <- <- <-. apply scanNumber_app in En. auto.
  - intros d s raw elems rest H. simpl in H.
    destruct (parseValue fuel d s) as [[[raw1 v1] r1]|] eqn:Ev; [|discriminate].
    apply IHv in Ev as [-> _].
    destruct (spanWs r1) as [w1 r2] eqn:Ew. apply spanWs_app in Ew. subst.
    destruct (expect "]" r2) as [r3|] eqn:Ex.
    + apply expect_some in Ex. injection H as <- <- <-. subst.
      split; [str_assoc|].
      constructor; [|constructor]. unfold shorter_than. simpl.
      rewrite !length_append. simpl. lia.
    + destruct (expect "," r2) as [r3|] eqn:Ec; [|discriminate].
      apply expect_some in Ec. subst.
      destruct (spanWs r3) as [w2 r4] eqn:Ew2. apply spanWs_app in Ew2. subst.
      destruct (parseElems fuel d r4) as [[[raw' elems'] rest']|] eqn:Ep; [|discriminate].
      injection H as <- <- <-. apply IHe in Ep as [-> Hall].
      split; [str_assoc|].
      constructor.
      * unfold shorter_than. simpl. rewrite !length_append. simpl. lia.
      * eapply Forall_impl; [|exact Hall].
        intros e He. unfold shorter_than in *.
        rewrite !length_append. simpl. rewrite !length_append. lia.
  - intros d s raw members rest H. simpl in H.
    destruct (scanString s) as [[[rawk key] r1]|] eqn:Es; [|discriminate].
    apply scanString_app in Es. subst.
    destruct (spanWs r1) as [w1 r2] eqn:Ew. apply spanWs_app in Ew. subst.
    destruct (expect ":" r2) as [r3|] eqn:Ec; [|discriminate].
    apply expect_some in Ec. subst.
    destruct (spanWs r3) as [w2 r4] eqn:Ew2. apply spanWs_app in Ew2. subst.
    destruct (parseValue fuel d r4) as [[[rawv v] r5]|] eqn:Ev; [|discriminate].
    apply IHv in Ev as [-> _].
    destruct (spanWs r5) as [w3 r6] eqn:Ew3. apply spanWs_app in Ew3. subst.
    destruct (expect "}" r6) as [r7|] eqn:Ex.
    + apply expect_some in Ex. injection H as <- <- <-. subst.
      str_assoc.
    + destruct (expect "," r6) as [r7|] eqn:Ec2; [|discriminate].
      apply expect_some in Ec2. subst.
      destruct (spanWs r7) as [w4 r8] eqn:Ew4. apply spanWs_app in Ew4. subst.
      destruct (parseMembers fuel d r8) as [[[raw' ms] rest']|] eqn:Ep; [|discriminate].
      injection H as <- <- <-. apply IHm in Ep as ->.
      str_assoc.
Qed.

(** A raw list element is shorter than the text of its list. *)
Lemma unmarshalList_shorter (data : string) (list : list string) :
  unmarshalList data = Some list ->
  Forall (fun raw => String.length raw < String.length data) list.
Proof.
  unfold unmarshalList, parseDoc.
  destruct (spanWs data) as [w s] eqn:Ew. apply spanWs_app in Ew.
  destruct (parseValue (S (String.length s)) 0 s) as [[[raw v] rest]|] eqn:Ev; [|discriminate].
  apply parse_consumes in Ev as [-> Hv].
  destruct (spanWs rest) as [w' [|? ?]]; [|discriminate].
  destruct v; try discriminate.
  - intros H. injection H as <-. constructor.
  - intros H. injection H as <-. subst.
    apply Forall_map. eapply Forall_impl; [|exact Hv].
    intros e He. unfold shorter_than in He.
    rewrite !length_append. lia.
Qed.

End JsonFacts.

(* ------------------------------------------------------------------ *)
(** ** The budgets of the JSON reader lose no text *)

Module JsonFuel.
Import Json JsonFacts.

#[local] Arguments scanLiteral : simpl never.
#[local] Arguments scanString : simpl never.
#[local] Arguments scanNumber : simpl never.

(** Comparisons of lengths of concatenations. *)
Ltac len := repeat (progress (simpl; rewrite ?length_append)); lia.

(** A string body read with some budget is read with any larger one. *)
Lemma scanStringBody_mono (f : nat) :
  forall s r f', scanStringBody f s = Some r -> f <= f' -> scanStringBody f' s = Some r.
Proof.
  induction f as [|f IH]; intros s r f' H Hle; [discriminate|].
  destruct f' as [|f']; [lia|].
  assert (Hf : f <= f') by lia.
  simpl in H |- *.
  destruct s as [|c s]; [discriminate|].
  destruct (Ascii.eqb c quote); [exact H|].
  destruct (Ascii.eqb c backslash).
  - destruct s as [|e s2]; [discriminate|].
    destruct (Ascii.eqb e "u").
    + destruct s2 as [|h1 [|h2 [|h3 [|h4 s3]]]]; try discriminate.
      destruct (hex4 h1 h2 h3 h4) as [cp|]; [|discriminate].
      destruct (is_surrogate cp).
      * destruct (low_escape cp s3) as [[[raw2 cp'] s4]|].
        -- destruct (scanStringBody f s4) as [r'|] eqn:Eb; [|discriminate].
           rewrite (IH _ _ f' Eb Hf). exact H.
        -- destruct (scanStringBody f s3) as [r'|] eqn:Eb; [|discriminate].
           rewrite (IH _ _ f' Eb Hf). exact H.
      * destruct (scanStringBody f s3) as [r'|] eqn:Eb; [|discriminate].
        rewrite (IH _ _ f' Eb Hf). exact H.
    + destruct (simple_escape e); [|discriminate].
      destruct (scanStringBody f s2) as [r'|] eqn:Eb; [|discriminate].
      rewrite (IH _ _ f' Eb Hf). exact H.
  - destruct (byte_val c <? 32); [discriminate|].
    destruct (scanStringBody f s) as [r'|] eqn:Eb; [|discriminate].
    rewrite (IH _ _ f' Eb Hf). exact H.
Qed.

(** The length of the raw text is budget enough. *)
Lemma scanStringBody_bound (f : nat) :
  forall s raw dec rest,
    scanStringBody f s = Some (raw, dec, rest) ->
    scanStringBody (String.length raw) s = Some (raw, dec, rest).
Proof.
  induction f as [|f IH]; intros s raw dec rest H; [discriminate|].
  simpl in H.
  destruct s as [|c s]; [discriminate|].
  destruct (Ascii.eqb c quote) eqn:Eq.
  { injection H as <- <- <-. simpl. rewrite Eq. reflexivity. }
  assert (Hstep : forall s' raw' dec' rest' raw1 whole dec1,
             scanStringBody f s' = Some (raw', dec', rest') ->
             whole = raw1 ++ raw' ->
             1 <= String.length raw1 ->
             (forall g, scanStringBody g s' = Some (raw', dec', rest') ->
                        scanStringBody (S g) (String c s) = Some (whole, dec1, rest')) ->
             scanStringBody (String.length whole) (String c s) = Some (whole, dec1, rest')).
  { intros s' raw' dec' rest' raw1 whole dec1 Eb Ew Hlen Hg.
    apply IH in Eb. apply Hg in Eb.
    apply (scanStringBody_mono _ _ _ _ Eb). subst whole. rewrite length_append. lia. }
  destruct (Ascii.eqb c backslash) eqn:Ebs.
  - destruct s as [|e s2]; [discriminate|].
    destruct (Ascii.eqb e "u") eqn:Eu.
    + destruct s2 as [|h1 [|h2 [|h3 [|h4 s3]]]]; try discriminate.
      destruct (hex4 h1 h2 h3 h4) as [cp|] eqn:Eh; [|discriminate].
      destruct (is_surrogate cp) eqn:Esur.
      * destruct (low_escape cp s3) as [[[raw2 cp'] s4]|] eqn:El.
        -- destruct (scanStringBody f s4) as [[[raw' dec'] rest']|] eqn:Eb; [|discriminate].
           injection H as <- <- <-.
           apply (Hstep s4 raw' dec' rest'
                        (String c (String e (String h1 (String h2 (String h3 (one h4)))))
                           ++ raw2));
             [exact Eb | JsonFacts.str_assoc | rewrite length_append; simpl; lia |].
           intros g Hg. simpl. rewrite Eq, Ebs, Eu, Eh, Esur, El, Hg. reflexivity.
        -- destruct (scanStringBody f s3) as [[[raw' dec'] rest']|] eqn:Eb; [|discriminate].
           injection H as <- <- <-.
           apply (Hstep s3 raw' dec' rest'
                        (String c (String e (String h1 (String h2 (String h3 (one h4)))))));
             [exact Eb | reflexivity | simpl; lia |].
           intros g Hg. simpl. rewrite Eq, Ebs, Eu, Eh, Esur, El, Hg. reflexivity.
      * destruct (scanStringBody f s3) as [[[raw' dec'] rest']|] eqn:Eb; [|discriminate].
        injection H as <- <- <-.
        apply (Hstep s3 raw' dec' rest'
                     (String c (String e (String h1 (String h2 (String h3 (one h4)))))));
          [exact Eb | reflexivity | simpl; lia |].
        intros g Hg. simpl. rewrite Eq, Ebs, Eu, Eh, Esur, Hg. reflexivity.
    + destruct (simple_escape e) eqn:Ee; [|discriminate].
      destruct (scanStringBody f s2) as [[[raw' dec'] rest']|] eqn:Eb; [|discriminate].
      injection H as <- <- <-.
      apply (Hstep s2 raw' dec' rest' (String c (one e)));
        [exact Eb | reflexivity | simpl; lia |].
      intros g Hg. simpl. rewrite Eq, Ebs, Eu, Ee, Hg. reflexivity.
  - destruct (byte_val c <? 32) eqn:Ec; [discriminate|].
    destruct (scanStringBody f s) as [[[raw' dec'] rest']|] eqn:Eb; [|discriminate].
    injection H as <- <- <-.
    apply (Hstep s raw' dec' rest' (one c));
      [exact Eb | reflexivity | simpl; lia |].
    intros g Hg. simpl. rewrite Eq, Ebs, Ec, Hg. reflexivity.
Qed.

(** The budget that [scanString] gives to the body loses no string. *)
Lemma scanStringBody_adequate (f : nat) (s raw dec rest : string) :
  scanStringBody f s = Some (raw, dec, rest) ->
  scanStringBody (String.length s) s = Some (raw, dec, rest).
Proof.
  intros H. pose proof (scanStringBody_app _ _ _ _ _ H) as E.
  apply scanStringBody_bound in H.
  apply (scanStringBody_mono _ _ _ _ H). subst. rewrite length_append. lia.
Qed.

(** A value read with some budget is read with any larger one. *)
Lemma parse_mono (f : nat) :
  (forall d s r f', parseValue f d s = Some r -> f <= f' -> parseValue f' d s = Some r)
  /\ (forall d s r f', parseElems f d s = Some r -> f <= f' -> parseElems f' d s = Some r)
  /\ (forall d s r f', parseMembers f d s = Some r -> f <= f' -> parseMembers f' d s = Some r).
Proof.
  induction f as [|f (IHv & IHe & IHm)].
  { repeat split; intros; discriminate. }
  split; [|split]; intros d s r f' H Hle;
    (destruct f' as [|f']; [lia|]); assert (Hf : f <= f') by lia;
    simpl in H |- *.
  - destruct s as [|c s]; [discriminate|].
    destruct (Ascii.eqb c "[").
    { destruct (maxNestingDepth <=? d)%N; [discriminate|].
      destruct (spanWs s) as [w s1].
      destruct (expect "]" s1); [exact H|].
      destruct (parseElems f (d + 1) s1) as [r'|] eqn:E; [|discriminate].
      rewrite (IHe _ _ _ f' E Hf). exact H. }
    destruct (Ascii.eqb c "{").
    { destruct (maxNestingDepth <=? d)%N; [discriminate|].
      destruct (spanWs s) as [w s1].
      destruct (expect "}" s1); [exact H|].
      destruct (parseMembers f (d + 1) s1) as [r'|] eqn:E; [|discriminate].
      rewrite (IHm _ _ _ f' E Hf). exact H. }
    exact H.
  - destruct (parseValue f d s) as [[[raw1 v1] r1]|] eqn:Ev; [|discriminate].
    rewrite (IHv _ _ _ f' Ev Hf).
    destruct (spanWs r1) as [w1 r2].
    destruct (expect "]" r2); [exact H|].
    destruct (expect "," r2) as [r3|]; [|discriminate].
    destruct (spanWs r3) as [w2 r4].
    destruct (parseElems f d r4) as [r'|] eqn:E; [|discriminate].
    rewrite (IHe _ _ _ f' E Hf). exact H.
  - destruct (scanString s) as [[[rawk key] r1]|]; [|discriminate].
    destruct (spanWs r1) as [w1 r2].
    destruct (expect ":" r2) as [r3|]; [|discriminate].
    destruct (spanWs r3) as [w2 r4].
    destruct (parseValue f d r4) as [[[rawv v] r5]|] eqn:Ev; [|discriminate].
    rewrite (IHv _ _ _ f' Ev Hf).
    destruct (spanWs r5) as [w3 r6].
    destruct (expect "}" r6); [exact H|].
    destruct (expect "," r6) as [r7|]; [|discriminate].
    destruct (spanWs r7) as [w4 r8].
    destruct (parseMembers f d r8) as [r'|] eqn:E; [|discriminate].
    rewrite (IHm _ _ _ f' E Hf). exact H.
Qed.

Lemma scanNumber_nonempty (s lit rest : string) :
  scanNumber s = Some (lit, rest) -> 1 <= String.length lit.
Proof.
  unfold scanNumber. destruct (scanSign s) as [sg s1].
  destruct (scanInt s1) as [[i s2]|] eqn:Ei; [|discriminate].
  destruct (scanFrac s2) as [[fr s3]|]; [|discriminate].
  destruct (scanExp s3) as [[e s4]|]; [|discriminate].
  intros H. injection H as <- <-.
  assert (Hi : 1 <= String.length i).
  { unfold scanInt in Ei. destruct (expect "0" s1).
    - injection Ei as <- <-. simpl. lia.
    - destruct s1 as [|c r]; [discriminate|].
      destruct (is_digit c); [|discriminate].
      destruct (spanDigits r). injection Ei as <- <-. simpl. lia. }
  rewrite !length_append. lia.
Qed.

Lemma scanString_nonempty (s raw dec rest : string) :
  scanString s = Some (raw, dec, rest) -> 1 <= String.length raw.
Proof.
  unfold scanString. destruct s as [|c s]; [discriminate|].
  destruct (Ascii.eqb c quote); [|discriminate].
  destruct (scanStringBody (String.length s) s) as [[[raw' dec'] rest']|]; [|discriminate].
  intros H. injection H as <- <- <-. simpl. lia.
Qed.

(** The length of the raw text is budget enough. *)
Lemma parse_bound (f : nat) :
  (forall d s raw v rest,
      parseValue f d s = Some (raw, v, rest) ->
      parseValue (String.length raw) d s = Some (raw, v, rest))
  /\ (forall d s raw elems rest,
         parseElems f d s = Some (raw, elems, rest) ->
         parseElems (String.length raw) d s = Some (raw, elems, rest))
  /\ (forall d s raw members rest,
         parseMembers f d s = Some (raw, members, rest) ->
         parseMembers (String.length raw) d s = Some (raw, members, rest)).
Proof.
  induction f as [|f (IHv & IHe & IHm)].
  { repeat split; intros; discriminate. }
  split; [|split].
  - intros d s raw v rest H.
    assert (Hone : forall g, parseValue (S g) d s = Some (raw, v, rest) ->
                             S g <= String.length raw ->
                             parseValue (String.length raw) d s = Some (raw, v, rest)).
    { intros g Hg Hle. exact (proj1 (parse_mono _) _ _ _ _ Hg Hle). }
    simpl in H. destruct s as [|c s]; [discriminate|].
    destruct (Ascii.eqb c "[") eqn:E1.
    { destruct (maxNestingDepth <=? d)%N eqn:Ed; [discriminate|].
      destruct (spanWs s) as [w s1] eqn:Ew.
      destruct (expect "]" s1) as [s2|] eqn:Ex.
      - injection H as <- <- <-. apply (Hone 0); [|len].
        simpl. rewrite E1, Ed, Ew, Ex. reflexivity.
      - destruct (parseElems f (d + 1) s1) as [[[raw' elems] rest']|] eqn:Ep; [|discriminate].
        injection H as <- <- <-. apply IHe in Ep.
        apply (Hone (String.length raw')); [|len].
        simpl. rewrite E1, Ed, Ew, Ex, Ep. reflexivity. }
    destruct (Ascii.eqb c "{") eqn:E2.
    { destruct (maxNestingDepth <=? d)%N eqn:Ed; [discriminate|].
      destruct (spanWs s) as [w s1] eqn:Ew.
      destruct (expect "}" s1) as [s2|] eqn:Ex.
      - injection H as <- <- <-. apply (Hone 0); [|len].
        simpl. rewrite E1, E2, Ed, Ew, Ex. reflexivity.
      - destruct (parseMembers f (d + 1) s1) as [[[raw' ms] rest']|] eqn:Ep; [|discriminate].
        injection H as <- <- <-. apply IHm in Ep.
        apply (Hone (String.length raw')); [|len].
        simpl. rewrite E1, E2, Ed, Ew, Ex, Ep. reflexivity. }
    destruct (Ascii.eqb c quote) eqn:E3.
    { destruct (scanString (String c s)) as [[[raw' dec] rest']|] eqn:Es; [|discriminate].
      injection H as <- <- <-.
      apply (Hone 0); [|eapply scanString_nonempty, Es].
      simpl. rewrite E1, E2, E3, Es. reflexivity. }
    destruct (Ascii.eqb c "t") eqn:E4.
    { destruct (scanLiteral "true" (String c s)) eqn:El; [|discriminate].
      injection H as <- <- <-. apply (Hone 0); [|len].
      simpl. rewrite E1, E2, E3, E4, El. reflexivity. }
    destruct (Ascii.eqb c "f") eqn:E5.
    { destruct (scanLiteral "false" (String c s)) eqn:El; [|discriminate].
      injection H as <- <- <-. apply (Hone 0); [|len].
      simpl. rewrite E1, E2, E3, E4, E5, El. reflexivity. }
    destruct (Ascii.eqb c "n") eqn:E6.
    { destruct (scanLiteral "null" (String c s)) eqn:El; [|discriminate].
      injection H as <- <- <-. apply (Hone 0); [|len].
      simpl. rewrite E1, E2, E3, E4, E5, E6, El. reflexivity. }
    destruct (scanNumber (String c s)) as [[lit rest']|] eqn:En; [|discriminate].
    injection H as <- <- <-.
    apply (Hone 0); [|eapply scanNumber_nonempty, En].
    simpl. rewrite E1, E2, E3, E4, E5, E6, En. reflexivity.
  - intros d s raw elems rest H.
    assert (Hone : forall g, parseElems (S g) d s = Some (raw, elems, rest) ->
                             S g <= String.length raw ->
                             parseElems (String.length raw) d s = Some (raw, elems, rest)).
    { intros g Hg Hle. exact (proj1 (proj2 (parse_mono _)) _ _ _ _ Hg Hle). }
    simpl in H.
    destruct (parseValue f d s) as [[[raw1 v1] r1]|] eqn:Ev; [|discriminate].
    apply IHv in Ev.
    destruct (spanWs r1) as [w1 r2] eqn:Ew.
    destruct (expect "]" r2) as [r3|] eqn:Ex.
    + injection H as <- <- <-.
      apply (Hone (String.length raw1)); [|len].
      simpl. rewrite Ev, Ew, Ex. reflexivity.
    + destruct (expect "," r2) as [r3|] eqn:Ec; [|discriminate].
      destruct (spanWs r3) as [w2 r4] eqn:Ew2.
      destruct (parseElems f d r4) as [[[raw' elems'] rest']|] eqn:Ep; [|discriminate].
      injection H as <- <- <-. apply IHe in Ep.
      apply (Hone (String.length raw1 + String.length raw'));
        [|len].
      simpl.
      rewrite (proj1 (parse_mono _) _ _ _ _ Ev) by lia.
      rewrite Ew, Ex, Ec, Ew2.
      rewrite (proj1 (proj2 (parse_mono _)) _ _ _ _ Ep) by lia.
      reflexivity.
  - intros d s raw members rest H.
    assert (Hone : forall g, parseMembers (S g) d s = Some (raw, members, rest) ->
                             S g <= String.length raw ->
                             parseMembers (String.length raw) d s = Some (raw, members, rest)).
    { intros g Hg Hle. exact (proj2 (proj2 (parse_mono _)) _ _ _ _ Hg Hle). }
    simpl in H.
    destruct (scanString s) as [[[rawk key] r1]|] eqn:Es; [|discriminate].
    destruct (spanWs r1) as [w1 r2] eqn:Ew.
    destruct (expect ":" r2) as [r3|] eqn:Ec; [|discriminate].
    destruct (spanWs r3) as [w2 r4] eqn:Ew2.
    destruct (parseValue f d r4) as [[[rawv v] r5]|] eqn:Ev; [|discriminate].
    apply IHv in Ev.
    destruct (spanWs r5) as [w3 r6] eqn:Ew3.
    destruct (expect "}" r6) as [r7|] eqn:Ex.
    + injection H as <- <- <-.
      apply (Hone (String.length rawv));
        [|len].
      simpl. rewrite Es, Ew, Ec, Ew2, Ev, Ew3, Ex. reflexivity.
    + destruct (expect "," r6) as [r7|] eqn:Ec2; [|discriminate].
      destruct (spanWs r7) as [w4 r8] eqn:Ew4.
      destruct (parseMembers f d r8) as [[[raw' ms] rest']|] eqn:Ep; [|discriminate].
      injection H as <- <- <-. apply IHm in Ep.
      apply (Hone (String.length rawv + String.length raw'));
        [|len].
      simpl. rewrite Es, Ew, Ec, Ew2.
      rewrite (proj1 (parse_mono _) _ _ _ _ Ev) by lia.
      rewrite Ew3, Ex, Ec2, Ew4.
      rewrite (proj2 (proj2 (parse_mono _)) _ _ _ _ Ep) by lia.
      reflexivity.
Qed.

(** The budget of [parseDoc] loses no text: a value that some budget
    reads is read with the budget that [parseDoc] gives. *)
Lemma parseDoc_budget (f : nat) (d : N) (s raw : string) (v : Json) (rest : string) :
  parseValue f d s = Some (raw, v, rest) ->
  parseValue (S (String.length s)) d s = Some (raw, v, rest).
Proof.
  intros H. pose proof (proj1 (parse_consumes _) _ _ _ _ _ H) as [E _].
  apply (proj1 (parse_bound _)) in H.
  apply (proj1 (parse_mono _) _ _ _ _ H). subst. rewrite length_append. lia.
Qed.

End JsonFuel.

(* ------------------------------------------------------------------ *)
(** ** Closure of [safe], [calm] and [agree] under the constructs *)

Section Closure.
Context {St : Type}.

Lemma safe_ret {A : Type} (a : A) : safe (St := St) (ret a).
Proof. intros s. discriminate. Qed.

Lemma safe_panic {A : Type} (e : Error) : safe (St := St) (A := A) (panic e).
Proof. intros s. discriminate. Qed.

Lemma safe_get : safe (St := St) get.
Proof. intros s. discriminate. Qed.

Lemma safe_modify (f : St -> St) : safe (modify f).
Proof. intros s. discriminate. Qed.

Lemma safe_bind {A B : Type} (m : M St A) (k : A -> M St B) :
  safe m -> (forall a, safe (k a)) -> safe (bind m k).
Proof.
  intros Hm Hk s. unfold bind. specialize (Hm s).
  destruct (m s); [apply Hk | discriminate | congruence].
Qed.

Lemma safe_rec (m : M St error) : safe m -> safe (Utils.rec m).
Proof.
  intros Hm s. unfold Utils.rec. specialize (Hm s).
  destruct (m s); [discriminate | discriminate | congruence].
Qed.

Lemma safe_must (err : error) : safe (St := St) (Utils.must err).
Proof. destruct err; [apply safe_panic | apply safe_ret]. Qed.

Lemma safe_try (err : error) : safe (St := St) (Internal.try err).
Proof. destruct err; [apply safe_panic | apply safe_ret]. Qed.

Lemma safe_zoom {T A : Type} (proj : St -> T) (upd : T -> St -> St) (m : M T A) :
  safe m -> safe (zoom proj upd m).
Proof.
  intros Hm s. unfold zoom. specialize (Hm (proj s)).
  destruct (m (proj s)); [discriminate | discriminate | congruence].
Qed.

Lemma safe_for_range {A : Type} (body : nat -> A -> M St unit) (xs : list A) :
  (forall i x, In x xs -> safe (body i x)) ->
  forall i, safe (for_range body i xs).
Proof.
  induction xs as [|x xs IH]; intros Hb i; simpl.
  - apply safe_ret.
  - apply safe_bind; [apply Hb; simpl; auto|].
    intros _. apply IH. intros j y Hy. apply Hb. simpl; auto.
Qed.

Lemma calm_ret {A : Type} (a : A) : calm (St := St) (ret a).
Proof. intros s e s'. discriminate. Qed.

Lemma calm_get : calm (St := St) get.
Proof. intros s e s'. discriminate. Qed.

Lemma calm_modify (f : St -> St) : calm (modify f).
Proof. intros s e s'. discriminate. Qed.

Lemma calm_bind {A B : Type} (m : M St A) (k : A -> M St B) :
  calm m -> (forall a, calm (k a)) -> calm (bind m k).
Proof.
  intros Hm Hk s e s'. unfold bind.
  destruct (m s) eqn:E; [apply Hk | | discriminate].
  exfalso. exact (Hm _ _ _ E).
Qed.

(** Whatever the body does, [defer rec(&err)] lets no panic out. *)
Lemma calm_rec (m : M St error) : calm (Utils.rec m).
Proof. intros s e s'. unfold Utils.rec. destruct (m s); discriminate. Qed.

Lemma agree_refl {A : Type} (m : M St A) : agree m m.
Proof. intros s. reflexivity. Qed.

Lemma agree_bind {A B : Type} (m1 m2 : M St A) (k1 k2 : A -> M St B) :
  agree m1 m2 -> (forall a, agree (k1 a) (k2 a)) -> agree (bind m1 k1) (bind m2 k2).
Proof.
  intros Hm Hk s. unfold bind. rewrite (Hm s). destruct (m2 s); auto. apply Hk.
Qed.

Lemma agree_rec (m1 m2 : M St error) :
  agree m1 m2 -> agree (Utils.rec m1) (Utils.rec m2).
Proof. intros Hm s. unfold Utils.rec. rewrite (Hm s). reflexivity. Qed.

Lemma agree_for_range {A : Type} (b1 b2 : nat -> A -> M St unit) (xs : list A) :
  (forall i x, In x xs -> agree (b1 i x) (b2 i x)) ->
  forall i, agree (for_range b1 i xs) (for_range b2 i xs).
Proof.
  induction xs as [|x xs IH]; intros Hb i; simpl.
  - apply agree_refl.
  - apply agree_bind; [apply Hb; simpl; auto|].
    intros _. apply IH. intros j y Hy. apply Hb. simpl; auto.
Qed.

End Closure.

Create HintDb go discriminated.

#[export] Hint Resolve safe_ret safe_panic safe_get safe_modify safe_rec safe_must
  safe_try safe_zoom calm_ret calm_get calm_modify calm_rec agree_refl agree_rec : go.

(** Splits a goal about a composed computation along its structure. *)
Ltac go_step :=
  match goal with
  | |- safe (Utils.rec _) => apply safe_rec
  | |- agree (Utils.rec _) (Utils.rec _) => apply agree_rec
  | |- safe (zoom _ _ _) => apply safe_zoom
  | |- safe (bind _ _) => apply safe_bind; [|intros]
  | |- calm (bind _ _) => apply calm_bind; [|intros]
  | |- agree (bind _ _) (bind _ _) => apply agree_bind; [|intros]
  | |- safe (for_range _ _ _) => apply safe_for_range; intros
  | |- agree (for_range _ _ _) (for_range _ _ _) => apply agree_for_range; intros
  | |- safe (if ?b then _ else _) => destruct b
  | |- calm (if ?b then _ else _) => destruct b
  | |- agree (if ?b then _ else _) (if ?b then _ else _) => destruct b
  | |- safe (match ?x with _ => _ end) => destruct x
  | |- calm (match ?x with _ => _ end) => destruct x
  | |- agree (match ?x with _ => _ end) (match ?x with _ => _ end) => destruct x
  | |- _ => solve [auto with go]
  end.

Ltac go := repeat go_step.

(* ------------------------------------------------------------------ *)
(** ** The recursion budget of the [sqlb.Query] generation *)

Module ExprQueryFacts.
Import Reflect Utils ExprQuery.

Section Ops.
Variables (decode : Decoder) (name : string) (args : list string).
Hypothesis Hsafe : forall arg, In arg args -> safe (decode arg).

Lemma query_nth_in_or_safe (i : nat) : safe (decode (nth i args "")) \/ length args <= i.
Proof.
  destruct (Nat.lt_ge_cases i (length args)) as [H | H]; auto.
  left. apply Hsafe, nth_In, H.
Qed.

Lemma query_decodeOpPrefix_safe : safe (decodeOpPrefix decode name args).
Proof.
  unfold decodeOpPrefix, openParen, closeParen, Append.
  destruct (query_nth_in_or_safe 0) as [H | H].
  - go.
  - apply safe_rec. destruct args; [|simpl in H; lia]. simpl. go.
Qed.

Lemma query_decodeOpPostfix_safe : safe (decodeOpPostfix decode name args).
Proof.
  unfold decodeOpPostfix, openParen, closeParen, Append.
  destruct (query_nth_in_or_safe 0) as [H | H].
  - go.
  - apply safe_rec. destruct args; [|simpl in H; lia]. simpl. go.
Qed.

Lemma query_decodeOpInfix_safe : safe (decodeOpInfix decode name args).
Proof.
  unfold decodeOpInfix, infixArg, openParen, closeParen, Append. go.
Qed.

Lemma query_decodeOpFunc_safe : safe (decodeOpFunc decode name args).
Proof.
  unfold decodeOpFunc, funcArg, openParen, closeParen, Append, onText, appendStr. go.
Qed.

Lemma query_decodeOpAny_safe : safe (decodeOpAny decode name args).
Proof.
  unfold decodeOpAny, openParen, closeParen, Append.
  apply safe_rec.
  destruct (length args =? 2) eqn:E; simpl; [|go].
  apply Nat.eqb_eq in E.
  destruct (query_nth_in_or_safe 0) as [H0 | H0]; [|lia].
  destruct (query_nth_in_or_safe 1) as [H1 | H1]; [|lia].
  go.
Qed.

Lemma query_decodeOpBetween_safe : safe (decodeOpBetween decode name args).
Proof.
  unfold decodeOpBetween, openParen, closeParen, Append.
  apply safe_rec.
  destruct (length args =? 3) eqn:E; simpl; [|go].
  apply Nat.eqb_eq in E.
  destruct (query_nth_in_or_safe 0) as [H0 | H0]; [|lia].
  destruct (query_nth_in_or_safe 1) as [H1 | H1]; [|lia].
  destruct (query_nth_in_or_safe 2) as [H2 | H2]; [|lia].
  go.
Qed.

End Ops.

Lemma appendSqlPath_safe (path : list string) : safe (appendSqlPath path).
Proof. unfold appendSqlPath, appendSqlPath_step, appendEnclosed, appendStr. go. Qed.

Lemma query_decodeCast_safe (name : string) (args : list string) : safe (decodeCast name args).
Proof. unfold decodeCast, Append. go. Qed.

Lemma query_decodeString_safe (input : string) : safe (decodeString input).
Proof.
  unfold decodeString, onText. go. apply appendSqlPath_safe.
Qed.

Lemma query_decodeAny_safe (input : string) : safe (decodeAny input).
Proof. unfold decodeAny, Append. go. Qed.

Lemma tl_incl {A : Type} (l : list A) (x : A) : In x (tl l) -> In x l.
Proof. destruct l; simpl; auto. Qed.

Lemma query_decodeList_safe (decode : Decoder) (input : string) :
  (forall arg, String.length arg < String.length input -> safe (decode arg)) ->
  safe (decodeList decode input).
Proof.
  intros Hd. unfold decodeList.
  destruct (Json.unmarshalList input) as [list|] eqn:El; [|go].
  apply JsonFacts.unmarshalList_shorter in El. rewrite Forall_forall in El.
  assert (Hargs : forall arg, In arg (tl list) -> safe (decode arg)).
  { intros arg Hin. apply Hd, El, tl_incl, Hin. }
  destruct (negb (0 <? length list)); [go|].
  destruct (negb (isJsonString (nth 0 list ""))); [go|].
  destruct (Json.unmarshalString (nth 0 list "")) as [name|]; [|go].
  destruct (SqlOps_get name) as [[]|].
  - apply query_decodeOpPrefix_safe, Hargs.
  - apply query_decodeOpPostfix_safe, Hargs.
  - apply query_decodeOpInfix_safe, Hargs.
  - apply query_decodeOpFunc_safe, Hargs.
  - apply query_decodeOpAny_safe, Hargs.
  - apply query_decodeOpBetween_safe, Hargs.
  - apply query_decodeCast_safe.
Qed.

(** A budget above the length of the input is never exhausted. *)
Lemma query_decode_safe (fuel : nat) :
  forall input, String.length input < fuel -> safe (decode fuel input).
Proof.
  induction fuel as [|fuel IH]; intros input Hlen; [lia|].
  simpl. destruct (isJsonDict input); [go|].
  destruct (isJsonList input).
  - apply query_decodeList_safe. intros arg Harg. apply IH. lia.
  - destruct (isJsonString input); [apply query_decodeString_safe | apply query_decodeAny_safe].
Qed.

(** No panic comes out of [decode]: every function that can panic
    recovers. *)
Lemma query_decode_calm (fuel : nat) (input : string) : calm (decode fuel input).
Proof.
  destruct fuel as [|fuel]; simpl.
  { intros s e s'. discriminate. }
  destruct (isJsonDict input); [go|].
  destruct (isJsonList input).
  - unfold decodeList.
    destruct (Json.unmarshalList input) as [list|]; [|go].
    destruct (negb (0 <? length list)); [go|].
    destruct (negb (isJsonString (nth 0 list ""))); [go|].
    destruct (Json.unmarshalString (nth 0 list "")) as [name|]; [|go].
    destruct (SqlOps_get name) as [[]|]; apply calm_rec.
  - destruct (isJsonString input); [apply calm_rec|].
    unfold decodeAny, Append. go.
Qed.

Section OpsAgree.
Variables (d1 d2 : Decoder) (name : string) (args : list string).
Hypothesis Hagree : forall arg, In arg args -> agree (d1 arg) (d2 arg).

Lemma query_nth_agree (i : nat) : i < length args -> agree (d1 (nth i args "")) (d2 (nth i args "")).
Proof. intros H. apply Hagree, nth_In, H. Qed.

Lemma query_decodeOpPrefix_agree : agree (decodeOpPrefix d1 name args) (decodeOpPrefix d2 name args).
Proof.
  unfold decodeOpPrefix. apply agree_rec.
  destruct (length args =? 1) eqn:E; simpl; [|go].
  apply Nat.eqb_eq in E. pose proof (query_nth_agree 0 ltac:(lia)). go.
Qed.

Lemma query_decodeOpPostfix_agree : agree (decodeOpPostfix d1 name args) (decodeOpPostfix d2 name args).
Proof.
  unfold decodeOpPostfix. apply agree_rec.
  destruct (length args =? 1) eqn:E; simpl; [|go].
  apply Nat.eqb_eq in E. pose proof (query_nth_agree 0 ltac:(lia)). go.
Qed.

Lemma query_decodeOpInfix_agree : agree (decodeOpInfix d1 name args) (decodeOpInfix d2 name args).
Proof. unfold decodeOpInfix, infixArg. go. Qed.

Lemma query_decodeOpFunc_agree : agree (decodeOpFunc d1 name args) (decodeOpFunc d2 name args).
Proof. unfold decodeOpFunc, funcArg. go. Qed.

Lemma query_decodeOpAny_agree : agree (decodeOpAny d1 name args) (decodeOpAny d2 name args).
Proof.
  unfold decodeOpAny. apply agree_rec.
  destruct (length args =? 2) eqn:E; simpl; [|go].
  apply Nat.eqb_eq in E.
  pose proof (query_nth_agree 0 ltac:(lia)). pose proof (query_nth_agree 1 ltac:(lia)). go.
Qed.

Lemma query_decodeOpBetween_agree : agree (decodeOpBetween d1 name args) (decodeOpBetween d2 name args).
Proof.
  unfold decodeOpBetween. apply agree_rec.
  destruct (length args =? 3) eqn:E; simpl; [|go].
  apply Nat.eqb_eq in E.
  pose proof (query_nth_agree 0 ltac:(lia)). pose proof (query_nth_agree 1 ltac:(lia)).
  pose proof (query_nth_agree 2 ltac:(lia)). go.
Qed.

End OpsAgree.

Lemma query_decodeList_agree (d1 d2 : Decoder) (input : string) :
  (forall arg, String.length arg < String.length input -> agree (d1 arg) (d2 arg)) ->
  agree (decodeList d1 input) (decodeList d2 input).
Proof.
  intros Hd. unfold decodeList.
  destruct (Json.unmarshalList input) as [list|] eqn:El; [|go].
  apply JsonFacts.unmarshalList_shorter in El. rewrite Forall_forall in El.
  assert (Hargs : forall arg, In arg (tl list) -> agree (d1 arg) (d2 arg)).
  { intros arg Hin. apply Hd, El, tl_incl, Hin. }
  destruct (negb (0 <? length list)); [go|].
  destruct (negb (isJsonString (nth 0 list ""))); [go|].
  destruct (Json.unmarshalString (nth 0 list "")) as [name|]; [|go].
  destruct (SqlOps_get name) as [[]|].
  - apply query_decodeOpPrefix_agree, Hargs.
  - apply query_decodeOpPostfix_agree, Hargs.
  - apply query_decodeOpInfix_agree, Hargs.
  - apply query_decodeOpFunc_agree, Hargs.
  - apply query_decodeOpAny_agree, Hargs.
  - apply query_decodeOpBetween_agree, Hargs.
  - apply agree_refl.
Qed.

(** Two budgets above the length of the input give the same outcome. *)
Lemma query_decode_agree (f1 : nat) :
  forall f2 input,
    String.length input < f1 -> String.length input < f2 ->
    agree (decode f1 input) (decode f2 input).
Proof.
  induction f1 as [|f1 IH]; intros f2 input H1 H2; [lia|].
  destruct f2 as [|f2]; [lia|]. simpl.
  destruct (isJsonDict input); [go|].
  destruct (isJsonList input); [|go].
  apply query_decodeList_agree. intros arg Harg. apply IH; lia.
Qed.

End ExprQueryFacts.

(* ------------------------------------------------------------------ *)
(** ** The recursion budget of the [sqlb.Bui] generation *)

Module ExprBuiFacts.
Import Reflect Internal ExprBui.

Section Ops.
Variables (decode : Decoder) (name : string) (args : list string).
Hypothesis Hsafe : forall arg, In arg args -> safe (decode arg).

Lemma bui_nth_safe (i : nat) : i < length args -> safe (decode (nth i args "")).
Proof. intros H. apply Hsafe, nth_In, H. Qed.

Lemma bui_decodeOpPrefix_safe : safe (decodeOpPrefix decode name args).
Proof.
  unfold decodeOpPrefix, openParen, closeParen, Str.
  destruct (length args =? 1) eqn:E; simpl; [|go].
  apply Nat.eqb_eq in E. pose proof (bui_nth_safe 0 ltac:(lia)). go.
Qed.

Lemma bui_decodeOpPostfix_safe : safe (decodeOpPostfix decode name args).
Proof.
  unfold decodeOpPostfix, openParen, closeParen, Str.
  destruct (length args =? 1) eqn:E; simpl; [|go].
  apply Nat.eqb_eq in E. pose proof (bui_nth_safe 0 ltac:(lia)). go.
Qed.

Lemma bui_decodeOpInfix_safe : safe (decodeOpInfix decode name args).
Proof. unfold decodeOpInfix, infixArg, openParen, closeParen, Str. go. Qed.

Lemma bui_decodeOpFunc_safe : safe (decodeOpFunc decode name args).
Proof. unfold decodeOpFunc, funcArg, openParen, closeParen, Str. go. Qed.

Lemma bui_decodeOpAny_safe : safe (decodeOpAny decode name args).
Proof.
  unfold decodeOpAny, openParen, closeParen, Str.
  destruct (length args =? 2) eqn:E; simpl; [|go].
  apply Nat.eqb_eq in E.
  pose proof (bui_nth_safe 0 ltac:(lia)). pose proof (bui_nth_safe 1 ltac:(lia)). go.
Qed.

Lemma bui_decodeOpBetween_safe : safe (decodeOpBetween decode name args).
Proof.
  unfold decodeOpBetween, openParen, closeParen, Str.
  destruct (length args =? 3) eqn:E; simpl; [|go].
  apply Nat.eqb_eq in E.
  pose proof (bui_nth_safe 0 ltac:(lia)). pose proof (bui_nth_safe 1 ltac:(lia)).
  pose proof (bui_nth_safe 2 ltac:(lia)). go.
Qed.

End Ops.

Lemma Arg_safe (val : Value) : safe (Arg val).
Proof. intros s. unfold Arg. destruct (Sqlb.Bui_Arg val s). discriminate. Qed.

#[export] Hint Resolve Arg_safe : go.

Lemma bui_decodeCast_safe (self : Expr) (name : string) (args : list string) :
  safe (decodeCast self name args).
Proof. unfold decodeCast, Param. go. Qed.

Lemma bui_decodeString_safe (self : Expr) (input : string) : safe (decodeString self input).
Proof.
  unfold decodeString. go.
Qed.

Lemma bui_decodeAny_safe (input : string) : safe (decodeAny input).
Proof. unfold decodeAny, Param. go. Qed.

Lemma bui_decodeList_safe (self : Expr) (decode : Decoder) (input : string) :
  (forall arg, String.length arg < String.length input -> safe (decode arg)) ->
  safe (decodeList self decode input).
Proof.
  intros Hd. unfold decodeList.
  destruct (Json.unmarshalList input) as [list|] eqn:El; [|go].
  apply JsonFacts.unmarshalList_shorter in El. rewrite Forall_forall in El.
  assert (Hargs : forall arg, In arg (tl list) -> safe (decode arg)).
  { intros arg Hin. apply Hd, El, ExprQueryFacts.tl_incl, Hin. }
  destruct (negb (0 <? length list)); [go|].
  destruct (negb (isJsonString (nth 0 list ""))); [go|].
  destruct (Json.unmarshalString (nth 0 list "")) as [name|]; [|go].
  destruct (SqlOps_get name) as [[]|].
  - apply bui_decodeOpPrefix_safe, Hargs.
  - apply bui_decodeOpPostfix_safe, Hargs.
  - apply bui_decodeOpInfix_safe, Hargs.
  - apply bui_decodeOpFunc_safe, Hargs.
  - apply bui_decodeOpAny_safe, Hargs.
  - apply bui_decodeOpBetween_safe, Hargs.
  - apply bui_decodeCast_safe.
Qed.

(** A budget above the length of the input is never exhausted. *)
Lemma bui_decode_safe (self : Expr) (fuel : nat) :
  forall input, String.length input < fuel -> safe (decode fuel self input).
Proof.
  induction fuel as [|fuel IH]; intros input Hlen; [lia|].
  simpl. destruct (isJsonDict input); [go|].
  destruct (isJsonList input).
  - apply bui_decodeList_safe. intros arg Harg. apply IH. lia.
  - destruct (isJsonString input); [apply bui_decodeString_safe | apply bui_decodeAny_safe].
Qed.

Section OpsAgree.
Variables (d1 d2 : Decoder) (name : string) (args : list string).
Hypothesis Hagree : forall arg, In arg args -> agree (d1 arg) (d2 arg).








End OpsAgree.



End ExprBuiFacts.

(* ------------------------------------------------------------------ *)
(** ** Writing identifiers *)

Module PathFacts.
Import Utils.

Lemma first_quoted_app (pre : list string) (s : string) (post : list string) :
  first_quoted pre = None -> contains_byte quote s = true ->
  first_quoted (pre ++ s :: post)%list = Some s.
Proof.
  induction pre as [|a pre IH]; simpl; intros Hpre Hs.
  - rewrite Hs. reflexivity.
  - destruct (contains_byte quote a); [discriminate|]. auto.
Qed.

Lemma first_quoted_split (path : list string) (s : string) :
  first_quoted path = Some s ->
  exists pre post, path = (pre ++ s :: post)%list /\ first_quoted pre = None
                   /\ contains_byte quote s = true.
Proof.
  induction path as [|a path IH]; simpl; [discriminate|].
  destruct (contains_byte quote a) eqn:Ea.
  - intros H. injection H as <-. exists [], path. auto.
  - intros H. destruct (IH H) as (pre & post & -> & Hpre & Hs).
    exists (a :: pre), post. simpl. rewrite Ea. auto.
Qed.

Lemma render_tail_app (pre post : list string) :
  render_tail (pre ++ post)%list = render_tail pre ++ render_tail post.
Proof.
  induction pre as [|a pre IH]; simpl; auto.
  rewrite IH. unfold quoted. JsonFacts.str_assoc.
Qed.

Lemma step_first (many : bool) (a buf : string) :
  contains_byte quote a = false ->
  appendSqlPath_step many 0 a buf =
  Ok tt (buf ++ (if many then "(" ++ quoted a ++ ")" else quoted a)).
Proof.
  intros Ha. unfold appendSqlPath_step. rewrite Ha.
  destruct many; cbv [Nat.eqb appendEnclosed bind modify];
    f_equal; unfold quoted, dq; JsonFacts.str_assoc.
Qed.

Lemma step_next (many : bool) (i : nat) (a buf : string) :
  contains_byte quote a = false ->
  appendSqlPath_step many (S i) a buf = Ok tt (buf ++ "." ++ quoted a).
Proof.
  intros Ha. unfold appendSqlPath_step. rewrite Ha.
  cbv [Nat.eqb appendEnclosed appendStr bind modify].
  f_equal; unfold quoted, dq; JsonFacts.str_assoc.
Qed.

Lemma step_panic (many : bool) (i : nat) (a buf : string) :
  contains_byte quote a = true ->
  appendSqlPath_step many i a buf = Panic (ErrQuoteInIdent a) buf.
Proof. intros Ha. unfold appendSqlPath_step. rewrite Ha. reflexivity. Qed.

(** The steps of [appendSqlPath] after the first one. *)
Lemma appendSqlPath_tail (many : bool) (rest : list string) :
  forall i buf,
    first_quoted rest = None ->
    for_range (appendSqlPath_step many) (S i) rest buf = Ok tt (buf ++ render_tail rest).
Proof.
  induction rest as [|s rest IH]; intros i buf H; simpl in *.
  - rewrite append_nil_r. reflexivity.
  - destruct (contains_byte quote s) eqn:Es; [discriminate|].
    unfold bind. rewrite step_next by assumption.
    rewrite IH by assumption. f_equal. JsonFacts.str_assoc.
Qed.

Lemma appendSqlPath_tail_panic (many : bool) (pre : list string) (s : string)
      (post : list string) :
  forall i buf,
    first_quoted pre = None -> contains_byte quote s = true ->
    for_range (appendSqlPath_step many) (S i) (pre ++ s :: post)%list buf =
    Panic (ErrQuoteInIdent s) (buf ++ render_tail pre).
Proof.
  induction pre as [|a pre IH]; intros i buf Hpre Hs; simpl in *.
  - unfold bind. rewrite step_panic by assumption.
    rewrite append_nil_r. reflexivity.
  - destruct (contains_byte quote a) eqn:Ea; [discriminate|].
    unfold bind. rewrite step_next by assumption.
    rewrite IH by assumption. f_equal. JsonFacts.str_assoc.
Qed.

(** A path without a double quote is written whole. *)
Lemma appendSqlPath_ok (path : list string) (buf : string) :
  first_quoted path = None ->
  appendSqlPath path buf = Ok tt (buf ++ render_path path).
Proof.
  unfold appendSqlPath. destruct path as [|a rest]; simpl; intros H.
  - rewrite append_nil_r. reflexivity.
  - destruct (contains_byte quote a) eqn:Ea; [discriminate|].
    unfold bind. rewrite step_first by assumption.
    rewrite appendSqlPath_tail by assumption.
    destruct rest as [|b rest]; simpl; f_equal; JsonFacts.str_assoc.
Qed.

(** A path stops at its first identifier with a double quote: the
    identifiers before it are written, it is not. *)
Lemma appendSqlPath_panic (pre : list string) (s : string) (post : list string)
      (buf : string) :
  first_quoted pre = None -> contains_byte quote s = true ->
  appendSqlPath (pre ++ s :: post)%list buf =
  Panic (ErrQuoteInIdent s) (buf ++ render_many pre).
Proof.
  unfold appendSqlPath. intros Hpre Hs. destruct pre as [|a pre]; simpl.
  - unfold bind. rewrite step_panic by assumption.
    rewrite append_nil_r. reflexivity.
  - simpl in Hpre. destruct (contains_byte quote a) eqn:Ea; [discriminate|].
    unfold bind. rewrite step_first by assumption.
    rewrite appendSqlPath_tail_panic by assumption.
    replace (1 <? S (length (pre ++ s :: post))) with true
      by (rewrite length_app; simpl; symmetry; apply Nat.ltb_lt; lia).
    f_equal. JsonFacts.str_assoc.
Qed.

End PathFacts.

(* ------------------------------------------------------------------ *)
(** ** Identifier emission *)

Lemma render_tail_concat (rest : list string) :
  render_tail rest = String.concat "" (map (fun s => "." ++ dq ++ s ++ dq) rest).
Proof.
  induction rest as [|s rest IH]; simpl; auto.
  rewrite IH. unfold quoted, dq.
  destruct rest as [|t rest]; simpl.
  - rewrite !append_nil_r. reflexivity.
  - JsonFacts.str_assoc.
Qed.

Lemma Ord_AppendBytes_ok (path : list string) (desc : bool) (buf : string) :
  first_quoted path = None ->
  Ords.Ord_AppendBytes (Ords.MkOrd path desc) buf =
  Ok tt (buf ++ render_path path ++ (if desc then " desc" else " asc")).
Proof.
  intros H. unfold Ords.Ord_AppendBytes, bind. simpl.
  rewrite PathFacts.appendSqlPath_ok by assumption.
  destruct desc; cbv [Utils.appendStr modify]; f_equal; JsonFacts.str_assoc.
Qed.

Lemma Ord_AppendBytes_panic (pre : list string) (s : string) (post : list string)
      (desc : bool) (buf : string) :
  first_quoted pre = None -> contains_byte quote s = true ->
  Ords.Ord_AppendBytes (Ords.MkOrd (pre ++ s :: post)%list desc) buf =
  Panic (ErrQuoteInIdent s) (buf ++ render_many pre).
Proof.
  intros Hpre Hs. unfold Ords.Ord_AppendBytes, bind. simpl.
  rewrite PathFacts.appendSqlPath_panic by assumption. reflexivity.
Qed.

(** C7. A resolved field path of one identifier is written as the
    identifier in double quotes; a longer path is written with its first
    identifier quoted inside parentheses and each later identifier after a
    dot, in double quotes, so that the path a, b, c gives
    (<<"a">>).<<"b">>.<<"c">> with only the first identifier in parentheses.
    [Ord.AppendBytes] writes the path in this way and then the
    direction. *)
Theorem C7_path_rendering (a : string) (rest : list string) (desc : bool) (buf : string) :
  first_quoted (a :: rest) = None ->
  let shown :=
      match rest with
      | [] => dq ++ a ++ dq
      | _ :: _ =>
        "(" ++ dq ++ a ++ dq ++ ")"
            ++ String.concat "" (map (fun s => "." ++ dq ++ s ++ dq) rest)
      end in
  Utils.appendSqlPath (a :: rest) buf = Ok tt (buf ++ shown)
  /\ Ords.Ord_AppendBytes (Ords.MkOrd (a :: rest) desc) buf =
     Ok tt (buf ++ shown ++ (if desc then " desc" else " asc")).
Proof.
  intros H shown.
  assert (E : render_path (a :: rest) = shown).
  { subst shown. destruct rest as [|b rest]; [reflexivity|].
    unfold render_path, render_many. rewrite render_tail_concat.
    unfold quoted, dq. JsonFacts.str_assoc. }
  rewrite <- E. split.
  - apply PathFacts.appendSqlPath_ok, H.
  - apply Ord_AppendBytes_ok, H.
Qed.

Lemma C7_path_rendering_witness :
  Utils.appendSqlPath ["a"; "b"; "c"] "" =
  Ok tt ("(" ++ dq ++ "a" ++ dq ++ ")." ++ dq ++ "b" ++ dq ++ "." ++ dq ++ "c" ++ dq)
  /\ Utils.appendSqlPath ["a"] "" = Ok tt (dq ++ "a" ++ dq).
Proof.
  split.
  - exact (proj1 (C7_path_rendering "a" ["b"; "c"] false "" eq_refl)).
  - exact (proj1 (C7_path_rendering "a" [] false "" eq_refl)).
Defined.

Lemma decodeString_resolved (self : ExprQuery.Expr) (input str : string)
      (sfield : option Reflect.StructField) (path : list string) :
  Json.unmarshalString input = Some str ->
  Utils.structFieldByJsonPath (ExprQuery.Type_ self) str = inr (sfield, path) ->
  ExprQuery.decodeString input self =
  match Utils.appendSqlPath path (Sqlb.Text (ExprQuery.Query self)) with
  | Ok _ text => Ok None (ExprQuery.with_text text self)
  | Panic e text => Ok (Some e) (ExprQuery.with_text text self)
  | OutOfFuel => OutOfFuel
  end.
Proof.
  intros Hs Hp. unfold ExprQuery.decodeString, Utils.rec. rewrite Hs.
  unfold bind at 1. unfold get. rewrite Hp.
  unfold bind, ExprQuery.onText, zoom.
  destruct (Utils.appendSqlPath path (Sqlb.Text (ExprQuery.Query self))); reflexivity.
Qed.

(** C3. Every storage identifier written into SQL stands between double
    quotes, and a resolved identifier that itself holds a double quote
    makes the operation fail: it is neither written nor written with the
    quote taken out.  For a field path in an expression [decodeString]
    returns the error; for an ordering, writing the ordering panics. *)
Theorem C3_identifiers_quoted_or_rejected
        (self : ExprQuery.Expr) (input str : string)
        (sfield : option Reflect.StructField) (path : list string)
        (desc : bool) (buf : string) :
  Json.unmarshalString input = Some str ->
  Utils.structFieldByJsonPath (ExprQuery.Type_ self) str = inr (sfield, path) ->
  let text := Sqlb.Text (ExprQuery.Query self) in
  match first_quoted path with
  | None =>
    Utils.appendSqlPath path buf = Ok tt (buf ++ render_path path)
    /\ ExprQuery.decodeString input self =
       Ok None (ExprQuery.with_text (text ++ render_path path) self)
    /\ Ords.Ord_String (Ords.MkOrd path desc) =
       Returns (render_path path ++ (if desc then " desc" else " asc"))
  | Some s =>
    exists pre post,
    path = (pre ++ s :: post)%list
    /\ first_quoted pre = None
    /\ contains_byte quote s = true
    /\ Utils.appendSqlPath path buf = Panic (ErrQuoteInIdent s) (buf ++ render_many pre)
    /\ ExprQuery.decodeString input self =
       Ok (Some (ErrQuoteInIdent s)) (ExprQuery.with_text (text ++ render_many pre) self)
    /\ Ords.Ord_String (Ords.MkOrd path desc) = Panics (ErrQuoteInIdent s)
  end.
Proof.
  intros Hs Hp text.
  rewrite (decodeString_resolved self input str sfield path Hs Hp).
  destruct (first_quoted path) as [s|] eqn:Eq.
  - apply PathFacts.first_quoted_split in Eq as (pre & post & -> & Hpre & Hq).
    exists pre, post. repeat split; auto.
    + apply PathFacts.appendSqlPath_panic; assumption.
    + rewrite PathFacts.appendSqlPath_panic by assumption. reflexivity.
    + unfold Ords.Ord_String, Utils.appendedBy.
      rewrite Ord_AppendBytes_panic by assumption. reflexivity.
  - repeat split.
    + apply PathFacts.appendSqlPath_ok, Eq.
    + rewrite PathFacts.appendSqlPath_ok by assumption. reflexivity.
    + unfold Ords.Ord_String, Utils.appendedBy.
      rewrite Ord_AppendBytes_ok by assumption. reflexivity.
Qed.

Lemma C3_identifiers_quoted_or_rejected_witness :
  let self := ExprQuery.ExprFor (Some TestSchema.Quoted) in
  let bad := ("od" ++ dq ++ "d")%string in
  (exists pre post,
      ["inner"; bad] = (pre ++ bad :: post)%list
      /\ first_quoted pre = None
      /\ contains_byte quote bad = true
      /\ Utils.appendSqlPath ["inner"; bad] "" =
         Panic (ErrQuoteInIdent bad) ("" ++ render_many pre)
      /\ ExprQuery.decodeString (TestSchema.jstr "inner.odd") self =
         Ok (Some (ErrQuoteInIdent bad)) (ExprQuery.with_text ("" ++ render_many pre) self)
      /\ Ords.Ord_String (Ords.MkOrd ["inner"; bad] true) = Panics (ErrQuoteInIdent bad))
  /\ ExprQuery.decodeString (TestSchema.jstr "inner") self =
     Ok None (ExprQuery.with_text (dq ++ "inner" ++ dq) self).
Proof.
  intros self bad. split.
  - exact (C3_identifiers_quoted_or_rejected
             self (TestSchema.jstr "inner.odd") "inner.odd"
             (Some (Reflect.MkField "Odd" false "odd" bad TestSchema.stringType))
             ["inner"; bad] true "" eq_refl eq_refl).
  - exact (proj1 (proj2 (C3_identifiers_quoted_or_rejected
             self (TestSchema.jstr "inner") "inner"
             (Some (Reflect.MkField "Inner" false "inner" "inner"
                      (Reflect.Struct "QuotedInner"
                         [Reflect.MkField "Odd" false "odd" bad TestSchema.stringType]
                         Reflect.AsObject)))
             ["inner"] true "" eq_refl eq_refl))).
Defined.

(* ------------------------------------------------------------------ *)
(** ** The entry points of the [sqlb.Bui] generation *)

(** C5. An expression in boolean context whose stored input text is empty
    compiles to exactly the text [true] with no parameters.  (Appended to
    a text already written, [true] follows it after the builder's
    spacing; the older generation appends [true] for an empty query.) *)
Theorem C5_empty_boolean_is_true
        (self : ExprBui.Expr) (old : ExprQuery.Expr) (text : string) (args : list Value) :
  ExprBui.IsBool self = true ->
  ExprBui.Text self = "" ->
  ExprQuery.IsBool old = true ->
  Sqlb.Text (ExprQuery.Query old) = "" ->
  ExprBui.AppendExpr self "" [] = Returns ("true", [])
  /\ ExprBui.AppendExpr self text args =
     Returns (Sqlb.appendMaybeSpaced text "true", args)
  /\ ExprQuery.QueryAppend old (Sqlb.MkQuery "" []) = Sqlb.MkQuery "true" [].
Proof.
  intros Hb Ht Hb' Ht'.
  unfold ExprBui.AppendExpr, ExprBui.AppendExprWith, ExprQuery.QueryAppend.
  rewrite Hb, Ht, Hb', Ht'. simpl. auto.
Qed.

Lemma C5_empty_boolean_is_true_witness :
  ExprBui.AppendExpr (ExprBui.Bool (Some TestSchema.External)) "" [] = Returns ("true", [])
  /\ ExprQuery.QueryAppend (ExprQuery.Bool (Some TestSchema.External)) (Sqlb.MkQuery "" []) =
     Sqlb.MkQuery "true" [].
Proof.
  pose proof (C5_empty_boolean_is_true
                (ExprBui.Bool (Some TestSchema.External))
                (ExprQuery.Bool (Some TestSchema.External)) "" []
                eq_refl eq_refl eq_refl eq_refl) as (H1 & _ & H3).
  split; [exact H1 | exact H3].
Defined.

(** C10. [Expr.UnmarshalText] and [Expr.UnmarshalJSON] of the [sqlb.Bui]
    generation return [nil] for every input: they store the bytes as they
    are, so that a malformed input, such as an unclosed list, is only found
    when [AppendExpr] runs the decoder. *)
Theorem C10_unmarshal_stores_input (self : ExprBui.Expr) (val : string) :
  ExprBui.UnmarshalText self val =
  (ExprBui.MkExpr val (ExprBui.Type_ self) (ExprBui.IsBool self), None)
  /\ ExprBui.UnmarshalJSON self val =
     (ExprBui.MkExpr val (ExprBui.Type_ self) (ExprBui.IsBool self), None)
  /\ snd (ExprBui.UnmarshalText self "[") = None
  /\ ExprBui.AppendExpr (fst (ExprBui.UnmarshalText self "[")) "" [] =
     Panics ErrUnmarshalList.
Proof.
  repeat split.
  unfold ExprBui.AppendExpr, ExprBui.AppendExprWith. simpl.
  rewrite andb_false_r. reflexivity.
Qed.



(* ------------------------------------------------------------------ *)
(** ** Casts *)

Lemma Query_Append_param (val : Value) (q : Sqlb.Query) :
  Sqlb.Query_Append "$1" [val] q =
  Sqlb.MkQuery
    (Sqlb.appendSpaceIfNeeded (Sqlb.Text q) ++ "$" ++ itoa (S (length (Sqlb.Args q))))
    (Sqlb.Args q ++ [val])%list.
Proof.
  unfold Sqlb.Query_Append. f_equal. simpl.
  rewrite append_nil_r. reflexivity.
Qed.

(** [decodeCast] of the [sqlb.Bui] generation succeeds exactly when it has
    one argument, the name resolves, and the argument decodes into the
    type of the field; it then writes one placeholder. *)
Lemma bui_decodeCast_ok (self : ExprBui.Expr) (name : string) (args : list string)
      (bui bui' : Sqlb.Bui) :
  ExprBui.decodeCast self name args bui = Ok tt bui' <->
  exists arg sfield path val,
    args = [arg]
    /\ Internal.fieldByJsonPath (ExprBui.Type_ self) name = inr (Some sfield, path)
    /\ Reflect.unmarshalInto (Reflect.Type_ sfield) arg = Some val
    /\ Sqlb.BuiArgs bui' = (Sqlb.BuiArgs bui ++ [val])%list
    /\ Sqlb.BuiText bui' =
       Sqlb.appendMaybeSpaced (Sqlb.BuiText bui) ("$" ++ itoa (length (Sqlb.BuiArgs bui'))).
Proof.
  unfold ExprBui.decodeCast. split.
  - destruct args as [|arg [|arg2 args]]; simpl; try discriminate.
    destruct (Internal.fieldByJsonPath (ExprBui.Type_ self) name) as [e|[[sfield|] path]];
      simpl; try discriminate.
    destruct (Reflect.unmarshalInto (Reflect.Type_ sfield) arg) as [val|] eqn:Ev;
      simpl; try discriminate.
    intros H. injection H as <-. exists arg, sfield, path, val. simpl.
    repeat split; auto. rewrite length_app. simpl.
    replace (length (Sqlb.BuiArgs bui) + 1) with (S (length (Sqlb.BuiArgs bui))) by lia.
    reflexivity.
  - intros (arg & sfield & path & val & -> & Hp & Hv & Ha & Ht).
    simpl. rewrite Hp. simpl. rewrite Hv. simpl.
    destruct bui' as [text' args']. simpl in *. subst.
    rewrite length_app. simpl.
    replace (length (Sqlb.BuiArgs bui) + 1) with (S (length (Sqlb.BuiArgs bui))) by lia.
    reflexivity.
Qed.

Lemma bui_decodeCast_arity (self : ExprBui.Expr) (name : string) (args : list string)
      (bui : Sqlb.Bui) :
  length args <> 1 ->
  ExprBui.decodeCast self name args bui = Panic (ErrCastArity name (length args)) bui.
Proof.
  intros H. unfold ExprBui.decodeCast.
  destruct (length args =? 1) eqn:E; [apply Nat.eqb_eq in E; contradiction|].
  reflexivity.
Qed.

Lemma query_decodeCast_ok (name : string) (args : list string) (self self' : ExprQuery.Expr) :
  ExprQuery.decodeCast name args self = Ok None self' <->
  exists arg sfield path val,
    args = [arg]
    /\ Utils.structFieldByJsonPath (ExprQuery.Type_ self) name = inr (Some sfield, path)
    /\ Reflect.unmarshalInto (Reflect.Type_ sfield) arg = Some val
    /\ self' =
       ExprQuery.with_query
         (Sqlb.MkQuery
            (Sqlb.appendSpaceIfNeeded (Sqlb.Text (ExprQuery.Query self))
               ++ "$" ++ itoa (S (length (Sqlb.Args (ExprQuery.Query self)))))
            (Sqlb.Args (ExprQuery.Query self) ++ [val])%list)
         self.
Proof.
  unfold ExprQuery.decodeCast, Utils.rec. split.
  - destruct args as [|arg [|arg2 args]]; simpl; try discriminate.
    unfold bind at 1, get.
    destruct (Utils.structFieldByJsonPath (ExprQuery.Type_ self) name) as [e|[[sfield|] path]];
      simpl; try discriminate.
    destruct (Reflect.unmarshalInto (Reflect.Type_ sfield) arg) as [val|] eqn:Ev;
      simpl; try discriminate.
    unfold bind, ExprQuery.Append, modify, ret. rewrite Query_Append_param.
    intros H. injection H as <-. exists arg, sfield, path, val. auto.
  - intros (arg & sfield & path & val & -> & Hp & Hv & ->).
    simpl. unfold bind at 1, get. rewrite Hp. simpl. rewrite Hv. simpl.
    unfold bind, ExprQuery.Append, modify, ret. rewrite Query_Append_param.
    reflexivity.
Qed.

Lemma query_decodeCast_arity (name : string) (args : list string) (self : ExprQuery.Expr) :
  length args <> 1 ->
  ExprQuery.decodeCast name args self = Ok (Some (ErrCastArity name (length args))) self.
Proof.
  intros H. unfold ExprQuery.decodeCast, Utils.rec.
  destruct (length args =? 1) eqn:E; [apply Nat.eqb_eq in E; contradiction|].
  reflexivity.
Qed.

(** A list whose head is not an operator is a cast. *)
Lemma bui_decodeList_cast (self : ExprBui.Expr) (decode : ExprBui.Decoder)
      (input head name : string) (args : list string) :
  Json.unmarshalList input = Some (head :: args) ->
  Internal.isJsonString head = true ->
  Json.unmarshalString head = Some name ->
  SqlOps_get name = None ->
  ExprBui.decodeList self decode input = ExprBui.decodeCast self name args.
Proof.
  intros Hl Hq Hn Ho. unfold ExprBui.decodeList.
  rewrite Hl. simpl. rewrite Hq, Hn, Ho. reflexivity.
Qed.

Lemma query_decodeList_cast (decode : ExprQuery.Decoder)
      (input head name : string) (args : list string) :
  Json.unmarshalList input = Some (head :: args) ->
  Utils.isJsonString head = true ->
  Json.unmarshalString head = Some name ->
  SqlOps_get name = None ->
  ExprQuery.decodeList decode input = ExprQuery.decodeCast name args.
Proof.
  intros Hl Hq Hn Ho. unfold ExprQuery.decodeList.
  rewrite Hl. simpl. rewrite Hq, Hn, Ho. reflexivity.
Qed.

(** C6. For a list whose head string is not in the operator whitelist, the
    head is resolved as a field path, which gives the type of the leaf
    field; compilation fails unless exactly one argument remains; on
    success that argument is JSON-decoded into the leaf type and appended
    as exactly one positional parameter, and what is written to the SQL
    text is the placeholder only, never the identifier.  Both generations
    of the compiler do so. *)
Theorem C6_cast
        (self : ExprBui.Expr) (old : ExprQuery.Expr)
        (decode : ExprBui.Decoder) (decode_old : ExprQuery.Decoder)
        (input head name : string) (args : list string) (bui : Sqlb.Bui) :
  Json.unmarshalList input = Some (head :: args) ->
  Internal.isJsonString head = true ->
  Json.unmarshalString head = Some name ->
  SqlOps_get name = None ->
  (length args <> 1 ->
   ExprBui.decodeList self decode input bui = Panic (ErrCastArity name (length args)) bui
   /\ ExprQuery.decodeList decode_old input old =
      Ok (Some (ErrCastArity name (length args))) old)
  /\ (forall bui',
         ExprBui.decodeList self decode input bui = Ok tt bui' <->
         exists arg sfield path val,
           args = [arg]
           /\ Internal.fieldByJsonPath (ExprBui.Type_ self) name = inr (Some sfield, path)
           /\ Reflect.unmarshalInto (Reflect.Type_ sfield) arg = Some val
           /\ Sqlb.BuiArgs bui' = (Sqlb.BuiArgs bui ++ [val])%list
           /\ Sqlb.BuiText bui' =
              Sqlb.appendMaybeSpaced (Sqlb.BuiText bui)
                                     ("$" ++ itoa (length (Sqlb.BuiArgs bui'))))
  /\ (forall old',
         ExprQuery.decodeList decode_old input old = Ok None old' <->
         exists arg sfield path val,
           args = [arg]
           /\ Utils.structFieldByJsonPath (ExprQuery.Type_ old) name = inr (Some sfield, path)
           /\ Reflect.unmarshalInto (Reflect.Type_ sfield) arg = Some val
           /\ old' =
              ExprQuery.with_query
                (Sqlb.MkQuery
                   (Sqlb.appendSpaceIfNeeded (Sqlb.Text (ExprQuery.Query old))
                      ++ "$" ++ itoa (S (length (Sqlb.Args (ExprQuery.Query old)))))
                   (Sqlb.Args (ExprQuery.Query old) ++ [val])%list)
                old).
Proof.
  intros Hl Hq Hn Ho.
  rewrite (bui_decodeList_cast self decode input head name args Hl Hq Hn Ho).
  rewrite (query_decodeList_cast decode_old input head name args Hl Hq Hn Ho).
  split; [|split].
  - intros Hlen. split.
    + apply bui_decodeCast_arity, Hlen.
    + apply query_decodeCast_arity, Hlen.
  - intros bui'. apply bui_decodeCast_ok.
  - intros old'. apply query_decodeCast_ok.
Qed.

Lemma C6_cast_witness :
  let input := ("[" ++ TestSchema.jstr "externalName" ++ ", "
                    ++ TestSchema.jstr "literal string" ++ "]")%string in
  let self := ExprBui.MkExpr input (Some TestSchema.External) false in
  let old := ExprQuery.ExprFor (Some TestSchema.External) in
  ExprBui.decodeList self (ExprBui.decode 10 self) input (Sqlb.MkBui "" []) =
  Ok tt (Sqlb.MkBui "$1" [VString "literal string"])
  /\ ExprQuery.decodeList (ExprQuery.decode 10) input old =
     Ok None (ExprQuery.with_query (Sqlb.MkQuery "$1" [VString "literal string"]) old).
Proof.
  intros input self old.
  pose proof (C6_cast self old (ExprBui.decode 10 self) (ExprQuery.decode 10)
                input (TestSchema.jstr "externalName") "externalName"
                [TestSchema.jstr "literal string"] (Sqlb.MkBui "" [])
                eq_refl eq_refl eq_refl eq_refl) as (_ & Hbui & Hold).
  split.
  - apply Hbui.
    exists (TestSchema.jstr "literal string"),
           (Reflect.MkField "ExternalName" false "externalName" "external_name"
                            TestSchema.stringType),
           ["external_name"], (VString "literal string").
    repeat split; reflexivity.
  - apply Hold.
    exists (TestSchema.jstr "literal string"),
           (Reflect.MkField "ExternalName" false "externalName" "external_name"
                            TestSchema.stringType),
           ["external_name"], (VString "literal string").
    repeat split; reflexivity.
Defined.

(* ------------------------------------------------------------------ *)
(** ** Ordering directives *)

Module OrdFacts.
Import Reflect Utils Ords.

Lemma sfieldByJsonName_not_syntax (rtype : option Rtype) (name : string) (e : Error) :
  sfieldByJsonName rtype name = inl e -> not_syntax e.
Proof.
  unfold sfieldByJsonName, Refut.TraverseStructRtype.
  destruct rtype as [t|]; [|intros H; injection H as <-; intros s; discriminate].
  destruct (Refut.derefs_to_struct t).
  - destruct (Refut.traverse _ t); [discriminate|].
    intros H; injection H as <-; intros s; discriminate.
  - intros H; injection H as <-; intros s; discriminate.
Qed.

Lemma walkPath_not_syntax (pathStr : string) (segments : list string) :
  forall rtype sfield e,
    walkPath pathStr rtype sfield segments = inl e -> not_syntax e.
Proof.
  induction segments as [|seg rest IH]; intros rtype sfield e; simpl; [discriminate|].
  destruct (sfieldByJsonName rtype seg) as [e'|found] eqn:Ef.
  - intros H. injection H as <-. eapply sfieldByJsonName_not_syntax, Ef.
  - destruct (sfieldColumnName found =? "")%string.
    + intros H; injection H as <-; intros s; discriminate.
    + destruct (walkPath pathStr (Some (Reflect.Type_ found)) (Some found) rest)
        as [e'|[last cols]] eqn:Ew; [|discriminate].
      intros H. injection H as <-. eapply IH, Ew.
Qed.

(** Resolving a path never fails with the error of the ordering syntax. *)
Lemma structFieldByJsonPath_not_syntax (rtype : option Rtype) (pathStr : string) (e : Error) :
  structFieldByJsonPath rtype pathStr = inl e -> not_syntax e.
Proof.
  unfold structFieldByJsonPath.
  destruct (negb (dottedPathReg_MatchString pathStr)).
  { intros H; injection H as <-; intros s; discriminate. }
  destruct rtype as [t|].
  - apply walkPath_not_syntax.
  - intros H; injection H as <-; intros s; discriminate.
Qed.

End OrdFacts.

(** C8, as the code has it.  Parsing an ordering directive returns the
    error of the ordering syntax exactly when the directive does not match
    [ordReg]: a dotted word-character identifier, white space, then [asc]
    or [desc] in any case.  A directive of that shape is split into the
    identifier and the direction, the identifier is resolved against the
    schema, and parsing succeeds exactly when the resolution does; a
    failed resolution returns its own error.  The directive with the extra
    qualifier [nulls last] is refused for its syntax. *)
Theorem C8_ordering_syntax (self : Ords.Ords) (str : string) :
  (Ords.parseOrd self str = inl (ErrOrdSyntax str) <->
   Regexp.matches Utils.ordReg str = false)
  /\ (Regexp.matches Utils.ordReg str = true ->
      exists ident spaces direction,
        str = ident ++ spaces ++ direction
        /\ Regexp.lang Utils.dottedPath ident
        /\ Regexp.lang Utils.ordSpaces spaces
        /\ Regexp.lang Utils.ordDirection direction
        /\ Ords.parseOrd self str =
           match Utils.structFieldByJsonPath (Ords.Type_ self) ident with
           | inl e => inl e
           | inr (_, path) => inr (Ords.MkOrd path (Ords.EqualFold direction "desc"))
           end)
  /\ Ords.parseOrd self "external_name asc nulls last" =
     inl (ErrOrdSyntax "external_name asc nulls last").
Proof.
  split; [|split].
  - unfold Ords.parseOrd, Utils.ordReg_FindStringSubmatch, Utils.ordReg.
    rewrite <- RegexpFacts.find_groups_none.
    destruct (Regexp.find_groups _ _ _ str) as [[ident direction]|] eqn:Ef.
    + split; [|discriminate].
      destruct (Utils.structFieldByJsonPath (Ords.Type_ self) ident) as [e|[sf path]] eqn:Er;
        [|discriminate].
      intros H. injection H as ->.
      exfalso. exact (OrdFacts.structFieldByJsonPath_not_syntax _ _ _ Er str eq_refl).
    + split; reflexivity.
  - intros Hm. unfold Ords.parseOrd, Utils.ordReg_FindStringSubmatch.
    destruct (Regexp.find_groups Utils.dottedPath Utils.ordSpaces Utils.ordDirection str)
      as [[ident direction]|] eqn:Ef.
    + apply RegexpFacts.find_groups_some in Ef as (spaces & -> & Ha & Hb & Hc).
      exists ident, spaces, direction.
      rewrite <- !RegexpFacts.matches_lang. repeat split; auto.
    + apply RegexpFacts.find_groups_none in Ef. unfold Utils.ordReg in Hm. congruence.
  - reflexivity.
Qed.

Lemma C8_ordering_syntax_witness :
  let self := Ords.OrdsFor (Some TestSchema.External) in
  exists ident spaces direction,
    "internal.internalTime  DESC" = ident ++ spaces ++ direction
    /\ Regexp.lang Utils.dottedPath ident
    /\ Regexp.lang Utils.ordSpaces spaces
    /\ Regexp.lang Utils.ordDirection direction
    /\ Ords.parseOrd self "internal.internalTime  DESC" =
       match Utils.structFieldByJsonPath (Ords.Type_ self) ident with
       | inl e => inl e
       | inr (_, path) => inr (Ords.MkOrd path (Ords.EqualFold direction "desc"))
       end.
Proof.
  intros self.
  exact (proj1 (proj2 (C8_ordering_syntax self "internal.internalTime  DESC")) eq_refl).
Defined.

(** A directive of the right shape whose identifier is not a public name
    of the schema does not parse: the shape alone does not make parsing
    succeed. *)
Lemma C8_shape_without_field :
  Regexp.matches Utils.ordReg "external_name asc" = true
  /\ Ords.parseOrd (Ords.OrdsFor (Some TestSchema.External)) "external_name asc" =
     inl (ErrNoSuchField "external_name" "jel.External").
Proof. split; reflexivity. Qed.

(* ------------------------------------------------------------------ *)
(** ** Failures at the public boundary *)

Lemma query_call_returns (fuel : nat) (input : string) (old : ExprQuery.Expr) :
  String.length input < fuel ->
  exists old' err, ExprQuery.call (ExprQuery.decode fuel input) old = Returns (old', err).
Proof.
  intros Hlen. unfold ExprQuery.call.
  pose proof (ExprQueryFacts.query_decode_safe fuel input Hlen old) as Hs.
  pose proof (ExprQueryFacts.query_decode_calm fuel input old) as Hc.
  destruct (ExprQuery.decode fuel input old) as [err old'|e old'|].
  - exists old', err. reflexivity.
  - exfalso. exact (Hc e old' eq_refl).
  - congruence.
Qed.

(** C2, as the code has it.  In the [sqlb.Query] generation a failing
    compilation comes out of [UnmarshalText] and [UnmarshalJSON] as a
    returned error value, and no panic escapes: every panic raised inside
    is recovered by the function that raised it.  In the [sqlb.Bui]
    generation [UnmarshalText] and [UnmarshalJSON] never fail, and
    [AppendExpr], which has no error result, either returns the text and
    arguments or panics with the error. *)
Theorem C2_failures_at_the_boundary
        (old : ExprQuery.Expr) (self : ExprBui.Expr)
        (input text : string) (args : list Value) :
  (exists old' err, ExprQuery.UnmarshalText old input = Returns (old', err))
  /\ (exists old' err, ExprQuery.UnmarshalJSON old input = Returns (old', err))
  /\ snd (ExprBui.UnmarshalText self input) = None
  /\ snd (ExprBui.UnmarshalJSON self input) = None
  /\ ((exists out, ExprBui.AppendExpr self text args = Returns out)
      \/ (exists e, ExprBui.AppendExpr self text args = Panics e)).
Proof.
  split; [|split; [|split; [|split]]].
  - apply query_call_returns. unfold ExprQuery.enough. lia.
  - apply query_call_returns. unfold ExprQuery.enough. lia.
  - reflexivity.
  - reflexivity.
  - unfold ExprBui.AppendExpr, ExprBui.AppendExprWith.
    destruct (ExprBui.IsBool self && (String.length (ExprBui.Text self) =? 0)).
    { left. eexists. reflexivity. }
    pose proof (ExprBuiFacts.bui_decode_safe self (ExprBui.enough (ExprBui.Text self))
                  (ExprBui.Text self) ltac:(unfold ExprBui.enough; lia)
                  (Sqlb.MkBui text args)) as Hs.
    destruct (ExprBui.decode _ _ _ _) as [u bui'|e bui'|].
    + left. eexists. reflexivity.
    + right. exists e. reflexivity.
    + congruence.
Qed.

(** A failing compilation of the [sqlb.Bui] generation reaches the caller
    of [AppendExpr] as a panic, not as a returned error. *)
Lemma C2_panic_escapes :
  ExprBui.AppendExpr (ExprBui.MkExpr "{}" (Some TestSchema.External) false) "" [] =
  Panics (ErrUnexpectedDict "{}").
Proof. reflexivity. Qed.

(* ------------------------------------------------------------------ *)
(** ** The first failure *)

Lemma for_range_app {St A : Type} (body : nat -> A -> M St unit) (pre post : list A) :
  forall i s,
    for_range body i (pre ++ post) s =
    match for_range body i pre s with
    | Ok _ s1 => for_range body (i + length pre) post s1
    | Panic e s1 => Panic e s1
    | OutOfFuel => OutOfFuel
    end.
Proof.
  induction pre as [|x pre IH]; intros i s; simpl.
  - rewrite Nat.add_0_r. reflexivity.
  - unfold bind. destruct (body i x s) as [u s'|e s'|]; auto.
    rewrite IH. replace (S i + length pre) with (i + S (length pre)) by lia.
    reflexivity.
Qed.

(** A loop stops at the first element whose body panics. *)
Lemma for_range_first_panic {St A : Type} (body : nat -> A -> M St unit)
      (pre : list A) (bad : A) (post : list A) (i : nat) (s s1 s2 : St) (e : Error) :
  for_range body i pre s = Ok tt s1 ->
  body (i + length pre) bad s1 = Panic e s2 ->
  for_range body i (pre ++ bad :: post) s = Panic e s2.
Proof.
  intros Hpre Hbad. rewrite for_range_app, Hpre. simpl.
  unfold bind. rewrite Hbad. reflexivity.
Qed.

Lemma parseEach_app (pre post : list string) :
  forall self,
    Ords.parseEach (pre ++ post) self =
    match Ords.parseEach pre self with
    | Ok None self1 => Ords.parseEach post self1
    | r => r
    end.
Proof.
  induction pre as [|v pre IH]; intros self; simpl; [reflexivity|].
  unfold bind at 1. unfold get.
  unfold bind at 2. unfold get.
  destruct (Ords.parseOrd self v) as [e|ord]; [reflexivity|].
  unfold bind, modify. apply IH.
Qed.

Lemma parseEach_ok (vals : list string) :
  forall self ords,
    Forall2 (fun v o => Ords.parseOrd self v = inr o) vals ords ->
    Ords.parseEach vals self =
    Ok None (Ords.MkOrds (Ords.Items self ++ ords) (Ords.Type_ self)).
Proof.
  induction vals as [|v vals IH]; intros self ords H; inversion H as [|v' o vs os Hv Hvs]; subst.
  - simpl. rewrite app_nil_r. destruct self; reflexivity.
  - simpl. unfold bind at 1. unfold get. rewrite Hv.
    unfold bind, modify.
    rewrite (IH _ os).
    + simpl. rewrite <- app_assoc. reflexivity.
    + eapply Forall2_impl; [|exact Hvs]. intros a b Hab. exact Hab.
Qed.

(** C4, as the code has it.  The first failure ends the operation and is
    the error that comes out: of the arguments of an infix operation those
    before the failing one are decoded and none after it; of the
    directives of [ParseSlice] those before the failing one are parsed and
    none after it.  What was written before the failure is not taken back:
    the older generation returns the error with the text and arguments
    written so far left in the receiver, and [ParseSlice] with the
    orderings parsed so far left in [Items].  [AppendExpr] of the
    [sqlb.Bui] generation panics with the error, so that its caller
    receives neither text nor arguments. *)
Theorem C4_first_failure_aborts :
  (forall (decode : ExprQuery.Decoder) (name : string)
          (pre : list string) (bad : string) (post : list string)
          (old s1 s2 : ExprQuery.Expr) (e : Error),
      2 <= length (pre ++ bad :: post) ->
      for_range (ExprQuery.infixArg decode name) 0 pre
                (ExprQuery.with_query
                   (Sqlb.Query_Append "(" [] (ExprQuery.Query old)) old) = Ok tt s1 ->
      ExprQuery.infixArg decode name (length pre) bad s1 = Panic e s2 ->
      ExprQuery.decodeOpInfix decode name (pre ++ bad :: post) old = Ok (Some e) s2)
  /\ (forall (ords : Ords.Ords) (pre : list string) (bad : string) (post : list string)
             (parsed : list Ords.Ord) (e : Error),
         Forall2 (fun v o => Ords.parseOrd ords v = inr o) pre parsed ->
         Ords.parseOrd ords bad = inl e ->
         Ords.ParseSlice (pre ++ bad :: post) ords =
         Ok (Some e) (Ords.MkOrds parsed (Ords.Type_ ords)))
  /\ (forall (self : ExprBui.Expr) (fuel : nat) (text : string) (args : list Value)
             (bui : Sqlb.Bui) (e : Error),
         ExprBui.Text self <> "" ->
         ExprBui.decode fuel self (ExprBui.Text self) (Sqlb.MkBui text args) = Panic e bui ->
         ExprBui.AppendExprWith fuel self text args = Panics e).
Proof.
  split; [|split].
  - intros decode name pre bad post old s1 s2 e Hlen Hpre Hbad.
    unfold ExprQuery.decodeOpInfix, Utils.rec.
    destruct (2 <=? length (pre ++ bad :: post)) eqn:E;
      [|apply Nat.leb_gt in E; lia].
    unfold bind at 1. unfold ExprQuery.openParen, ExprQuery.Append, modify.
    unfold bind at 1. cbn [negb]. cbv beta.
    rewrite (for_range_first_panic _ pre bad post 0 _ s1 s2 e Hpre Hbad).
    reflexivity.
  - intros ords pre bad post parsed e Hpre Hbad.
    unfold Ords.ParseSlice, bind, modify.
    rewrite parseEach_app.
    assert (Hpre' : Forall2 (fun v o =>
                      Ords.parseOrd (Ords.MkOrds [] (Ords.Type_ ords)) v = inr o) pre parsed).
    { eapply Forall2_impl; [|exact Hpre]. intros v o Hv. exact Hv. }
    rewrite (parseEach_ok pre _ parsed Hpre'). simpl.
    unfold bind, get. 
    change (Ords.parseOrd {| Ords.Items := parsed; Ords.Type_ := Ords.Type_ ords |} bad)
      with (Ords.parseOrd ords bad).
    rewrite Hbad. reflexivity.
  - intros self fuel text args bui e Ht Hd.
    unfold ExprBui.AppendExprWith.
    destruct (ExprBui.Text self) eqn:Et; [congruence|].
    simpl. rewrite andb_false_r. rewrite Hd. reflexivity.
Qed.

Lemma C4_first_failure_aborts_witness :
  let old := ExprQuery.ExprFor (Some TestSchema.External) in
  let ords := Ords.OrdsFor (Some TestSchema.External) in
  ExprQuery.decodeOpInfix (ExprQuery.decode 10) "and"
                          ["true"; TestSchema.jstr "nope"; "false"] old =
  Ok (Some (ErrNoSuchField "nope" "jel.External"))
     (ExprQuery.with_query (Sqlb.MkQuery "( $1 and" [VBool true]) old)
  /\ Ords.ParseSlice ["externalName asc"; "external_name asc"; "externalName desc"] ords =
     Ok (Some (ErrNoSuchField "external_name" "jel.External"))
        (Ords.MkOrds [Ords.OrdAsc ["external_name"]] (Some TestSchema.External))
  /\ ExprBui.AppendExprWith 10 (ExprBui.MkExpr "{}" (Some TestSchema.External) false) "" [] =
     Panics (ErrUnexpectedDict "{}").
Proof.
  intros old ords.
  destruct C4_first_failure_aborts as (Hinfix & Hords & Hbui).
  split; [|split].
  - apply (Hinfix (ExprQuery.decode 10) "and" ["true"] (TestSchema.jstr "nope") ["false"] old
                  (ExprQuery.with_query (Sqlb.MkQuery "( $1" [VBool true]) old)).
    + simpl. lia.
    + reflexivity.
    + reflexivity.
  - apply (Hords ords ["externalName asc"] "external_name asc" ["externalName desc"]
                 [Ords.OrdAsc ["external_name"]]).
    + repeat constructor.
    + reflexivity.
  - apply (Hbui (ExprBui.MkExpr "{}" (Some TestSchema.External) false) 10 "" []
                (Sqlb.MkBui "" [])).
    + discriminate.
    + reflexivity.
Defined.

(** After a failure the older generation and [ParseSlice] leave what
    they did before it for the caller to see. *)
Lemma C4_partial_output_observable :
  let old := ExprQuery.ExprFor (Some TestSchema.External) in
  let ords := Ords.OrdsFor (Some TestSchema.External) in
  ExprQuery.UnmarshalJSON old
    ("[" ++ TestSchema.jstr "and" ++ ",true," ++ TestSchema.jstr "nope" ++ "]") =
  Returns (ExprQuery.with_query (Sqlb.MkQuery "( $1 and" [VBool true]) old,
           Some (ErrNoSuchField "nope" "jel.External"))
  /\ Ords.ParseSlice ["externalName asc"; "external_name asc"] ords =
     Ok (Some (ErrNoSuchField "external_name" "jel.External"))
        (Ords.MkOrds [Ords.OrdAsc ["external_name"]] (Some TestSchema.External))
  /\ Ords.String_ (Ords.MkOrds [Ords.OrdAsc ["external_name"]] (Some TestSchema.External)) =
     Returns ("order by " ++ dq ++ "external_name" ++ dq ++ " asc").
Proof. repeat split. Qed.

(* ------------------------------------------------------------------ *)
(** ** Nesting *)

Module NestingFacts.
Import Json TestSchema.

Lemma scanString_not (rest : string) :
  scanString (jstr "not" ++ rest) = Some (jstr "not", "not", rest).
Proof. reflexivity. Qed.

Lemma length_nested (n : nat) : String.length (nested n) = 4 + 8 * n.
Proof.
  induction n as [|n IH]; [reflexivity|].
  simpl. rewrite length_append, IH. simpl. lia.
Qed.

Lemma nested_S (n : nat) (rest : string) :
  nested (S n) ++ rest = String "[" (jstr "not" ++ String "," (nested n ++ String "]" rest)).
Proof. simpl. rewrite append_assoc. reflexivity. Qed.

Lemma nested_head (n : nat) (rest : string) :
  exists c s, nested n ++ rest = String c s /\ is_ws c = false
              /\ Ascii.eqb c "]" = false.
Proof.
  destruct n; simpl; eexists; eexists; repeat split.
Qed.

Lemma spanWs_nested (n : nat) (rest : string) :
  spanWs (nested n ++ rest) = ("", nested n ++ rest).
Proof.
  destruct (nested_head n rest) as (c & s & -> & Hc & _). simpl. rewrite Hc. reflexivity.
Qed.

Lemma expect_close_nested (n : nat) (rest : string) :
  expect "]" (nested n ++ rest) = None.
Proof.
  destruct (nested_head n rest) as (c & s & -> & _ & Hc). simpl. rewrite Hc. reflexivity.
Qed.

(** The reader accepts [nested n] under [d] open containers as long as
    the depth stays within the limit. *)
Lemma parseValue_nested (n : nat) :
  forall fuel d rest,
    3 * n < fuel ->
    (d + N.of_nat n <= maxNestingDepth)%N ->
    parseValue fuel d (nested n ++ rest) = Some (nested n, nested_json n, rest).
Proof.
  induction n as [|n IH]; intros fuel d rest Hf Hd.
  - destruct fuel as [|fuel]; [lia|]. reflexivity.
  - destruct fuel as [|[|[|fuel]]]; try lia.
    rewrite nested_S.
    assert (Hlim : (maxNestingDepth <=? d)%N = false) by (apply N.leb_gt; lia).
    cbn [parseValue]. cbn [Ascii.eqb Bool.eqb].
    rewrite Hlim.
    change (spanWs (jstr "not" ++ String "," (nested n ++ String "]" rest)))
      with ("", jstr "not" ++ String "," (nested n ++ String "]" rest)).
    cbv iota beta.
    change (expect "]" (jstr "not" ++ String "," (nested n ++ String "]" rest)))
      with (@None string).
    cbv iota.
    cbn [parseElems].
    assert (Hv : parseValue (S fuel) (d + 1)
                            (jstr "not" ++ String "," (nested n ++ String "]" rest)) =
                 Some (jstr "not", JString "not", String "," (nested n ++ String "]" rest))).
    { reflexivity. }
    rewrite Hv. cbv iota beta.
    change (spanWs (String "," (nested n ++ String "]" rest)))
      with ("", String "," (nested n ++ String "]" rest)).
    cbv iota beta.
    change (expect "]" (String "," (nested n ++ String "]" rest))) with (@None string).
    change (expect "," (String "," (nested n ++ String "]" rest)))
      with (Some (nested n ++ String "]" rest)).
    cbv iota beta.
    rewrite spanWs_nested. cbv iota beta.
    rewrite (IH fuel (d + 1)%N (String "]" rest)) by lia.
    cbv iota beta.
    change (spanWs (String "]" rest)) with ("", String "]" rest).
    cbv iota beta.
    change (expect "]" (String "]" rest)) with (Some rest).
    cbv iota beta.
    simpl. rewrite ?append_assoc. reflexivity.
Qed.

(** Beyond the limit the reader refuses it, whatever the budget. *)
Lemma parseValue_too_deep (n : nat) :
  forall fuel d rest,
    (d <= maxNestingDepth)%N ->
    (maxNestingDepth < d + N.of_nat n)%N ->
    parseValue fuel d (nested n ++ rest) = None.
Proof.
  induction n as [|n IH]; intros fuel d rest Hd Hn; [lia|].
  destruct fuel as [|fuel]; [reflexivity|].
  rewrite nested_S. cbn [parseValue]. cbn [Ascii.eqb Bool.eqb].
  destruct (maxNestingDepth <=? d)%N eqn:Hlim; [reflexivity|].
  apply N.leb_gt in Hlim.
  change (spanWs (jstr "not" ++ String "," (nested n ++ String "]" rest)))
    with ("", jstr "not" ++ String "," (nested n ++ String "]" rest)).
  cbv iota beta.
  change (expect "]" (jstr "not" ++ String "," (nested n ++ String "]" rest)))
    with (@None string).
  cbv iota.
  destruct fuel as [|[|fuel]]; [reflexivity|reflexivity|].
  cbn [parseElems].
  assert (Hv : parseValue (S fuel) (d + 1)
                          (jstr "not" ++ String "," (nested n ++ String "]" rest)) =
               Some (jstr "not", JString "not", String "," (nested n ++ String "]" rest))).
  { reflexivity. }
  rewrite Hv. cbv iota beta.
  change (spanWs (String "," (nested n ++ String "]" rest)))
    with ("", String "," (nested n ++ String "]" rest)).
  cbv iota beta.
  change (expect "]" (String "," (nested n ++ String "]" rest))) with (@None string).
  change (expect "," (String "," (nested n ++ String "]" rest)))
    with (Some (nested n ++ String "]" rest)).
  cbv iota beta.
  rewrite spanWs_nested. cbv iota beta.
  rewrite (IH fuel (d + 1)%N (String "]" rest)) by lia.
  reflexivity.
Qed.

Lemma parseDoc_nested (n : nat) :
  (N.of_nat n <= maxNestingDepth)%N ->
  parseDoc (nested n) = Some (nested n, nested_json n).
Proof.
  intros Hn. unfold parseDoc.
  rewrite <- (append_nil_r (nested n)) at 1. rewrite spanWs_nested.
  rewrite parseValue_nested.
  - reflexivity.
  - rewrite append_nil_r, length_nested. lia.
  - lia.
Qed.

Lemma parseDoc_too_deep (n : nat) :
  (maxNestingDepth < N.of_nat n)%N -> parseDoc (nested n) = None.
Proof.
  intros Hn. unfold parseDoc.
  rewrite <- (append_nil_r (nested n)) at 1. rewrite spanWs_nested.
  rewrite parseValue_too_deep; [reflexivity | unfold maxNestingDepth; lia | lia].
Qed.

Lemma unmarshalList_nested (n : nat) :
  (N.of_nat (S n) <= maxNestingDepth)%N ->
  unmarshalList (nested (S n)) = Some [jstr "not"; nested n].
Proof.
  intros Hn. unfold unmarshalList. rewrite parseDoc_nested by assumption. reflexivity.
Qed.

Lemma unmarshalList_too_deep (n : nat) :
  (maxNestingDepth < N.of_nat n)%N -> unmarshalList (nested n) = None.
Proof.
  intros Hn. unfold unmarshalList. rewrite parseDoc_too_deep by assumption. reflexivity.
Qed.

Lemma depth_nested_json (n : nat) : depth (nested_json n) = n.
Proof.
  induction n as [|n IH]; [reflexivity|].
  simpl. rewrite IH. f_equal. lia.
Qed.

(** [nested n] is [n] lists deep. *)
Lemma nesting_nested (n : nat) :
  (N.of_nat n <= maxNestingDepth)%N -> nesting (nested n) = Some n.
Proof.
  intros Hn. unfold nesting. rewrite parseDoc_nested by assumption.
  simpl. rewrite depth_nested_json. reflexivity.
Qed.

End NestingFacts.

(* ------------------------------------------------------------------ *)
(** ** Compiling nested operations *)

Module NestedCompile.
Import TestSchema.

Lemma spaced_open (t rest : string) :
  Sqlb.appendMaybeSpaced t (String "(" rest) =
  t ++ (if Sqlb.hasDelimSuffix t then "" else " ") ++ String "(" rest.
Proof.
  unfold Sqlb.appendMaybeSpaced. destruct (Sqlb.hasDelimSuffix t); reflexivity.
Qed.

Lemma spaced_param (t rest : string) :
  Sqlb.appendMaybeSpaced t (String "$" rest) =
  t ++ (if Sqlb.hasDelimSuffix t then "" else " ") ++ String "$" rest.
Proof.
  unfold Sqlb.appendMaybeSpaced. destruct (Sqlb.hasDelimSuffix t); reflexivity.
Qed.

Lemma spaced_close (t : string) : Sqlb.appendMaybeSpaced t ")" = t ++ ")".
Proof.
  unfold Sqlb.appendMaybeSpaced. rewrite andb_false_r. reflexivity.
Qed.

Lemma spaced_nested_sql (t : string) (n : nat) :
  Sqlb.appendMaybeSpaced t (nested_sql n) =
  t ++ (if Sqlb.hasDelimSuffix t then "" else " ") ++ nested_sql n.
Proof. destruct n; [apply spaced_param | apply spaced_open]. Qed.

Lemma delim_after_open (u : string) : Sqlb.hasDelimSuffix (u ++ "(") = true.
Proof.
  unfold Sqlb.hasDelimSuffix. change (u ++ "(") with (u ++ one "(").
  rewrite last_byte_snoc. reflexivity.
Qed.

Lemma no_delim_after_not (u : string) : Sqlb.hasDelimSuffix (u ++ "not") = false.
Proof.
  unfold Sqlb.hasDelimSuffix. rewrite last_byte_append by discriminate. reflexivity.
Qed.

Lemma spaced_after_open (u s : string) :
  Sqlb.appendMaybeSpaced (u ++ "(") s = (u ++ "(") ++ s.
Proof. unfold Sqlb.appendMaybeSpaced. rewrite delim_after_open. reflexivity. Qed.

Lemma nested_sql_no_delim (n : nat) : Sqlb.hasDelimPrefix (nested_sql n) = false.
Proof. destruct n; reflexivity. Qed.

(** The text of a prefix operation around an operand [x]. *)
Lemma spaced_prefix_op (t x : string) :
  Sqlb.hasDelimPrefix x = false ->
  Sqlb.appendMaybeSpaced
    (Sqlb.appendMaybeSpaced
       (Sqlb.appendMaybeSpaced (Sqlb.appendMaybeSpaced t "(") "not") x) ")" =
  Sqlb.appendMaybeSpaced t ("(not " ++ x ++ ")").
Proof.
  intros Hx. rewrite spaced_close.
  change ("(not " ++ x ++ ")") with (String "(" ("not " ++ x ++ ")")).
  rewrite !spaced_open.
  set (p := if Sqlb.hasDelimSuffix t then "" else " ").
  rewrite <- (append_assoc t p "("). rewrite spaced_after_open.
  unfold Sqlb.appendMaybeSpaced at 1.
  rewrite no_delim_after_not, Hx. cbn [negb andb].
  JsonFacts.str_assoc.
Qed.

(** [n] nested prefix operations compile, in the [sqlb.Bui] generation,
    whenever the JSON reader accepts them. *)
Lemma bui_decode_nested (self : ExprBui.Expr) (n : nat) :
  forall fuel t,
    n < fuel ->
    (N.of_nat n <= Json.maxNestingDepth)%N ->
    ExprBui.decode fuel self (nested n) (Sqlb.MkBui t []) =
    Ok tt (Sqlb.MkBui (Sqlb.appendMaybeSpaced t (nested_sql n)) [VBool true]).
Proof.
  induction n as [|n IH]; intros fuel t Hf Hn.
  - destruct fuel as [|fuel]; [lia|]. reflexivity.
  - destruct fuel as [|fuel]; [lia|].
    cbn [ExprBui.decode].
    change (Internal.isJsonDict (nested (S n))) with false.
    change (Internal.isJsonList (nested (S n))) with true.
    cbv iota.
    unfold ExprBui.decodeList.
    rewrite NestingFacts.unmarshalList_nested by assumption.
    cbn [length Nat.ltb Nat.leb negb nth tl].
    change (Internal.isJsonString (jstr "not")) with true.
    change (Json.unmarshalString (jstr "not")) with (Some "not").
    cbn [negb]. cbv beta iota.
    change (SqlOps_get "not") with (Some SqlPrefix).
    cbv beta iota.
    unfold ExprBui.decodeOpPrefix.
    cbn [length Nat.eqb negb nth].
    unfold ExprBui.openParen, ExprBui.closeParen, ExprBui.Str, bind, modify, Sqlb.Bui_Str.
    cbn [Sqlb.BuiText Sqlb.BuiArgs].
    rewrite IH by lia.
    cbn [Sqlb.BuiText Sqlb.BuiArgs].
    rewrite spaced_prefix_op by apply nested_sql_no_delim.
    reflexivity.
Qed.

(** Deeper than the limit of the JSON reader, the list is refused as
    malformed. *)
Lemma bui_decode_too_deep (self : ExprBui.Expr) (n fuel : nat) (bui : Sqlb.Bui) :
  (Json.maxNestingDepth < N.of_nat n)%N ->
  ExprBui.decode (S fuel) self (nested n) bui = Panic ErrUnmarshalList bui.
Proof.
  intros Hn. destruct n as [|n]; [unfold Json.maxNestingDepth in Hn; lia|].
  cbn [ExprBui.decode].
  change (Internal.isJsonDict (nested (S n))) with false.
  change (Internal.isJsonList (nested (S n))) with true.
  cbv iota. unfold ExprBui.decodeList.
  rewrite NestingFacts.unmarshalList_too_deep by assumption. reflexivity.
Qed.

Lemma space_after (u w : string) (d : ascii) :
  last_byte w = Some d -> Sqlb.isWhitespaceChar d = false ->
  Sqlb.appendSpaceIfNeeded (u ++ w) = (u ++ w) ++ " ".
Proof.
  intros Hw Hd. unfold Sqlb.appendSpaceIfNeeded, Sqlb.endsWithWhitspace.
  assert (Hne : w <> "") by (intros ->; discriminate).
  rewrite last_byte_append, Hw, Hd by assumption.
  destruct (u ++ w) eqn:E; [|reflexivity].
  apply append_eq_nil in E. tauto.
Qed.

Lemma nested_sql_spaced_last (n : nat) :
  exists d, last_byte (nested_sql_spaced n) = Some d /\ Sqlb.isWhitespaceChar d = false.
Proof.
  destruct n; simpl nested_sql_spaced.
  - exists "1"%char. split; reflexivity.
  - exists ")"%char. split; [|reflexivity].
    change ("( not " ++ nested_sql_spaced n ++ " )")
      with (("( not " ++ nested_sql_spaced n) ++ " )").
    change (String "(" (String " " (String "n" (String "o" (String "t"
              (String " " (nested_sql_spaced n ++ " )")))))))
      with ("( not " ++ nested_sql_spaced n ++ " )").
    rewrite <- append_assoc. rewrite last_byte_append by discriminate. reflexivity.
Qed.

Lemma Query_Append_word (src : string) (t : string) (args : list Value) :
  Sqlb.renumber (String.length src) (length args) src = src ->
  Sqlb.Query_Append src [] (Sqlb.MkQuery t args) =
  Sqlb.MkQuery (Sqlb.appendSpaceIfNeeded t ++ src) args.
Proof.
  intros H. unfold Sqlb.Query_Append. simpl. rewrite H, app_nil_r. reflexivity.
Qed.

(** The text of a prefix operation around an operand [x], with the
    spacing of the older builder. *)
Lemma spaced_prefix_op_query (t x : string) (d : ascii) :
  last_byte x = Some d -> Sqlb.isWhitespaceChar d = false ->
  Sqlb.appendSpaceIfNeeded
    (Sqlb.appendSpaceIfNeeded
       (Sqlb.appendSpaceIfNeeded (Sqlb.appendSpaceIfNeeded t ++ "(") ++ "not") ++ x) ++ ")" =
  Sqlb.appendSpaceIfNeeded t ++ "( not " ++ x ++ " )".
Proof.
  intros Hx Hd.
  rewrite (space_after (Sqlb.appendSpaceIfNeeded t) "(" "(") by reflexivity.
  rewrite (space_after _ "not" "t") by reflexivity.
  rewrite (space_after _ x d) by assumption.
  JsonFacts.str_assoc.
Qed.

(** The same in the [sqlb.Query] generation. *)
Lemma query_decode_nested (ty : option Reflect.Rtype) (b : bool) (n : nat) :
  forall fuel t,
    n < fuel ->
    (N.of_nat n <= Json.maxNestingDepth)%N ->
    ExprQuery.decode fuel (nested n) (ExprQuery.MkExpr (Sqlb.MkQuery t []) ty b) =
    Ok None (ExprQuery.MkExpr
               (Sqlb.MkQuery (Sqlb.appendSpaceIfNeeded t ++ nested_sql_spaced n) [VBool true])
               ty b).
Proof.
  induction n as [|n IH]; intros fuel t Hf Hn.
  - destruct fuel as [|fuel]; [lia|]. reflexivity.
  - destruct fuel as [|fuel]; [lia|].
    cbn [ExprQuery.decode].
    change (Utils.isJsonDict (nested (S n))) with false.
    change (Utils.isJsonList (nested (S n))) with true.
    cbv iota.
    unfold ExprQuery.decodeList.
    rewrite NestingFacts.unmarshalList_nested by assumption.
    cbn [length Nat.ltb Nat.leb negb nth tl].
    change (Utils.isJsonString (jstr "not")) with true.
    change (Json.unmarshalString (jstr "not")) with (Some "not").
    cbn [negb]. cbv beta iota.
    change (SqlOps_get "not") with (Some SqlPrefix).
    cbv beta iota.
    unfold ExprQuery.decodeOpPrefix, Utils.rec.
    cbn [length Nat.eqb negb nth].
    unfold ExprQuery.openParen, ExprQuery.closeParen, ExprQuery.Append, bind, modify,
      ExprQuery.with_query.
    cbn [ExprQuery.Query ExprQuery.Type_ ExprQuery.IsBool].
    rewrite !Query_Append_word by reflexivity.
    rewrite IH by lia.
    cbn [Utils.must ret ExprQuery.Query ExprQuery.Type_ ExprQuery.IsBool].
    unfold ret. rewrite Query_Append_word by reflexivity.
    destruct (nested_sql_spaced_last n) as (d & Hl & Hd).
    rewrite (spaced_prefix_op_query t (nested_sql_spaced n) d Hl Hd).
    reflexivity.
Qed.

Lemma query_decode_too_deep (n fuel : nat) (old : ExprQuery.Expr) :
  (Json.maxNestingDepth < N.of_nat n)%N ->
  ExprQuery.decode (S fuel) (nested n) old = Ok (Some ErrUnmarshalList) old.
Proof.
  intros Hn. destruct n as [|n]; [unfold Json.maxNestingDepth in Hn; lia|].
  cbn [ExprQuery.decode].
  change (Utils.isJsonDict (nested (S n))) with false.
  change (Utils.isJsonList (nested (S n))) with true.
  cbv iota. unfold ExprQuery.decodeList.
  rewrite NestingFacts.unmarshalList_too_deep by assumption. reflexivity.
Qed.

End NestedCompile.

(** C1, as the code has it.  The compiler sets no limit of its own on the
    nesting of its input and has no error for an input that is too deep:
    the depth of its recursion is the nesting of the JSON text, and the
    only bound on that is the one of the JSON reader (10000 open lists or
    objects).  So [n] nested prefix operations around a literal, a text
    that is [n] lists deep, compile for every [n] up to 10000, in both
    generations, and beyond that the text is refused as a malformed
    list. *)
Theorem C1_nesting_bounded_by_json_reader
        (ty : option Reflect.Rtype) (b : bool) (n : nat) :
  ((N.of_nat n <= Json.maxNestingDepth)%N ->
   Json.nesting (TestSchema.nested n) = Some n
   /\ ExprBui.AppendExpr (ExprBui.MkExpr (TestSchema.nested n) ty b) "" [] =
      Returns (TestSchema.nested_sql n, [VBool true])
   /\ ExprQuery.UnmarshalText (ExprQuery.MkExpr (Sqlb.MkQuery "" []) ty b)
                              (TestSchema.nested n) =
      Returns (ExprQuery.MkExpr
                 (Sqlb.MkQuery (TestSchema.nested_sql_spaced n) [VBool true]) ty b,
               None))
  /\ ((Json.maxNestingDepth < N.of_nat n)%N ->
      ExprBui.AppendExpr (ExprBui.MkExpr (TestSchema.nested n) ty b) "" [] =
      Panics ErrUnmarshalList
      /\ ExprQuery.UnmarshalText (ExprQuery.MkExpr (Sqlb.MkQuery "" []) ty b)
                                 (TestSchema.nested n) =
         Returns (ExprQuery.MkExpr (Sqlb.MkQuery "" []) ty b, Some ErrUnmarshalList)).
Proof.
  assert (Hbool : b && (String.length (TestSchema.nested n) =? 0) = false).
  { rewrite NestingFacts.length_nested. simpl. apply andb_false_r. }
  split; intros Hn.
  - split; [apply NestingFacts.nesting_nested, Hn|]. split.
    + unfold ExprBui.AppendExpr, ExprBui.AppendExprWith, ExprBui.enough.
      cbn [ExprBui.IsBool ExprBui.Text]. rewrite Hbool.
      rewrite NestedCompile.bui_decode_nested.
      * reflexivity.
      * rewrite NestingFacts.length_nested. lia.
      * exact Hn.
    + unfold ExprQuery.UnmarshalText, ExprQuery.call, ExprQuery.enough.
      rewrite NestedCompile.query_decode_nested.
      * reflexivity.
      * rewrite NestingFacts.length_nested. lia.
      * exact Hn.
  - split.
    + unfold ExprBui.AppendExpr, ExprBui.AppendExprWith, ExprBui.enough.
      cbn [ExprBui.IsBool ExprBui.Text]. rewrite Hbool.
      rewrite NestedCompile.bui_decode_too_deep by exact Hn. reflexivity.
    + unfold ExprQuery.UnmarshalText, ExprQuery.call, ExprQuery.enough.
      rewrite NestedCompile.query_decode_too_deep by exact Hn. reflexivity.
Qed.

Lemma C1_nesting_bounded_by_json_reader_witness :
  Json.nesting (TestSchema.nested 3) = Some 3
  /\ ExprBui.AppendExpr (ExprBui.MkExpr (TestSchema.nested 3) None false) "" [] =
     Returns ("(not (not (not $1)))", [VBool true])
  /\ ExprQuery.UnmarshalText (ExprQuery.MkExpr (Sqlb.MkQuery "" []) None false)
                             (TestSchema.nested 3) =
     Returns (ExprQuery.MkExpr
                (Sqlb.MkQuery "( not ( not ( not $1 ) ) )" [VBool true]) None false,
              None).
Proof.
  apply (proj1 (C1_nesting_bounded_by_json_reader None false 3)).
  vm_compute. discriminate.
Defined.

(** An input nested 101 lists deep, past the depth of 100 that the spec
    names, compiles in both generations. *)
Lemma C1_deep_input_compiles :
  Json.nesting (TestSchema.nested 101) = Some 101
  /\ ExprBui.AppendExpr (ExprBui.MkExpr (TestSchema.nested 101) None false) "" [] =
     Returns (TestSchema.nested_sql 101, [VBool true])
  /\ ExprQuery.UnmarshalText (ExprQuery.ExprFor None) (TestSchema.nested 101) =
     Returns (ExprQuery.MkExpr
                (Sqlb.MkQuery (TestSchema.nested_sql_spaced 101) [VBool true]) None false,
              None).
Proof. repeat split; vm_compute; reflexivity. Qed.

(* ------------------------------------------------------------------ *)
(** ** The package's own tests, run on the embedding *)

(** [TestTranscode] of [jel_test.go]. *)
Example TestTranscode_bui :
  ExprBui.AppendExpr
    (ExprBui.MkExpr TestSchema.src (Internal.elemTypeOf (Some (Reflect.Ptr TestSchema.External)))
                    false) "" [] =
  Returns ("(($1 or (" ++ dq ++ "external_name" ++ dq ++ " = $2)) and ($3 and (("
             ++ dq ++ "internal" ++ dq ++ ")." ++ dq ++ "internal_time" ++ dq ++ " < $4)))",
           [VBool false; VString "literal string"; VBool true;
            VCustom "time.Time" "9999-01-01T00:00:00Z"]).
Proof. vm_compute. reflexivity. Qed.

(** [TestTranscode] of the older generation. *)
Example TestTranscode_query :
  ExprQuery.UnmarshalJSON (ExprQuery.ExprFor (Some TestSchema.External)) TestSchema.src =
  Returns
    (ExprQuery.MkExpr
       (Sqlb.MkQuery
          ("( ( $1 or (" ++ dq ++ "external_name" ++ dq ++ " = $2 ) ) and ( $3 and (("
             ++ dq ++ "internal" ++ dq ++ ")." ++ dq ++ "internal_time" ++ dq ++ " < $4 ) ) )")
          [VBool false; VString "literal string"; VBool true;
           VCustom "time.Time" "9999-01-01T00:00:00Z"])
       (Some TestSchema.External) false,
     None).
Proof. vm_compute. reflexivity. Qed.

(** [TestOrdsDec] of [ord_test.go]: decoding from strings, and the
    directive with an extra qualifier. *)
Example TestOrdsDec :
  Ords.ParseSlice ["externalName asc"; "internal.internalTime desc"]
                  (Ords.OrdsFor (Some TestSchema.External)) =
  Ok None (Ords.MkOrds [Ords.OrdAsc ["external_name"];
                        Ords.OrdDesc ["internal"; "internal_time"]]
                       (Some TestSchema.External))
  /\ Ords.ParseSlice ["external_name asc nulls last"]
                     (Ords.OrdsFor (Some TestSchema.External)) =
     Ok (Some (ErrOrdSyntax "external_name asc nulls last"))
        (Ords.MkOrds [] (Some TestSchema.External))
  /\ Ords.String_ (Ords.OrdsFrom [Ords.OrdAsc ["external_name"];
                                  Ords.OrdDesc ["internal"; "internal_time"]]) =
     Returns ("order by " ++ dq ++ "external_name" ++ dq ++ " asc, ("
                ++ dq ++ "internal" ++ dq ++ ")." ++ dq ++ "internal_time" ++ dq ++ " desc").
Proof. repeat split; vm_compute; reflexivity. Qed.

(* ================================================================== *)
(** * Further properties *)

(* ------------------------------------------------------------------ *)
(** ** The spacing of the newer builder *)

Module Spacing.
Import Sqlb.

Lemma first_byte_append (x y : string) : x <> "" -> first_byte (x ++ y) = first_byte x.
Proof. destruct x; [congruence | reflexivity]. Qed.

Lemma hasDelimPrefix_nonempty (x : string) : hasDelimPrefix x = false -> x <> "".
Proof. intros H ->. discriminate. Qed.

Lemma hasDelimSuffix_nonempty (x : string) : hasDelimSuffix x = false -> x <> "".
Proof. intros H ->. discriminate. Qed.

Lemma hasDelimPrefix_append (x y : string) :
  x <> "" -> hasDelimPrefix (x ++ y) = hasDelimPrefix x.
Proof. intros H. unfold hasDelimPrefix. rewrite first_byte_append by assumption. reflexivity. Qed.

Lemma hasDelimSuffix_append (x y : string) :
  y <> "" -> hasDelimSuffix (x ++ y) = hasDelimSuffix y.
Proof. intros H. unfold hasDelimSuffix. rewrite last_byte_append by assumption. reflexivity. Qed.

(** What the builder makes of a text and a suffix. *)
Lemma spaced_sep (t x : string) : appendMaybeSpaced t x = t ++ sep t x ++ x.
Proof.
  unfold appendMaybeSpaced, sep.
  destruct (negb (hasDelimSuffix t) && negb (hasDelimPrefix x)); reflexivity.
Qed.

Lemma sep_append_r (x y z : string) : y <> "" -> sep x (y ++ z) = sep x y.
Proof. intros H. unfold sep. rewrite hasDelimPrefix_append by assumption. reflexivity. Qed.

Lemma sep_append_l (x y z : string) : y <> "" -> sep (x ++ y) z = sep y z.
Proof. intros H. unfold sep. rewrite hasDelimSuffix_append by assumption. reflexivity. Qed.

(** Appending two texts in turn is appending them joined by their own
    spacing. *)
Lemma spaced_spaced (t x y : string) :
  x <> "" ->
  appendMaybeSpaced (appendMaybeSpaced t x) y = appendMaybeSpaced t (x ++ sep x y ++ y).
Proof.
  intros Hx. rewrite !spaced_sep.
  rewrite (sep_append_r t x) by assumption.
  replace (t ++ sep t x ++ x) with ((t ++ sep t x) ++ x) by apply append_assoc.
  rewrite (sep_append_l _ x y) by assumption.
  rewrite !append_assoc. reflexivity.
Qed.

Lemma sep_solid (x y : string) : solid x -> solid y -> sep x y = " ".
Proof. intros [_ Hx] [Hy _]. unfold sep. rewrite Hx, Hy. reflexivity. Qed.

Lemma sep_open (y : string) : sep "(" y = "".
Proof. reflexivity. Qed.

Lemma sep_close (x : string) : sep x ")" = "".
Proof. unfold sep. simpl. rewrite andb_false_r. reflexivity. Qed.

Lemma solid_parens (x : string) : solid (parens x).
Proof.
  unfold parens. split; [reflexivity|].
  replace ("(" ++ x ++ ")") with (("(" ++ x) ++ ")") by apply append_assoc.
  rewrite hasDelimSuffix_append by discriminate. reflexivity.
Qed.

End Spacing.

(* ------------------------------------------------------------------ *)
(** ** Numbered fragments *)

Module Numbering.

Lemma numbered_count (f : nat -> string) (m n : nat) :
  m = n -> numbered f m -> numbered f n.
Proof. intros ->. auto. Qed.

Lemma numbered_pre (s : string) (f : nat -> string) (n : nat) :
  numbered f n -> numbered (fun k => s ++ f k) n.
Proof.
  intros H. eapply numbered_ext; [|apply (numbered_cat _ _ _ _ (numbered_const s) H)].
  intros k. cbv beta. rewrite Nat.add_0_r. reflexivity.
Qed.

Lemma numbered_post (f : nat -> string) (s : string) (n : nat) :
  numbered f n -> numbered (fun k => f k ++ s) n.
Proof.
  intros H. apply (numbered_count _ (n + 0)); [lia|].
  apply (numbered_cat f (fun _ => s)); [exact H|constructor].
Qed.

Lemma numbered_parens (f : nat -> string) (n : nat) :
  numbered f n -> numbered (fun k => parens (f k)) n.
Proof. intros H. unfold parens. apply numbered_pre, numbered_post, H. Qed.

Lemma numbered_joined (between : string) (pieces : list Piece) :
  Forall (fun p : Piece => numbered (fst p) (length (snd p))) pieces ->
  numbered (joined between pieces) (length (values pieces)).
Proof.
  induction 1 as [|[f v] rest Hf HF IH].
  - apply (numbered_ext (fun _ => "")); [reflexivity|constructor].
  - cbn [fst snd] in Hf. destruct rest as [|q rest].
    + apply (numbered_ext f); [reflexivity|].
      unfold values. cbn [map concat snd]. rewrite app_nil_r. exact Hf.
    + apply (numbered_ext (fun k => f k ++ between ++ joined between (q :: rest) (k + length v))).
      * intros k. reflexivity.
      * apply (numbered_count _ (length v + length (values (q :: rest)))).
        { unfold values. cbn [map concat snd]. rewrite (length_app v). reflexivity. }
        apply (numbered_cat f (fun j => between ++ joined between (q :: rest) j));
          [exact Hf|apply numbered_pre, IH].
Qed.

End Numbering.

(* ------------------------------------------------------------------ *)
(** ** What the operations of [jel.go] write *)

Module Shapes.
Import Sqlb Spacing Numbering ExprBui.

Lemma writes_ext (m : M Bui unit) (f g : nat -> string) (v : list Value) :
  writes m f v -> (forall k, f k = g k) -> writes m g v.
Proof. intros H E t a. rewrite <- E. apply H. Qed.

Lemma writes_ret : writes (ret tt) (fun _ => "") [].
Proof.
  intros t a. unfold ret. rewrite spaced_sep. unfold sep. simpl.
  rewrite andb_false_r, app_nil_r. simpl. rewrite append_nil_r. reflexivity.
Qed.

Lemma writes_Str (x : string) : writes (Str x) (fun _ => x) [].
Proof. intros t a. unfold Str, modify, Bui_Str. simpl. rewrite app_nil_r. reflexivity. Qed.

(** Two computations in turn write their fragments joined by the
    builder's spacing. *)
Lemma writes_bind (m1 m2 : M Bui unit) (f1 f2 : nat -> string) (v1 v2 : list Value) :
  writes m1 f1 v1 -> (forall k, f1 k <> "") -> writes m2 f2 v2 ->
  writes (m1 ;; m2)
         (fun k => f1 k ++ sep (f1 k) (f2 (k + length v1)) ++ f2 (k + length v1))
         (v1 ++ v2).
Proof.
  intros H1 Hne H2 t a. unfold bind. rewrite H1, H2.
  rewrite length_app, spaced_spaced by apply Hne.
  rewrite app_assoc. reflexivity.
Qed.

Lemma writes_bind_ret (m : M Bui unit) (f : nat -> string) (v : list Value) :
  writes m f v -> writes (ret tt ;; m) f v.
Proof. intros H t a. unfold bind, ret. apply H. Qed.

Lemma refuses_bind_l {A B : Type} (m1 : M Bui A) (k : A -> M Bui B) (e : Error) :
  refuses m1 e -> refuses (bind m1 k) e.
Proof.
  intros H s. destruct (H s) as [s' E]. exists s'. unfold bind. rewrite E. reflexivity.
Qed.

Lemma refuses_panic {A : Type} (e : Error) : refuses (St := Bui) (A := A) (panic e) e.
Proof. intros s. exists s. reflexivity. Qed.

Lemma solid_nonempty (x : string) : solid x -> x <> "".
Proof. intros [H _]. apply hasDelimPrefix_nonempty, H. Qed.

Lemma writes_eq (m : M Bui unit) (f g : nat -> string) (v w : list Value) :
  writes m f v -> (forall k, f k = g k) -> v = w -> writes m g w.
Proof. intros H E <-. eapply writes_ext; eauto. Qed.

Lemma sep_before_open (x : string) : solid x -> sep x "(" = " ".
Proof. intros [_ H]. unfold sep. rewrite H. reflexivity. Qed.

#[local] Hint Resolve solid_nonempty : go.

Lemma append_nonempty (x y : string) : x <> "" -> x ++ y <> "".
Proof. destruct x; [congruence|discriminate]. Qed.

Ltac nonempty :=
  intros; cbv beta;
  first [ discriminate
        | apply solid_nonempty; solve [auto]
        | apply append_nonempty; nonempty ].

(** The pieces of a sequence, one after the other. *)
Ltac chain leaf :=
  first [ eapply writes_bind; [ solve [leaf] | nonempty | chain leaf ]
        | solve [leaf] ].

Ltac leaf_with H :=
  first [ apply writes_Str | apply H ].

Ltac seps :=
  repeat rewrite sep_append_r by nonempty;
  repeat first
    [ rewrite sep_open
    | rewrite sep_close
    | rewrite sep_solid by (solve [auto])
    | rewrite sep_before_open by (solve [auto]) ].

(** A prefix operation writes the operator before its operand, in
    parentheses. *)
Lemma decodeOpPrefix_emits (decode : Decoder) (name x : string) (p : Piece) :
  solid name -> emits (decode x) p ->
  emits (decodeOpPrefix decode name [x])
        (fun k => parens (name ++ " " ++ fst p k), snd p).
Proof.
  intros Hn (Hw & Hs & Hc).
  split; [|split]; cbn [fst snd];
    [|intros k; apply solid_parens|apply numbered_parens, numbered_pre, (numbered_pre " "), Hc].
  unfold decodeOpPrefix, openParen, closeParen. cbn [length Nat.eqb negb nth].
  eapply writes_eq.
  - chain ltac:(leaf_with Hw).
  - intros k. cbn [length Nat.add app]. rewrite ?Nat.add_0_r.
    seps. unfold parens. JsonFacts.str_assoc.
  - cbn [app]. rewrite ?app_nil_r. reflexivity.
Qed.

(** A postfix operation writes the operator after its operand. *)
Lemma decodeOpPostfix_emits (decode : Decoder) (name x : string) (p : Piece) :
  solid name -> emits (decode x) p ->
  emits (decodeOpPostfix decode name [x])
        (fun k => parens (fst p k ++ " " ++ name), snd p).
Proof.
  intros Hn (Hw & Hs & Hc).
  split; [|split]; cbn [fst snd];
    [|intros k; apply solid_parens|apply numbered_parens, numbered_post, Hc].
  unfold decodeOpPostfix, openParen, closeParen. cbn [length Nat.eqb negb nth].
  eapply writes_eq.
  - chain ltac:(leaf_with Hw).
  - intros k. cbn [length Nat.add app]. rewrite ?Nat.add_0_r.
    seps. unfold parens. JsonFacts.str_assoc.
  - cbn [app]. rewrite ?app_nil_r. reflexivity.
Qed.

(** [any] and [some]: the first operand, [=], the operator and the second
    operand in parentheses of its own; the second operand is numbered after
    the arguments of the first. *)
Lemma decodeOpAny_emits (decode : Decoder) (name x y : string) (p q : Piece) :
  solid name -> emits (decode x) p -> emits (decode y) q ->
  emits (decodeOpAny decode name [x; y])
        (fun k => parens (fst p k ++ " = " ++ name ++ " " ++
                          parens (fst q (k + length (snd p)))),
         snd p ++ snd q)%list.
Proof.
  intros Hn (Hp & Sp & Np) (Hq & Sq & Nq).
  split; [|split]; cbn [fst snd]; [|intros k; apply solid_parens|].
  2:{ rewrite length_app. apply numbered_parens.
      apply (numbered_cat (fst p) (fun j => " = " ++ name ++ " " ++ parens (fst q j)));
        [exact Np|].
      apply (numbered_pre " = "), numbered_pre, (numbered_pre " "), numbered_parens, Nq. }
  unfold decodeOpAny, openParen, closeParen. cbn [length Nat.eqb negb nth].
  eapply writes_eq.
  - chain ltac:(first [apply writes_Str | apply Hp | apply Hq]).
  - intros k. cbn [length Nat.add app]. rewrite ?Nat.add_0_r.
    assert (Ha : solid "=") by (split; reflexivity).
    seps. unfold parens. JsonFacts.str_assoc.
  - cbn [app]. rewrite ?app_nil_r. reflexivity.
Qed.

(** [between]: the three operands with [between] and [and] between them,
    each numbered after the arguments of those before it. *)
Lemma decodeOpBetween_emits (decode : Decoder) (name x y z : string) (p q r : Piece) :
  emits (decode x) p -> emits (decode y) q -> emits (decode z) r ->
  emits (decodeOpBetween decode name [x; y; z])
        (fun k => parens (fst p k ++ " between " ++
                          fst q (k + length (snd p)) ++ " and " ++
                          fst r (k + length (snd p) + length (snd q))),
         snd p ++ snd q ++ snd r)%list.
Proof.
  intros (Hp & Sp & Np) (Hq & Sq & Nq) (Hr & Sr & Nr).
  split; [|split]; cbn [fst snd]; [|intros k; apply solid_parens|].
  2:{ rewrite !length_app. apply numbered_parens.
      apply (numbered_cat (fst p)
               (fun j => " between " ++ fst q j ++ " and " ++ fst r (j + length (snd q))));
        [exact Np|].
      apply (numbered_pre " between ").
      apply (numbered_cat (fst q) (fun j => " and " ++ fst r j)); [exact Nq|].
      apply (numbered_pre " and "), Nr. }
  unfold decodeOpBetween, openParen, closeParen. cbn [length Nat.eqb negb nth].
  eapply writes_eq.
  - chain ltac:(first [apply writes_Str | apply Hp | apply Hq | apply Hr]).
  - intros k. cbn [length Nat.add app]. rewrite ?Nat.add_0_r.
    assert (Ha : solid "between") by (split; reflexivity).
    assert (Hb : solid "and") by (split; reflexivity).
    seps. unfold parens. JsonFacts.str_assoc.
  - cbn [app]. rewrite ?app_nil_r. reflexivity.
Qed.

(** The loop of [decodeOpInfix] from its second round on: the operator
    before each operand. *)
Lemma infix_loop_writes (decode : Decoder) (name : string) :
  solid name ->
  forall (args : list string) (pieces : list Piece),
    Forall2 (fun x p => emits (decode x) p) args pieces ->
    args <> [] ->
    forall i,
      writes (for_range (infixArg decode name) (S i) args)
             (fun k => name ++ " " ++ joined (" " ++ name ++ " ") pieces k)
             (values pieces).
Proof.
  intros Hn args pieces HF. induction HF as [|x [f v] args pieces (Hw & Hs & _) HF IH]; [congruence|].
  intros _ i. cbn [fst snd] in Hw, Hs.
  cbn [for_range]. unfold infixArg at 1. cbn [Nat.ltb Nat.leb].
  destruct HF as [|y q args pieces Hq HF].
  - cbn [for_range joined values map concat snd].
    eapply writes_eq.
    + eapply writes_bind;
        [eapply writes_bind; [apply writes_Str|nonempty|apply Hw]
        |nonempty|apply writes_ret].
    + intros k. cbn [length Nat.add app]. rewrite ?Nat.add_0_r.
      rewrite sep_solid by auto.
      unfold sep. cbn [hasDelimPrefix first_byte]. rewrite andb_false_r.
      cbn [append]. rewrite !append_nil_r. JsonFacts.str_assoc.
    + rewrite !app_nil_r. reflexivity.
  - specialize (IH ltac:(discriminate) (S i)).
    eapply writes_eq.
    + eapply writes_bind;
        [eapply writes_bind; [apply writes_Str|nonempty|apply Hw]
        |nonempty|apply IH].
    + intros k. cbn [length Nat.add app]. rewrite ?Nat.add_0_r.
      rewrite sep_solid by auto.
      rewrite sep_append_r by nonempty.
      replace (name ++ " " ++ f k) with ((name ++ " ") ++ f k) by JsonFacts.str_assoc.
      rewrite sep_append_l by nonempty.
      rewrite sep_solid by auto.
      cbn [joined]. destruct q as [g w]. JsonFacts.str_assoc.
    + unfold values. cbn [map concat snd app]. reflexivity.
Qed.

(** An infix operation writes its operands in order with the operator
    between each two, in one pair of parentheses; each operand is numbered
    after the arguments of those before it. *)
Lemma decodeOpInfix_emits (decode : Decoder) (name : string)
      (args : list string) (pieces : list Piece) :
  solid name ->
  2 <= length args ->
  Forall2 (fun x p => emits (decode x) p) args pieces ->
  emits (decodeOpInfix decode name args)
        (fun k => parens (joined (" " ++ name ++ " ") pieces k), values pieces).
Proof.
  intros Hn Hlen HF.
  split; [|split]; cbn [fst snd]; [|intros k; apply solid_parens|].
  2:{ apply numbered_parens, numbered_joined.
      clear Hlen. induction HF as [|x q args pieces (_ & _ & Hq) HF IH]; constructor; assumption. }
  unfold decodeOpInfix. destruct (Nat.leb_spec 2 (length args)); [|lia]. cbn [negb].
  destruct HF as [|x [f v] args pieces (Hw & Hs & _) HF]; [simpl in Hlen; lia|].
  cbn [fst snd] in Hw, Hs.
  assert (Hargs : args <> []) by (destruct args; [simpl in Hlen; lia|discriminate]).
  pose proof (infix_loop_writes decode name Hn args pieces HF Hargs 0) as Hloop.
  cbn [for_range]. unfold infixArg at 1. cbn [Nat.ltb Nat.leb].
  unfold openParen, closeParen.
  eapply writes_eq.
  - eapply writes_bind; [apply writes_Str|nonempty|].
    eapply writes_bind;
      [eapply writes_bind; [apply writes_bind_ret, Hw|nonempty|apply Hloop]
      |nonempty|apply writes_Str].
  - intros k. cbn [length Nat.add app]. rewrite ?Nat.add_0_r.
    rewrite sep_open, sep_close.
    rewrite sep_append_r by nonempty. rewrite sep_solid by auto.
    cbn [joined]. destruct pieces as [|q pieces]; [inversion HF; subst; congruence|].
    unfold parens. JsonFacts.str_assoc.
  - unfold values. cbn [map concat snd app]. rewrite ?app_nil_r. reflexivity.
Qed.

End Shapes.

(* ------------------------------------------------------------------ *)
(** ** The leaves of an expression *)

Module Leaves.
Import Sqlb Spacing Shapes ExprBui.

Lemma last_byte_itoa_aux (fuel n : nat) (acc : string) :
  acc <> "" -> last_byte (itoa_aux fuel n acc) = last_byte acc.
Proof.
  revert n acc. induction fuel as [|fuel IH]; intros n acc Hacc; [reflexivity|].
  cbn [itoa_aux].
  assert (E : last_byte (String (ascii_of_nat (48 + n mod 10)) acc) = last_byte acc)
    by (destruct acc; [congruence|reflexivity]).
  destruct (n / 10 =? 0); [exact E|].
  rewrite IH by discriminate. exact E.
Qed.

(** The last byte of a rendered ordinal is its last decimal digit. *)
Lemma last_byte_itoa (n : nat) :
  last_byte (itoa n) = Some (ascii_of_nat (48 + n mod 10)).
Proof.
  unfold itoa. cbn [itoa_aux].
  destruct (n / 10 =? 0); [reflexivity|].
  rewrite last_byte_itoa_aux by discriminate. reflexivity.
Qed.

Lemma solid_param (n : nat) : solid ("$" ++ itoa n).
Proof.
  split; [reflexivity|].
  assert (Hne : itoa n <> "").
  { intros E. pose proof (last_byte_itoa n) as H. rewrite E in H. discriminate. }
  rewrite hasDelimSuffix_append by exact Hne.
  unfold hasDelimSuffix. rewrite last_byte_itoa.
  pose proof (Nat.mod_upper_bound n 10 ltac:(lia)) as Hd.
  destruct (n mod 10) as [|[|[|[|[|[|[|[|[|[|d]]]]]]]]]]; try reflexivity. lia.
Qed.

Lemma writes_param (val : Value) :
  writes (ordinal <- Arg val ;; Param ordinal) (fun k => "$" ++ itoa (S k)) [val].
Proof. intros t a. reflexivity. Qed.

(** A literal is held as an argument and written as its parameter. *)
Lemma decodeAny_emits (input : string) (val : Value) :
  Json.unmarshalAny input = Some val ->
  emits (decodeAny input) (fun k => "$" ++ itoa (S k), [val]).
Proof.
  intros E. split; [|split]; cbn [fst snd]; [|intros k; apply solid_param|constructor].
  unfold decodeAny. rewrite E. apply writes_param.
Qed.

Lemma decodeAny_refuses (input : string) :
  Json.unmarshalAny input = None -> refuses (decodeAny input) ErrJson.
Proof. intros E. unfold decodeAny. rewrite E. apply refuses_panic. Qed.

End Leaves.

(* ------------------------------------------------------------------ *)
(** ** Resolving a path against the schema *)

Module Resolve.
Import Reflect Refut Utils.

(** Induction on a type, with the types of the fields of a struct at
    hand. *)
Lemma Rtype_fields_ind (P : Rtype -> Prop) :
  (forall n fields d, Forall (fun f : StructField => P (Type_ f)) fields ->
                      P (Struct n fields d)) ->
  (forall e, P e -> P (Ptr e)) ->
  (forall e, P e -> P (Slice e)) ->
  (forall n d, P (Basic n d)) ->
  forall t, P t.
Proof.
  intros HS HP HL HB. fix IH 1. intros [n fields d|e|e|n d].
  - apply HS. induction fields as [|f fs IHfs]; constructor; [apply IH|exact IHfs].
  - apply HP, IH.
  - apply HL, IH.
  - apply HB.
Qed.

(** The traversal breaks only at a field the callback accepts, and never
    at an embedded struct, whose fields it visits instead. *)
Lemma traverse_found (found : StructField -> bool) (t : Rtype) :
  forall f, traverse found t = Some f ->
            found f = true /\ Anonymous f && derefs_to_struct (Type_ f) = false.
Proof.
  induction t as [n fields d IH|e IH|e IH|n d] using Rtype_fields_ind;
    intros f; cbn [traverse]; try discriminate; [|apply IH].
  induction IH as [|g fs Hg _ IHfs]; [discriminate|].
  destruct (Anonymous g && derefs_to_struct (Type_ g)) eqn:Eg.
  - destruct (traverse found (Type_ g)) as [r|] eqn:Er.
    + intros [= <-]. apply Hg. reflexivity.
    + apply IHfs.
  - destruct (found g) eqn:Ef.
    + intros [= <-]. split; assumption.
    + apply IHfs.
Qed.

Lemma sfieldByJsonName_name (rtype : option Rtype) (name : string) (f : StructField) :
  sfieldByJsonName rtype name = inr f -> sfieldJsonFieldName f = name.
Proof.
  unfold sfieldByJsonName, TraverseStructRtype. destruct rtype as [t|]; [|discriminate].
  destruct (derefs_to_struct t); [|discriminate].
  destruct (traverse _ t) as [r|] eqn:Er; [|discriminate].
  intros [= <-]. apply traverse_found in Er as [Hn _]. apply String.eqb_eq, Hn.
Qed.

(** X14. A field found by its JSON name has that name in its [json] tag and is
    not an embedded struct, whose fields are searched instead; the type
    searched is a struct or points to one. *)
Lemma sfieldByJsonName_found (rtype : option Rtype) (name : string) (f : StructField) :
  sfieldByJsonName rtype name = inr f ->
  sfieldJsonFieldName f = name
  /\ Anonymous f && derefs_to_struct (Type_ f) = false
  /\ exists t, rtype = Some t /\ derefs_to_struct t = true.
Proof.
  unfold sfieldByJsonName, TraverseStructRtype. destruct rtype as [t|]; [|discriminate].
  destruct (derefs_to_struct t) eqn:Et; [|discriminate].
  destruct (traverse _ t) as [r|] eqn:Er; [|discriminate].
  intros [= <-]. apply traverse_found in Er as [Hn Ha].
  apply String.eqb_eq in Hn. eauto.
Qed.

Lemma last_any_default {A : Type} (l : list A) (d d' : A) :
  l <> [] -> List.last l d = List.last l d'.
Proof.
  induction l as [|a l IH]; [congruence|]. intros _.
  destruct l; [reflexivity|]. apply IH. discriminate.
Qed.

Lemma walkPath_resolves (pathStr : string) (segments : list string) :
  forall rtype sfield last cols,
    walkPath pathStr rtype sfield segments = inr (last, cols) ->
    exists fields,
      map sfieldJsonFieldName fields = segments
      /\ cols = map sfieldColumnName fields
      /\ Forall (fun col => col <> "") cols
      /\ last = List.last (map Some fields) sfield.
Proof.
  induction segments as [|segment rest IH]; intros rtype sfield last cols; cbn [walkPath].
  - intros [= <- <-]. exists []. repeat split. constructor.
  - destruct (sfieldByJsonName rtype segment) as [e|found] eqn:Ef; [discriminate|].
    apply sfieldByJsonName_name in Ef as Hn.
    cbv zeta. destruct (sfieldColumnName found =? "")%string eqn:Ec; [discriminate|].
    apply String.eqb_neq in Ec.
    destruct (walkPath pathStr (Some (Type_ found)) (Some found) rest)
      as [e|[last' cols']] eqn:Ew; [discriminate|].
    intros [= <- <-]. apply IH in Ew as (fields & Hj & -> & Hc & ->).
    exists (found :: fields). cbn [map]. rewrite Hn, Hj. repeat split.
    + constructor; assumption.
    + destruct fields as [|g fields]; [reflexivity|].
      change (List.last (map Some (g :: fields)) (Some found) =
              List.last (map Some (g :: fields)) sfield).
      apply last_any_default. discriminate.
Qed.

Lemma split_dots_nonempty (s : string) : split_dots s <> [].
Proof.
  induction s as [|c s IH]; cbn [split_dots]; [discriminate|].
  destruct (Ascii.eqb c "."); [discriminate|]. destruct (split_dots s); [congruence|discriminate].
Qed.

End Resolve.

(* ------------------------------------------------------------------ *)
(** ** The paths that [dottedPathReg] accepts *)

Module DottedPath.
Import Regexp RegexpFacts Utils.

Lemma word_char_not_dot (c : ascii) : word_char c = true -> Ascii.eqb c "." = false.
Proof.
  destruct (Ascii.eqb c ".") eqn:E; [|reflexivity].
  apply Ascii.eqb_eq in E. subst c. discriminate.
Qed.

Lemma all_bytes_app (p : ascii -> bool) (s t : string) :
  all_bytes p (s ++ t) = all_bytes p s && all_bytes p t.
Proof.
  induction s as [|c s IH]; simpl; [reflexivity|]. rewrite IH, andb_assoc. reflexivity.
Qed.

Lemma lang_star_class (p : ascii -> bool) (s : string) :
  lang (Star (Class p)) s <-> all_bytes p s = true.
Proof.
  split.
  - intros H. remember (Star (Class p)) as r eqn:Er.
    induction H as [ | | | | | a | a x t Hx _ Ht IHt]; try discriminate Er.
    + reflexivity.
    + injection Er as ->. inversion Hx; subst.
      simpl. rewrite H0. apply IHt. reflexivity.
  - revert s. induction s as [|c s IH]; simpl; intros H.
    + constructor.
    + apply andb_true_iff in H as [Hc Hs].
      change (String c s) with (one c ++ s).
      constructor; [constructor; assumption|auto].
Qed.

(** [\w+] matches the non-empty texts of word characters. *)
Lemma lang_word (s : string) : lang (Plus (Class word_char)) s <-> is_word s = true.
Proof.
  unfold Plus, is_word. split.
  - intros H. inversion H as [ | | a b s1 s2 H1 H2 | | | | ]; subst.
    inversion H1; subst. apply lang_star_class in H2.
    simpl. rewrite H3, H2. reflexivity.
  - destruct s as [|c s]; [discriminate|]. simpl. intros H.
    apply andb_true_iff in H as [Hc Hs].
    change (String c s) with (one c ++ s).
    constructor; [constructor; assumption|apply lang_star_class, Hs].
Qed.

Lemma split_dots_word (w : string) :
  all_bytes word_char w = true -> split_dots w = [w].
Proof.
  induction w as [|c w IH]; simpl; [reflexivity|].
  intros H. apply andb_true_iff in H as [Hc Hw].
  rewrite (word_char_not_dot c Hc), (IH Hw). reflexivity.
Qed.

Lemma split_dots_word_dot (w rest : string) :
  all_bytes word_char w = true ->
  split_dots (w ++ String "." rest) = w :: split_dots rest.
Proof.
  induction w as [|c w IH]; simpl; [reflexivity|].
  intros H. apply andb_true_iff in H as [Hc Hw].
  rewrite (word_char_not_dot c Hc), (IH Hw). reflexivity.
Qed.

Lemma is_word_all (w : string) : is_word w = true -> all_bytes word_char w = true.
Proof. unfold is_word. intros H. apply andb_true_iff in H. tauto. Qed.

Lemma lang_segments (s : string) :
  lang (Star (Seq (Plus (Class word_char)) (Byte "."))) s ->
  forall t, forallb is_word (split_dots t) = true ->
            forallb is_word (split_dots (s ++ t)) = true.
Proof.
  intros H. remember (Star (Seq (Plus (Class word_char)) (Byte "."))) as r eqn:Er.
  induction H as [ | | | | | a | a x u Hx _ Hu IHu]; try discriminate Er.
  - auto.
  - injection Er as ->. intros t Ht.
    inversion Hx as [ | | a b w d Hw Hd | | | | ]; subst.
    inversion Hd as [ | p c Hc | | | | | ]; subst.
    apply Ascii.eqb_eq in Hc. subst c.
    apply lang_word in Hw.
    replace (((w ++ one ".") ++ u) ++ t) with (w ++ String "." (u ++ t))
      by (rewrite !append_assoc; reflexivity).
    rewrite split_dots_word_dot by (apply is_word_all, Hw).
    cbn [forallb]. rewrite Hw. apply IHu; auto.
Qed.

Lemma join_split_dots (s : string) : join_dots (split_dots s) = s.
Proof.
  induction s as [|c s IH]; cbn [split_dots]; [reflexivity|].
  destruct (Ascii.eqb c ".") eqn:Ec.
  - apply Ascii.eqb_eq in Ec. subst c.
    pose proof (Resolve.split_dots_nonempty s) as Hne.
    destruct (split_dots s) as [|h t]; [congruence|].
    change (join_dots ("" :: h :: t)) with ("" ++ "." ++ join_dots (h :: t)).
    rewrite IH. reflexivity.
  - pose proof (Resolve.split_dots_nonempty s) as Hne.
    destruct (split_dots s) as [|h t]; [congruence|].
    destruct t as [|h' t].
    + cbn [join_dots] in *. rewrite IH. reflexivity.
    + change (join_dots (String c h :: h' :: t))
        with (String c (h ++ "." ++ join_dots (h' :: t))).
      change (join_dots (h :: h' :: t)) with (h ++ "." ++ join_dots (h' :: t)) in IH.
      rewrite IH. reflexivity.
Qed.

Lemma lang_join_words (segments : list string) :
  segments <> [] -> forallb is_word segments = true ->
  lang dottedPath (join_dots segments).
Proof.
  intros Hne Hall. unfold dottedPath.
  enough (H : forall segs w, forallb is_word segs = true -> is_word w = true ->
                             exists s, lang (Star (Seq (Plus (Class word_char)) (Byte "."))) s
                                       /\ join_dots (segs ++ [w])%list = s ++ w).
  { destruct (exists_last Hne) as (segs & w & ->).
    rewrite forallb_app in Hall. apply andb_true_iff in Hall as [Hs Hw].
    cbn [forallb] in Hw. rewrite andb_true_r in Hw.
    destruct (H segs w Hs Hw) as (s & Hl & ->).
    constructor; [exact Hl|apply lang_word, Hw]. }
  clear. induction segs as [|a segs IH]; intros w Hs Hw.
  - exists "". split; [constructor|reflexivity].
  - cbn [forallb] in Hs. apply andb_true_iff in Hs as [Ha Hs].
    destruct (IH w Hs Hw) as (s & Hl & E).
    exists ((a ++ one ".") ++ s). split.
    + constructor; [|exact Hl].
      constructor; [apply lang_word, Ha|].
      constructor. apply Ascii.eqb_refl.
    + change ((a :: segs) ++ [w])%list with (a :: (segs ++ [w]))%list.
      destruct (segs ++ [w])%list as [|h t] eqn:El; [destruct segs; discriminate El|].
      change (join_dots (a :: h :: t)) with (a ++ "." ++ join_dots (h :: t)).
      rewrite E. rewrite !append_assoc. reflexivity.
Qed.

(** X15. A path passes the check exactly when it is made of non-empty words of
    letters, digits and underscores with one dot between each two. *)
Lemma dottedPath_words (s : string) :
  dottedPathReg_MatchString s = forallb is_word (split_dots s).
Proof.
  unfold dottedPathReg_MatchString.
  destruct (forallb is_word (split_dots s)) eqn:E.
  - apply matches_lang. rewrite <- (join_split_dots s) at 1.
    apply lang_join_words; [apply Resolve.split_dots_nonempty|exact E].
  - destruct (matches dottedPath s) eqn:Em; [|reflexivity].
    apply matches_lang in Em. unfold dottedPath in Em.
    inversion Em as [ | | a b u t Hu Ht | | | | ]; subst.
    apply lang_word in Ht.
    rewrite (lang_segments u Hu t) in E; [discriminate|].
    rewrite split_dots_word by (apply is_word_all, Ht).
    cbn [forallb]. rewrite Ht. reflexivity.
Qed.

End DottedPath.

(* ------------------------------------------------------------------ *)
(** ** What a resolved path is *)

Module Resolved.
Import Reflect Utils.

Lemma resolved_nonempty (rtype : option Rtype) (pathStr : string)
      (last : option StructField) (cols : list string) :
  structFieldByJsonPath rtype pathStr = inr (last, cols) ->
  cols <> [] /\ exists f, last = Some f.
Proof.
  unfold structFieldByJsonPath.
  destruct (negb (dottedPathReg_MatchString pathStr)); [discriminate|].
  destruct rtype as [t|]; [|discriminate].
  intros H. apply Resolve.walkPath_resolves in H as (fields & Hj & -> & _ & ->).
  assert (Hne : fields <> []).
  { intros ->. symmetry in Hj. apply (Resolve.split_dots_nonempty pathStr Hj). }
  split.
  - destruct fields; [congruence|discriminate].
  - destruct (exists_last Hne) as (fs & f & ->). exists f.
    rewrite map_app. cbn [map]. apply last_last.
Qed.

(** X13. The column names of a path that resolves are the [db] names of fields
    whose [json] names are the segments of the path, one for each segment
    in order, none of them empty; the field returned is the one of the
    last segment. *)
Lemma structFieldByJsonPath_resolves (rtype : option Rtype) (pathStr : string)
      (last : option StructField) (cols : list string) :
  structFieldByJsonPath rtype pathStr = inr (last, cols) ->
  exists fields,
    fields <> []
    /\ map sfieldJsonFieldName fields = split_dots pathStr
    /\ cols = map sfieldColumnName fields
    /\ Forall (fun col => col <> "") cols
    /\ last = List.last (map Some fields) None.
Proof.
  unfold structFieldByJsonPath.
  destruct (negb (dottedPathReg_MatchString pathStr)); [discriminate|].
  destruct rtype as [t|]; [|discriminate].
  intros H. apply Resolve.walkPath_resolves in H as (fields & Hj & Hc & Hne & Hl).
  exists fields. repeat split; try assumption.
  intros ->. symmetry in Hj. apply (Resolve.split_dots_nonempty pathStr Hj).
Qed.

End Resolved.

(* ------------------------------------------------------------------ *)
(** ** The fragment of a path *)

Module PathFragment.
Import Sqlb Spacing.

Lemma quote_no_delim_suffix (x : string) : hasDelimSuffix (x ++ one quote) = false.
Proof. unfold hasDelimSuffix. rewrite last_byte_snoc. reflexivity. Qed.

Lemma render_tail_suffix (path : list string) :
  path <> [] -> hasDelimSuffix (render_tail path) = false.
Proof.
  induction path as [|a path IH]; [congruence|]. intros _. cbn [render_tail].
  destruct path as [|b path].
  - cbn [render_tail]. unfold quoted.
    replace ("." ++ (one quote ++ a ++ one quote) ++ "")
      with (("." ++ one quote ++ a) ++ one quote)
      by (rewrite append_nil_r; JsonFacts.str_assoc).
    apply quote_no_delim_suffix.
  - replace ("." ++ quoted a ++ render_tail (b :: path))
      with (("." ++ quoted a) ++ render_tail (b :: path)) by JsonFacts.str_assoc.
    rewrite hasDelimSuffix_append.
    + apply IH. discriminate.
    + cbn [render_tail]. discriminate.
Qed.

(** The text of a path begins and ends with a byte that the builder sets
    off with a space. *)
Lemma solid_render_path (path : list string) : path <> [] -> solid (render_path path).
Proof.
  destruct path as [|a [|b path]]; [congruence| |]; intros _.
  - split; [reflexivity|]. cbn [render_path]. unfold quoted.
    replace (one quote ++ a ++ one quote) with ((one quote ++ a) ++ one quote)
      by JsonFacts.str_assoc.
    apply quote_no_delim_suffix.
  - split; [reflexivity|]. cbn [render_path render_many].
    replace ("(" ++ quoted a ++ ")" ++ render_tail (b :: path))
      with (("(" ++ quoted a ++ ")") ++ render_tail (b :: path)) by JsonFacts.str_assoc.
    rewrite hasDelimSuffix_append.
    + apply render_tail_suffix. discriminate.
    + cbn [render_tail]. discriminate.
Qed.

End PathFragment.

(* ------------------------------------------------------------------ *)
(** ** Compilation does not look at the builder *)

Module Uniform.
Import Sqlb Spacing Shapes Leaves ExprBui.

Lemma writes_passes (m : M Bui unit) (f : nat -> string) (v : list Value) :
  writes m f v -> passes m.
Proof. intros H [t a]. rewrite H. eauto. Qed.

Lemma passes_Str (x : string) : passes (Str x).
Proof. intros s. unfold Str, modify. eauto. Qed.

Lemma passes_ret : passes (St := Bui) (ret tt).
Proof. intros s. unfold ret. eauto. Qed.

Lemma passes_bind (m1 m2 : M Bui unit) : passes m1 -> passes m2 -> passes (m1 ;; m2).
Proof.
  intros H1 H2 s. destruct (H1 s) as [s1 E1]. destruct (H2 s1) as [s2 E2].
  exists s2. unfold bind. rewrite E1. exact E2.
Qed.

Lemma refuses_after (m1 m2 : M Bui unit) (e : Error) :
  passes m1 -> refuses m2 e -> refuses (m1 ;; m2) e.
Proof.
  intros H1 H2 s. destruct (H1 s) as [s1 E1]. destruct (H2 s1) as [s2 E2].
  exists s2. unfold bind. rewrite E1. exact E2.
Qed.

Ltac pass :=
  first [ apply passes_Str | apply passes_ret
        | apply passes_bind; pass
        | eapply writes_passes; eassumption ].

(** A sequence is refused where its first refused step is. *)
Ltac refusal :=
  first [ eassumption
        | apply refuses_panic
        | apply refuses_bind_l; eassumption
        | apply refuses_after; [pass | refusal] ].

Lemma decodeString_emits (self : Expr) (input str : string)
      (sfield : option Reflect.StructField) (path : list string) :
  Json.unmarshalString input = Some str ->
  Internal.fieldByJsonPath (Type_ self) str = inr (sfield, path) ->
  first_quoted path = None ->
  emits (decodeString self input) (fun _ => render_path path, []).
Proof.
  intros Es Ep Eq.
  assert (Hne : path <> []) by (eapply Resolved.resolved_nonempty; exact Ep).
  split; [|split]; cbn [fst snd];
    [|intros _; apply PathFragment.solid_render_path, Hne|constructor].
  intros t a. unfold decodeString. rewrite Es, Ep.
  unfold bind, get, Bui_Get, Path_AppendExpr. cbn [BuiText BuiArgs].
  rewrite Eq. destruct path; [congruence|].
  unfold modify, Bui_Set. rewrite app_nil_r. reflexivity.
Qed.

Lemma decodeString_uniform (self : Expr) (input : string) : uniform (decodeString self input).
Proof.
  destruct (Json.unmarshalString input) as [str|] eqn:Es.
  - destruct (Internal.fieldByJsonPath (Type_ self) str) as [e|[sfield path]] eqn:Ep.
    + left. exists e. unfold decodeString. rewrite Es, Ep. apply refuses_panic.
    + destruct (first_quoted path) as [s|] eqn:Eq.
      * left. exists (ErrQuoteInIdent s). intros [t a].
        unfold decodeString. rewrite Es, Ep.
        unfold bind, get, Bui_Get, Path_AppendExpr. cbn [BuiText BuiArgs].
        rewrite Eq. eexists. reflexivity.
      * right. eexists. eapply decodeString_emits; eassumption.
  - left. exists ErrJson. unfold decodeString. rewrite Es. apply refuses_panic.
Qed.

Lemma decodeAny_uniform (input : string) : uniform (decodeAny input).
Proof.
  destruct (Json.unmarshalAny input) as [val|] eqn:E.
  - right. eexists. apply decodeAny_emits, E.
  - left. eexists. apply decodeAny_refuses, E.
Qed.

(** A cast writes the parameter of its one argument, decoded into the
    type of the field. *)
Lemma decodeCast_emits (self : Expr) (name arg : string)
      (sfield : option Reflect.StructField) (path : list string) (val : Value) :
  Internal.fieldByJsonPath (Type_ self) name = inr (sfield, path) ->
  unmarshalField sfield arg = inr val ->
  emits (decodeCast self name [arg]) (fun k => "$" ++ itoa (S k), [val]).
Proof.
  intros Ep Ev. split; [|split]; cbn [fst snd]; [|intros k; apply solid_param|constructor].
  unfold decodeCast. cbn [length Nat.eqb negb nth]. rewrite Ep, Ev.
  apply writes_param.
Qed.

Lemma decodeCast_uniform (self : Expr) (name : string) (args : list string) :
  uniform (decodeCast self name args).
Proof.
  destruct args as [|arg [|arg' args]];
    try (left; eexists; unfold decodeCast; cbn [length Nat.eqb negb]; apply refuses_panic).
  destruct (Internal.fieldByJsonPath (Type_ self) name) as [e|[sfield path]] eqn:Ep.
  - left. exists e. unfold decodeCast. cbn [length Nat.eqb negb]. rewrite Ep.
    apply refuses_panic.
  - destruct (unmarshalField sfield arg) as [e|val] eqn:Ev.
    + left. exists e. unfold decodeCast. cbn [length Nat.eqb negb nth]. rewrite Ep, Ev.
      apply refuses_panic.
    + right. eexists. eapply decodeCast_emits; eassumption.
Qed.

Section Operations.
Variables (decode : Decoder) (name : string).
Hypothesis Hname : solid name.

Lemma decodeOpPrefix_uniform (args : list string) :
  (forall arg, In arg args -> uniform (decode arg)) ->
  uniform (decodeOpPrefix decode name args).
Proof.
  intros Hargs.
  destruct args as [|x [|y args]];
    try (left; eexists; unfold decodeOpPrefix; cbn [length Nat.eqb negb]; apply refuses_panic).
  destruct (Hargs x (or_introl eq_refl)) as [[e He]|[p Hp]].
  - left. exists e. unfold decodeOpPrefix, openParen, closeParen.
    cbn [length Nat.eqb negb nth]. refusal.
  - right. eexists. apply decodeOpPrefix_emits; eassumption.
Qed.

Lemma decodeOpPostfix_uniform (args : list string) :
  (forall arg, In arg args -> uniform (decode arg)) ->
  uniform (decodeOpPostfix decode name args).
Proof.
  intros Hargs.
  destruct args as [|x [|y args]];
    try (left; eexists; unfold decodeOpPostfix; cbn [length Nat.eqb negb]; apply refuses_panic).
  destruct (Hargs x (or_introl eq_refl)) as [[e He]|[p Hp]].
  - left. exists e. unfold decodeOpPostfix, openParen, closeParen.
    cbn [length Nat.eqb negb nth]. refusal.
  - right. eexists. apply decodeOpPostfix_emits; eassumption.
Qed.

Lemma decodeOpAny_uniform (args : list string) :
  (forall arg, In arg args -> uniform (decode arg)) ->
  uniform (decodeOpAny decode name args).
Proof.
  intros Hargs.
  destruct args as [|x [|y [|z args]]];
    try (left; eexists; unfold decodeOpAny; cbn [length Nat.eqb negb]; apply refuses_panic).
  destruct (Hargs x ltac:(simpl; auto)) as [[e He]|[p Ep]]; [|pose proof (proj1 Ep) as Hp].
  { left. exists e. unfold decodeOpAny, openParen, closeParen.
    cbn [length Nat.eqb negb nth]. refusal. }
  destruct (Hargs y ltac:(simpl; auto)) as [[e He]|[q Eq]]; [|pose proof (proj1 Eq) as Hq].
  { left. exists e. unfold decodeOpAny, openParen, closeParen.
    cbn [length Nat.eqb negb nth]. refusal. }
  right. eexists. apply decodeOpAny_emits; eassumption.
Qed.

Lemma decodeOpBetween_uniform (args : list string) :
  (forall arg, In arg args -> uniform (decode arg)) ->
  uniform (decodeOpBetween decode name args).
Proof.
  intros Hargs.
  destruct args as [|x [|y [|z [|w args]]]];
    try (left; eexists; unfold decodeOpBetween; cbn [length Nat.eqb negb]; apply refuses_panic).
  destruct (Hargs x ltac:(simpl; auto)) as [[e He]|[p Ep]]; [|pose proof (proj1 Ep) as Hp].
  { left. exists e. unfold decodeOpBetween, openParen, closeParen.
    cbn [length Nat.eqb negb nth]. refusal. }
  destruct (Hargs y ltac:(simpl; auto)) as [[e He]|[q Eq]]; [|pose proof (proj1 Eq) as Hq].
  { left. exists e. unfold decodeOpBetween, openParen, closeParen.
    cbn [length Nat.eqb negb nth]. refusal. }
  destruct (Hargs z ltac:(simpl; auto)) as [[e He]|[r Er]]; [|pose proof (proj1 Er) as Hr].
  { left. exists e. unfold decodeOpBetween, openParen, closeParen.
    cbn [length Nat.eqb negb nth]. refusal. }
  right. eexists. apply decodeOpBetween_emits; eassumption.
Qed.

(** The operands up to the first that is refused, if any, write their
    pieces. *)
Lemma operands_split (args : list string) :
  (forall arg, In arg args -> uniform (decode arg)) ->
  (exists pieces, Forall2 (fun x p => emits (decode x) p) args pieces)
  \/ (exists pre x post pieces e,
         args = (pre ++ x :: post)%list
         /\ Forall2 (fun x p => emits (decode x) p) pre pieces
         /\ refuses (decode x) e).
Proof.
  induction args as [|x args IH]; intros Hargs.
  - left. exists []. constructor.
  - destruct (Hargs x (or_introl eq_refl)) as [[e He]|[p Hp]].
    + right. exists [], x, args, [], e. repeat split; [constructor|exact He].
    + destruct (IH (fun arg Hin => Hargs arg (or_intror Hin)))
        as [[pieces HF]|(pre & y & post & pieces & e & -> & HF & He)].
      * left. exists (p :: pieces). constructor; assumption.
      * right. exists (x :: pre), y, post, (p :: pieces), e.
        repeat split; [constructor; assumption|exact He].
Qed.

(** The loop of [decodeOpInfix] is refused with the error of the first
    operand that is. *)
Lemma infix_loop_refuses (pre : list string) (x : string) (post : list string)
      (pieces : list Piece) (e : Error) :
  Forall2 (fun x p => emits (decode x) p) pre pieces ->
  refuses (decode x) e ->
  forall i, refuses (for_range (infixArg decode name) i (pre ++ x :: post)) e.
Proof.
  intros HF He. induction HF as [|y p pre pieces [Hy _] HF IH]; intros i.
  - cbn [app for_range]. apply refuses_bind_l. unfold infixArg.
    destruct (0 <? i); refusal.
  - cbn [app for_range]. apply refuses_after; [|apply IH].
    unfold infixArg. destruct (0 <? i); pass.
Qed.

Lemma decodeOpInfix_uniform (args : list string) :
  (forall arg, In arg args -> uniform (decode arg)) ->
  uniform (decodeOpInfix decode name args).
Proof.
  intros Hargs. destruct (Nat.leb_spec 2 (length args)) as [Hlen|Hlen].
  - destruct (operands_split args Hargs)
      as [[pieces HF]|(pre & y & post & pieces & e & -> & HF & He)].
    + right. eexists. apply decodeOpInfix_emits; eassumption.
    + left. exists e. unfold decodeOpInfix.
      destruct (Nat.leb_spec 2 (length (pre ++ y :: post))); [|lia]. cbn [negb].
      unfold openParen. apply refuses_after; [pass|].
      apply refuses_bind_l. eapply infix_loop_refuses; eassumption.
  - left. eexists. unfold decodeOpInfix.
    destruct (Nat.leb_spec 2 (length args)); [lia|]. apply refuses_panic.
Qed.

End Operations.

(** Every operator of the list is set off with spaces by the builder, and
    none has the syntax of a function call. *)
Lemma SqlOps_names (name : string) (syntax : SqlOpSyntax) :
  SqlOps_get name = Some syntax -> solid name /\ syntax <> SqlFunc.
Proof.
  unfold SqlOps_get, SqlOps. cbn [assoc_get].
  repeat match goal with
         | |- context [String.eqb ?k name] =>
           destruct (String.eqb_spec k name) as [<-|_];
             [intros [= <-]; split; [split; reflexivity|discriminate]|]
         end.
  discriminate.
Qed.

Lemma decodeList_uniform (self : Expr) (decode : Decoder) (input : string) :
  (forall arg, String.length arg < String.length input -> uniform (decode arg)) ->
  uniform (decodeList self decode input).
Proof.
  intros Hd. unfold decodeList.
  destruct (Json.unmarshalList input) as [list|] eqn:El;
    [|left; eexists; apply refuses_panic].
  apply JsonFacts.unmarshalList_shorter in El. rewrite Forall_forall in El.
  assert (Hargs : forall arg, In arg (tl list) -> uniform (decode arg)).
  { intros arg Hin. apply Hd, El, ExprQueryFacts.tl_incl, Hin. }
  destruct (negb (0 <? length list)); [left; eexists; apply refuses_panic|].
  destruct (negb (Internal.isJsonString (nth 0 list ""))); [left; eexists; apply refuses_panic|].
  destruct (Json.unmarshalString (nth 0 list "")) as [name|];
    [|left; eexists; apply refuses_panic].
  destruct (SqlOps_get name) as [syntax|] eqn:Eo; [|apply decodeCast_uniform].
  apply SqlOps_names in Eo as [Hn Hf].
  destruct syntax; try congruence.
  - apply decodeOpPrefix_uniform; assumption.
  - apply decodeOpPostfix_uniform; assumption.
  - apply decodeOpInfix_uniform; assumption.
  - apply decodeOpAny_uniform; assumption.
  - apply decodeOpBetween_uniform; assumption.
Qed.

(** Whether an expression compiles, and to what, does not depend on the
    text and the arguments the builder holds: it is refused with one error
    whatever they are, or writes one fragment, which depends on the
    arguments held only through their number, joined to the text by the
    builder, and appends one list of arguments. *)
Lemma decode_uniform (self : Expr) (fuel : nat) :
  forall input, String.length input < fuel -> uniform (decode fuel self input).
Proof.
  induction fuel as [|fuel IH]; intros input Hlen; [lia|].
  cbn [decode]. destruct (Internal.isJsonDict input); [left; eexists; apply refuses_panic|].
  destruct (Internal.isJsonList input).
  - apply decodeList_uniform. intros arg Harg. apply IH. lia.
  - destruct (Internal.isJsonString input);
      [apply decodeString_uniform | apply decodeAny_uniform].
Qed.

End Uniform.

(* ------------------------------------------------------------------ *)
(** ** [Expr.AppendExpr], [AppendTo] and [String] *)

Module Appending.
Import Sqlb Spacing ExprBui.

(** X2. What [AppendExpr] does is fixed by the expression: it panics with one
    error whatever it is appended to, or it appends one fragment, joined
    to the text by the builder, and one list of arguments to those given;
    the fragment has one parameter for each of these arguments, numbered in
    their order after the arguments given. *)
Lemma AppendExpr_uniform (self : Expr) :
  (exists e, forall text args, AppendExpr self text args = Panics e)
  \/ (exists frag vals,
         (forall k, solid (frag k))
         /\ numbered frag (length vals)
         /\ forall text args,
             AppendExpr self text args =
             Returns (appendMaybeSpaced text (frag (length args)), (args ++ vals)%list)).
Proof.
  unfold AppendExpr, AppendExprWith.
  destruct (IsBool self && (String.length (Text self) =? 0)).
  - right. exists (fun _ => "true"), []. split; [intros _; split; reflexivity|].
    split; [constructor|]. intros text args.
    unfold Str, modify, Bui_Str, Bui_Get. cbn [BuiText BuiArgs].
    rewrite app_nil_r. reflexivity.
  - destruct (Uniform.decode_uniform self (enough (Text self)) (Text self))
      as [[e He]|[[frag vals] (Hw & Hs & Hn)]]; [unfold enough; lia| |].
    + left. exists e. intros text args. cbv zeta.
      destruct (He (MkBui text args)) as [s' ->]. reflexivity.
    + right. exists frag, vals. cbn [fst snd] in *.
      split; [exact Hs|]. split; [exact Hn|].
      intros text args. cbv zeta. rewrite Hw. reflexivity.
Qed.

(** X10. [AppendTo] appends what [String] gives, joined by the builder, and
    panics as [String] does. *)
Lemma AppendTo_String (self : Expr) (text : string) :
  AppendTo self text =
  match String_ self with
  | Returns s => Returns (appendMaybeSpaced text s)
  | Panics e => Panics e
  | Exhausted => Exhausted
  end.
Proof.
  unfold String_, AppendTo, AppendExpr, AppendExprWith.
  destruct (IsBool self && (String.length (Text self) =? 0)); [reflexivity|].
  destruct (Uniform.decode_uniform self (enough (Text self)) (Text self))
    as [[e He]|[[frag vals] (Hw & _)]]; [unfold enough; lia| |]; cbv zeta.
  - destruct (He (MkBui text [])) as [s1 ->]. destruct (He (MkBui "" [])) as [s2 ->].
    reflexivity.
  - rewrite !Hw. reflexivity.
Qed.

Lemma spanWs_blank (s : string) :
  all_bytes Json.is_ws s = true -> Json.spanWs s = (s, "").
Proof.
  induction s as [|c s IH]; simpl; [reflexivity|].
  intros H. apply andb_true_iff in H as [Hc Hs]. rewrite Hc, (IH Hs). reflexivity.
Qed.

Lemma is_ws_space (c : ascii) : Json.is_ws c = true -> Utils.ascii_space c = true.
Proof.
  unfold Json.is_ws, Utils.ascii_space.
  destruct (byte_val c) as [|[|[|[|[|[|[|[|[|[|[|[|[|[|n]]]]]]]]]]]]]]; try discriminate; auto.
Qed.

Lemma trimLeftSpace_blank (s : string) :
  all_bytes Json.is_ws s = true -> Utils.trimLeftSpace s = "".
Proof.
  induction s as [|c s IH]; simpl; [reflexivity|].
  intros H. apply andb_true_iff in H as [Hc Hs].
  rewrite (is_ws_space c Hc). auto.
Qed.

(** X11. A text of nothing but JSON white space is refused as JSON; only the
    empty text of a boolean expression falls back on [true]. *)
Lemma AppendExpr_blank (self : Expr) (text : string) (args : list Value) :
  all_bytes Json.is_ws (Text self) = true ->
  IsBool self = false \/ Text self <> "" ->
  AppendExpr self text args = Panics ErrJson.
Proof.
  intros Hb Hc. unfold AppendExpr, AppendExprWith.
  assert (E : IsBool self && (String.length (Text self) =? 0) = false).
  { destruct Hc as [->|Hne]; [reflexivity|].
    destruct (Text self); [congruence|]. apply andb_false_r. }
  rewrite E. unfold enough. cbn [decode].
  unfold Internal.isJsonDict, Internal.isJsonList, Internal.isJsonString,
    Internal.firstMeaningfulByte.
  rewrite (trimLeftSpace_blank _ Hb). cbn [Ascii.eqb].
  change (Ascii.eqb zero "{") with false. change (Ascii.eqb zero "[") with false.
  change (Ascii.eqb zero quote) with false. cbv iota.
  unfold decodeAny, Json.unmarshalAny, Json.parseDoc.
  rewrite (spanWs_blank _ Hb). reflexivity.
Qed.

Lemma AppendExpr_blank_witness :
  AppendExpr (MkExpr "  " None true) "select" [] = Panics ErrJson.
Proof. apply AppendExpr_blank; [reflexivity|right; discriminate]. Defined.

End Appending.

(* ------------------------------------------------------------------ *)
(** ** Orderings *)

Module Orderings.
Import Utils Ords.

Lemma appendItems_rest (items : list Ord) (buf : string) :
  Forall (fun ord => first_quoted (Path ord) = None) items ->
  appendItems false items buf =
  Ok tt (buf ++ String.concat "" (map (fun ord => ", " ++ ord_text ord) items)).
Proof.
  intros H. revert buf. induction H as [|[path desc] items Hq _ IH]; intros buf.
  - cbn [appendItems map String.concat]. rewrite append_nil_r. reflexivity.
  - cbn [appendItems]. unfold bind at 1. unfold appendStr at 1, modify.
    unfold bind at 1. rewrite Ord_AppendBytes_ok by exact Hq. rewrite IH.
    f_equal. unfold ord_text. cbn [map Path IsDesc].
    destruct items as [|o items]; cbn [String.concat map];
      rewrite ?append_nil_r; destruct desc; JsonFacts.str_assoc.
Qed.

Lemma join_commas_cons (t : string) (rest : list string) :
  join_commas (t :: rest) = t ++ String.concat "" (map (fun x => ", " ++ x) rest).
Proof.
  revert t. induction rest as [|u rest IH]; intros t.
  - cbn. rewrite append_nil_r. reflexivity.
  - change (join_commas (t :: u :: rest)) with (t ++ ", " ++ join_commas (u :: rest)).
    rewrite IH. cbn [map]. destruct rest as [|w rest].
    + cbn. rewrite !append_nil_r. reflexivity.
    + cbn [String.concat map]. rewrite ?append_nil_r. JsonFacts.str_assoc.
Qed.

(** X16. No orderings write nothing.  Orderings whose identifiers hold no
    double quote are written after [order by], which a space sets off from
    a buffer that needs one, with a comma and a space between each two, in
    the order of [Items]; [String] gives the same with no space before
    it. *)
Lemma Ords_AppendBytes_renders (self : Ords) (buf : string) :
  Forall (fun ord => first_quoted (Path ord) = None) (Items self) ->
  let clause := "order by " ++ join_commas (map ord_text (Items self)) in
  AppendBytes self buf =
  Ok tt (match Items self with [] => buf | _ :: _ => with_space buf ++ clause end)
  /\ String_ self =
     Returns (match Items self with [] => "" | _ :: _ => clause end).
Proof.
  intros H clause.
  assert (E : forall b, AppendBytes self b =
                        Ok tt (match Items self with
                               | [] => b
                               | _ :: _ => with_space b ++ clause
                               end)).
  { subst clause. unfold AppendBytes.
    destruct (Items self) as [|[path desc] items]; intros b; [reflexivity|].
    inversion H as [|o l Hq Hrest]; subst. cbn [appendItems].
    unfold bind at 1. unfold bind at 1. unfold appendSpaceIfNeeded at 1, modify at 1.
    unfold appendStr at 1, modify at 1.
    unfold bind at 1. rewrite Ord_AppendBytes_ok by exact Hq.
    rewrite appendItems_rest by exact Hrest.
    f_equal. fold (with_space b). cbn [map]. rewrite join_commas_cons, map_map.
    unfold ord_text at 2. cbn [Path IsDesc].
    destruct desc; JsonFacts.str_assoc. }
  split; [apply E|].
  unfold String_, appendedBy. rewrite E. destruct (Items self); reflexivity.
Qed.

Lemma Ords_AppendBytes_renders_witness :
  AppendBytes (OrdsFrom [OrdAsc ["one"]; OrdDesc ["two"; "three"]]) "select 1" =
  Ok tt ("select 1 order by " ++ dq ++ "one" ++ dq ++ " asc, ("
           ++ dq ++ "two" ++ dq ++ ")." ++ dq ++ "three" ++ dq ++ " desc")
  /\ String_ (OrdsFrom [OrdAsc ["one"]; OrdDesc ["two"; "three"]]) =
     Returns ("order by " ++ dq ++ "one" ++ dq ++ " asc, ("
                ++ dq ++ "two" ++ dq ++ ")." ++ dq ++ "three" ++ dq ++ " desc").
Proof.
  apply (Ords_AppendBytes_renders (OrdsFrom [OrdAsc ["one"]; OrdDesc ["two"; "three"]])).
  repeat constructor.
Defined.

(** X17. [ParseSlice] returns [nil] exactly when every directive parses; the
    orderings are then those of the directives in their order, whatever
    [Items] held before, and [Type] is kept. *)
Lemma ParseSlice_ok (vals : list string) (self self' : Ords) :
  ParseSlice vals self = Ok None self' <->
  exists ords,
    Forall2 (fun val ord => parseOrd (MkOrds [] (Type_ self)) val = inr ord) vals ords
    /\ self' = MkOrds ords (Type_ self).
Proof.
  unfold ParseSlice, bind, modify.
  assert (Hty : forall items val, parseOrd (MkOrds items (Type_ self)) val =
                                  parseOrd (MkOrds [] (Type_ self)) val) by reflexivity.
  assert (G : forall vals items,
             parseEach vals (MkOrds items (Type_ self)) = Ok None self' <->
             exists ords,
               Forall2 (fun val ord => parseOrd (MkOrds [] (Type_ self)) val = inr ord) vals ords
               /\ self' = MkOrds (items ++ ords) (Type_ self)).
  { clear vals. induction vals as [|val vals IH]; intros items.
    - cbn [parseEach]. unfold ret. split.
      + intros [= <-]. exists []. rewrite app_nil_r. split; [constructor|reflexivity].
      + intros (ords & HF & ->). inversion HF. rewrite app_nil_r. reflexivity.
    - cbn [parseEach]. unfold bind at 1. unfold get. rewrite Hty.
      destruct (parseOrd (MkOrds [] (Type_ self)) val) as [e|ord] eqn:Ep.
      + unfold ret. split; [discriminate|].
        intros (ords & HF & _). inversion HF; subst. congruence.
      + unfold bind, modify. cbn [Items Type_]. rewrite IH. split.
        * intros (ords & HF & ->). exists (ord :: ords).
          split; [constructor; assumption|]. rewrite <- app_assoc. reflexivity.
        * intros (ords & HF & ->). inversion HF as [|v o vs os Hv Hvs]; subst.
          exists os. split; [assumption|]. rewrite <- app_assoc.
          replace o with ord by congruence. reflexivity. }
  exact (G vals []).
Qed.

End Orderings.

(* ------------------------------------------------------------------ *)
(** ** The direction of an ordering *)

Module Direction.
Import Regexp Utils Ords.

Ltac spell :=
  repeat match goal with
         | H : lang (Seq _ _) _ |- _ => inversion H; subst; clear H
         | H : lang (Alt _ _) _ |- _ => inversion H; subst; clear H
         | H : lang (FoldLetter _ _) _ |- _ => unfold FoldLetter in H
         | H : lang FoldS _ |- _ => unfold FoldS in H
         | H : lang (Byte _) _ |- _ => unfold Byte in H
         | H : lang (Class _) _ |- _ => inversion H; subst; clear H
         | H : Ascii.eqb _ _ = true |- _ => apply Ascii.eqb_eq in H; subst
         end.

Lemma ascending_fold (d : string) :
  lang ascending d -> EqualFold d "asc" = true /\ EqualFold d "desc" = false.
Proof. unfold ascending. intros H. spell; split; reflexivity. Qed.

Lemma descending_fold (d : string) :
  lang descending d -> EqualFold d "desc" = true /\ EqualFold d "asc" = false.
Proof. unfold descending. intros H. spell; split; reflexivity. Qed.

(** X18. A directive that parses is an identifier, white space and a
    direction; the identifier resolves to the path of the ordering, and
    the ordering is descending exactly when the direction spells [desc],
    in any case, ascending when it spells [asc]. *)
Lemma parseOrd_direction (self : Ords) (str : string) (ord : Ord) :
  parseOrd self str = inr ord ->
  exists ident spaces direction sfield,
    str = ident ++ spaces ++ direction
    /\ lang ordSpaces spaces
    /\ structFieldByJsonPath (Type_ self) ident = inr (sfield, Path ord)
    /\ lang (if IsDesc ord then descending else ascending) direction.
Proof.
  unfold parseOrd, ordReg_FindStringSubmatch.
  destruct (find_groups dottedPath ordSpaces ordDirection str) as [[ident direction]|] eqn:Ef;
    [|discriminate].
  apply RegexpFacts.find_groups_some in Ef as (spaces & -> & _ & Hs & Hd).
  destruct (structFieldByJsonPath (Type_ self) ident) as [e|[sfield path]] eqn:Ep;
    [discriminate|].
  intros [= <-]. exists ident, spaces, direction, sfield. cbn [Path IsDesc].
  apply RegexpFacts.matches_lang in Hs, Hd.
  repeat split; try assumption.
  change ordDirection with (Alt ascending descending) in Hd.
  inversion Hd as [ | | | a b s Ha | a b s Hb | | ]; subst.
  - destruct (ascending_fold direction Ha) as [_ ->]. exact Ha.
  - destruct (descending_fold direction Hb) as [-> _]. exact Hb.
Qed.

Lemma parseOrd_direction_witness :
  exists ident spaces direction sfield,
    "internal.internalTime  DESC" = ident ++ spaces ++ direction
    /\ lang ordSpaces spaces
    /\ structFieldByJsonPath (Some TestSchema.External) ident =
       inr (sfield, ["internal"; "internal_time"])
    /\ lang descending direction.
Proof.
  apply (parseOrd_direction (OrdsFor (Some TestSchema.External))
                            "internal.internalTime  DESC"
                            (MkOrd ["internal"; "internal_time"] true)).
  vm_compute. reflexivity.
Defined.

End Direction.

(* ------------------------------------------------------------------ *)
(** ** The older generation only adds to the expression *)

Module Growth.
Import Reflect Utils ExprQuery.

Lemma extends_refl (s : Expr) : extends s s.
Proof.
  repeat split; [exists ""; symmetry; apply append_nil_r | exists []; symmetry; apply app_nil_r].
Qed.

Lemma extends_trans (s1 s2 s3 : Expr) : extends s1 s2 -> extends s2 s3 -> extends s1 s3.
Proof.
  intros (T1 & B1 & [t1 X1] & [v1 A1]) (T2 & B2 & [t2 X2] & [v2 A2]).
  repeat split; try congruence.
  - exists (t1 ++ t2). rewrite X2, X1. apply append_assoc.
  - exists (v1 ++ v2)%list. rewrite A2, A1. symmetry. apply app_assoc.
Qed.

Lemma grows_ret {A : Type} (a : A) : grows (ret a).
Proof. intros s. apply extends_refl. Qed.

Lemma grows_get : grows get.
Proof. intros s. apply extends_refl. Qed.

Lemma grows_panic {A : Type} (e : Error) : grows (A := A) (panic e).
Proof. intros s. apply extends_refl. Qed.

Lemma grows_must (err : error) : grows (must err).
Proof. destruct err; [apply grows_panic|apply grows_ret]. Qed.

Lemma grows_bind {A B : Type} (m : M Expr A) (k : A -> M Expr B) :
  grows m -> (forall a, grows (k a)) -> grows (bind m k).
Proof.
  intros Hm Hk s. unfold bind. specialize (Hm s).
  destruct (m s) as [a s1|e s1|]; auto.
  specialize (Hk a s1). destruct (k a s1); auto; eapply extends_trans; eassumption.
Qed.

Lemma grows_rec (m : M Expr error) : grows m -> grows (rec m).
Proof. intros Hm s. unfold rec. specialize (Hm s). destruct (m s); auto. Qed.

Lemma grows_for_range {A : Type} (body : nat -> A -> M Expr unit) (xs : list A) :
  (forall i x, grows (body i x)) -> forall i, grows (for_range body i xs).
Proof.
  intros Hb. induction xs as [|x xs IH]; intros i; cbn [for_range].
  - apply grows_ret.
  - apply grows_bind; [apply Hb|intros _; apply IH].
Qed.

Lemma grows_Append (src : string) (args : list Value) : grows (Append src args).
Proof.
  intros s. unfold Append, modify, with_query, Sqlb.Query_Append, extends.
  cbn [Query Type_ IsBool Sqlb.Text Sqlb.Args]. repeat split; [|eauto].
  unfold Sqlb.appendSpaceIfNeeded.
  destruct ((0 <? String.length _) && negb _); eexists; [|reflexivity].
  rewrite append_assoc. reflexivity.
Qed.

Lemma grows_onText {A : Type} (m : M string A) : appends m -> grows (onText m).
Proof.
  intros Hm s. unfold onText, zoom. specialize (Hm (Sqlb.Text (Query s))).
  destruct (m (Sqlb.Text (Query s))) as [a t|e t|]; auto;
    destruct Hm as [u ->]; unfold with_text, with_query, extends;
    cbn [Query Type_ IsBool Sqlb.Text Sqlb.Args];
    (repeat split; [eauto|exists []; symmetry; apply app_nil_r]).
Qed.

Lemma appends_appendStr (str : string) : appends (appendStr str).
Proof. intros buf. unfold appendStr, modify. eauto. Qed.

Lemma appends_appendSqlPath (path : list string) : appends (appendSqlPath path).
Proof.
  intros buf. destruct (first_quoted path) as [s|] eqn:Eq.
  - apply PathFacts.first_quoted_split in Eq as (pre & post & -> & Hpre & Hs).
    rewrite PathFacts.appendSqlPath_panic by assumption. eauto.
  - rewrite PathFacts.appendSqlPath_ok by assumption. eauto.
Qed.

Create HintDb grow.

#[local] Hint Resolve grows_ret grows_get grows_panic grows_must grows_Append
  appends_appendStr appends_appendSqlPath : grow.

Ltac grow_step :=
  match goal with
  | |- grows (rec _) => apply grows_rec
  | |- grows (onText _) => apply grows_onText
  | |- grows (bind _ _) => apply grows_bind; [|intros]
  | |- grows (for_range _ _ _) => apply grows_for_range; intros
  | |- grows (if ?b then _ else _) => destruct b
  | |- grows (match ?x with _ => _ end) => destruct x
  | |- _ => solve [auto with grow]
  end.

Ltac grow := repeat grow_step.

Section Ops.
Variables (decode : Decoder) (name : string) (args : list string).
Hypothesis Hgrows : forall arg, grows (decode arg).

#[local] Hint Resolve Hgrows : grow.

Lemma decodeOpPrefix_grows : grows (decodeOpPrefix decode name args).
Proof. unfold decodeOpPrefix, openParen, closeParen. grow. Qed.

Lemma decodeOpPostfix_grows : grows (decodeOpPostfix decode name args).
Proof. unfold decodeOpPostfix, openParen, closeParen. grow. Qed.

Lemma decodeOpInfix_grows : grows (decodeOpInfix decode name args).
Proof. unfold decodeOpInfix, infixArg, openParen, closeParen. grow. Qed.

Lemma decodeOpFunc_grows : grows (decodeOpFunc decode name args).
Proof. unfold decodeOpFunc, funcArg, openParen, closeParen. grow. Qed.

Lemma decodeOpAny_grows : grows (decodeOpAny decode name args).
Proof. unfold decodeOpAny, openParen, closeParen. grow. Qed.

Lemma decodeOpBetween_grows : grows (decodeOpBetween decode name args).
Proof. unfold decodeOpBetween, openParen, closeParen. grow. Qed.

End Ops.

Lemma decodeCast_grows (name : string) (args : list string) : grows (decodeCast name args).
Proof. unfold decodeCast. grow. Qed.

Lemma decodeString_grows (input : string) : grows (decodeString input).
Proof. unfold decodeString. grow. Qed.

Lemma decodeAny_grows (input : string) : grows (decodeAny input).
Proof. unfold decodeAny. grow. Qed.

Lemma decodeList_grows (decode : Decoder) (input : string) :
  (forall arg, grows (decode arg)) -> grows (decodeList decode input).
Proof.
  intros Hd. unfold decodeList.
  destruct (Json.unmarshalList input) as [list|]; [|grow].
  destruct (negb (0 <? length list)); [grow|].
  destruct (negb (isJsonString (nth 0 list ""))); [grow|].
  destruct (Json.unmarshalString (nth 0 list "")) as [name|]; [|grow].
  destruct (SqlOps_get name) as [[]|].
  - apply decodeOpPrefix_grows, Hd.
  - apply decodeOpPostfix_grows, Hd.
  - apply decodeOpInfix_grows, Hd.
  - apply decodeOpFunc_grows, Hd.
  - apply decodeOpAny_grows, Hd.
  - apply decodeOpBetween_grows, Hd.
  - apply decodeCast_grows.
Qed.

Lemma decode_grows (fuel : nat) : forall input, grows (decode fuel input).
Proof.
  induction fuel as [|fuel IH]; intros input; [intros s; exact I|].
  cbn [decode]. destruct (isJsonDict input); [grow|].
  destruct (isJsonList input); [apply decodeList_grows, IH|].
  destruct (isJsonString input); [apply decodeString_grows|apply decodeAny_grows].
Qed.

(** X9. Decoding into an expression of the older generation only adds to it:
    whatever the input, and whether an error comes back or not, the
    receiver keeps its type and its flag, and its text and arguments begin
    with what they were before the call. *)
Lemma UnmarshalText_extends (self : Expr) (input : string) :
  exists self' err,
    UnmarshalText self input = Returns (self', err) /\ extends self self'.
Proof.
  unfold UnmarshalText, call.
  pose proof (decode_grows (enough input) input self) as Hg.
  pose proof (ExprQueryFacts.query_decode_safe (enough input) input
                ltac:(unfold enough; lia) self) as Hs.
  pose proof (ExprQueryFacts.query_decode_calm (enough input) input self) as Hc.
  destruct (decode (enough input) input self) as [err self'|e s'|].
  - eauto.
  - exfalso. eapply Hc. reflexivity.
  - congruence.
Qed.

End Growth.

(* ------------------------------------------------------------------ *)
(** ** Leading white space, type carriers, spacing of buffers *)

Module Edges.
Import Reflect Sqlb ExprBui.

Lemma spanWs_leading (w s : string) :
  all_bytes Json.is_ws w = true ->
  Json.spanWs (w ++ s) = (w ++ fst (Json.spanWs s), snd (Json.spanWs s)).
Proof.
  induction w as [|c w IH]; simpl; intros H.
  - destruct (Json.spanWs s); reflexivity.
  - apply andb_true_iff in H as [Hc Hw]. rewrite Hc, (IH Hw). reflexivity.
Qed.

Lemma parseDoc_leading (w s : string) :
  all_bytes Json.is_ws w = true -> Json.parseDoc (w ++ s) = Json.parseDoc s.
Proof.
  intros H. unfold Json.parseDoc. rewrite (spanWs_leading w s H).
  destruct (Json.spanWs s) as [w' s']. reflexivity.
Qed.

Lemma trimLeftSpace_leading (w s : string) :
  all_bytes Json.is_ws w = true -> Utils.trimLeftSpace (w ++ s) = Utils.trimLeftSpace s.
Proof.
  induction w as [|c w IH]; simpl; intros H; [reflexivity|].
  apply andb_true_iff in H as [Hc Hw].
  rewrite (Appending.is_ws_space c Hc). auto.
Qed.

(** X12. JSON white space before the input makes no difference to what it
    compiles to, with the same budget.  (The error for an object quotes
    the input, white space and all.) *)
Lemma decode_leading_space (self : Expr) (fuel : nat) (w input : string) :
  all_bytes Json.is_ws w = true ->
  Internal.isJsonDict input = false ->
  decode fuel self (w ++ input) = decode fuel self input.
Proof.
  intros Hw Hd. destruct fuel as [|fuel]; [reflexivity|]. cbn [decode].
  unfold Internal.isJsonDict, Internal.isJsonList, Internal.isJsonString,
    Internal.firstMeaningfulByte in *.
  rewrite (trimLeftSpace_leading w input Hw), Hd.
  unfold decodeList, decodeString, decodeAny,
    Json.unmarshalList, Json.unmarshalString, Json.unmarshalAny.
  rewrite (parseDoc_leading w input Hw). reflexivity.
Qed.

Lemma decode_leading_space_witness :
  decode 9 (ExprFor None) ("  " ++ "[" ++ TestSchema.jstr "not" ++ ",true]")
  = decode 9 (ExprFor None) ("[" ++ TestSchema.jstr "not" ++ ",true]").
Proof.
  apply (decode_leading_space (ExprFor None) 9 "  "
                              ("[" ++ TestSchema.jstr "not" ++ ",true]"));
    reflexivity.
Defined.

Lemma typeElem_some_settled (t : Rtype) :
  Internal.typeElem_some (Internal.typeElem_some t) = Internal.typeElem_some t
  /\ match Internal.typeElem_some t with
     | Ptr _ | Slice _ => False
     | _ => True
     end.
Proof.
  induction t as [n fields d _|e IH|e IH|n d] using Resolve.Rtype_fields_ind;
    cbn [Internal.typeElem_some]; auto.
Qed.

(** X19. The type of an expression made by [ExprFor] or [Bool] is never a
    pointer or a slice: a value, a pointer to it and a slice of it carry
    the same type, and the type of such an expression carries itself. *)
Lemma elemTypeOf_settled (rtype : option Rtype) :
  Internal.elemTypeOf (Internal.elemTypeOf rtype) = Internal.elemTypeOf rtype
  /\ Internal.elemTypeOf (option_map Ptr rtype) = Internal.elemTypeOf rtype
  /\ Internal.elemTypeOf (option_map Slice rtype) = Internal.elemTypeOf rtype
  /\ match Type_ (ExprFor rtype), Type_ (Bool rtype) with
     | Some (Ptr _), _ | Some (Slice _), _ | _, Some (Ptr _) | _, Some (Slice _) => False
     | _, _ => True
     end.
Proof.
  unfold ExprFor, Bool, Internal.elemTypeOf, Internal.typeElem. cbn [Type_].
  destruct rtype as [t|]; cbn [option_map]; [|auto].
  destruct (typeElem_some_settled t) as [E H]. rewrite E. repeat split.
  destruct (Internal.typeElem_some t); auto.
Qed.

(** X20. [appendSpaceIfNeeded] leaves a buffer that is empty or ends with white
    space, and a second call adds nothing. *)
Lemma appendSpaceIfNeeded_settled (buf : string) :
  Utils.appendSpaceIfNeeded buf = Ok tt (with_space buf)
  /\ (with_space buf = "" \/ Utils.endsWithWhitspace (with_space buf) = true)
  /\ (Utils.appendSpaceIfNeeded ;; Utils.appendSpaceIfNeeded) buf =
     Utils.appendSpaceIfNeeded buf.
Proof.
  assert (H : with_space buf = "" \/ Utils.endsWithWhitspace (with_space buf) = true).
  { unfold with_space. destruct buf as [|c buf]; [left; reflexivity|right].
    cbn [String.length Nat.ltb Nat.leb andb].
    destruct (Utils.endsWithWhitspace (String c buf)) eqn:E; cbn [negb]; [exact E|].
    unfold Utils.endsWithWhitspace. change " " with (one " ").
    rewrite last_byte_snoc. reflexivity. }
  split; [reflexivity|]. split; [exact H|].
  unfold bind, Utils.appendSpaceIfNeeded, modify. fold (with_space buf).
  f_equal. fold (with_space (with_space buf)).
  destruct H as [E|E].
  - rewrite E. reflexivity.
  - unfold with_space at 1. rewrite E. cbn [negb]. rewrite andb_false_r. reflexivity.
Qed.

End Edges.

(* ------------------------------------------------------------------ *)
(** ** The first operand that is refused *)

Module FirstRefusal.
Import Sqlb Shapes Uniform ExprBui.

(** X8. An infix operation is refused with the error of its first operand
    that is refused, whatever the builder holds and whatever the operands
    after it are. *)
Lemma decodeOpInfix_refuses (decode : Decoder) (name : string)
      (pre : list string) (x : string) (post : list string)
      (pieces : list Piece) (e : Error) :
  2 <= length (pre ++ x :: post)%list ->
  Forall2 (fun x p => emits (decode x) p) pre pieces ->
  refuses (decode x) e ->
  refuses (decodeOpInfix decode name (pre ++ x :: post)%list) e.
Proof.
  intros Hlen HF He. unfold decodeOpInfix.
  destruct (Nat.leb_spec 2 (length (pre ++ x :: post)%list)); [|lia]. cbn [negb].
  unfold openParen. apply refuses_after; [apply passes_Str|].
  apply refuses_bind_l. eapply infix_loop_refuses; eassumption.
Qed.

End FirstRefusal.

(* ------------------------------------------------------------------ *)
(** ** What a list compiles to *)

Module Lists.
Import Reflect Sqlb Shapes Uniform ExprBui.

Lemma plain_true : emits (plain "true") (param_of (VBool true)).
Proof. exact (Leaves.decodeAny_emits "true" (VBool true) eq_refl). Qed.

Lemma plain_false : emits (plain "false") (param_of (VBool false)).
Proof. exact (Leaves.decodeAny_emits "false" (VBool false) eq_refl). Qed.

Lemma plain_number : emits (plain "10") (param_of (VNumber "10")).
Proof. exact (Leaves.decodeAny_emits "10" (VNumber "10") eq_refl). Qed.

Lemma plain_dict : refuses (plain "{}") (ErrUnexpectedDict "{}").
Proof. intros s. exists s. reflexivity. Qed.

Section Dispatch.
Variables (self : Expr) (decode : Decoder) (input head name : string) (args : list string).
Hypothesis Hlist : Json.unmarshalList input = Some (head :: args).
Hypothesis Hhead : Internal.isJsonString head = true.
Hypothesis Hname : Json.unmarshalString head = Some name.

Lemma decodeList_dispatch :
  decodeList self decode input =
  match SqlOps_get name with
  | Some SqlPrefix => decodeOpPrefix decode name args
  | Some SqlPostfix => decodeOpPostfix decode name args
  | Some SqlInfix => decodeOpInfix decode name args
  | Some SqlFunc => decodeOpFunc decode name args
  | Some SqlAny => decodeOpAny decode name args
  | Some SqlBetween => decodeOpBetween decode name args
  | None => decodeCast self name args
  end.
Proof.
  unfold decodeList. rewrite Hlist. cbn [length Nat.ltb Nat.leb negb nth tl].
  rewrite Hhead, Hname. reflexivity.
Qed.

(** X4. A list whose head is a prefix operator, with one operand, compiles
    to the operator and the fragment of the operand, a space between them,
    in parentheses, and to the arguments of the operand. *)
Lemma prefix_list_emits (x : string) (p : Piece) :
  SqlOps_get name = Some SqlPrefix ->
  args = [x] ->
  emits (decode x) p ->
  emits (decodeList self decode input) (fun k => parens (name ++ " " ++ fst p k), snd p).
Proof.
  intros Hop Ha Hp. rewrite decodeList_dispatch, Hop, Ha.
  apply SqlOps_names in Hop as [Hsolid _].
  apply decodeOpPrefix_emits; assumption.
Qed.

(** X5. A list whose head is a postfix operator, with one operand, compiles
    to the fragment of the operand and the operator, a space between them,
    in parentheses. *)
Lemma postfix_list_emits (x : string) (p : Piece) :
  SqlOps_get name = Some SqlPostfix ->
  args = [x] ->
  emits (decode x) p ->
  emits (decodeList self decode input) (fun k => parens (fst p k ++ " " ++ name), snd p).
Proof.
  intros Hop Ha Hp. rewrite decodeList_dispatch, Hop, Ha.
  apply SqlOps_names in Hop as [Hsolid _].
  apply decodeOpPostfix_emits; assumption.
Qed.

(** X3. A list whose head is an infix operator, with two operands or more,
    compiles to the fragments of the operands in their order, the operator
    between each two with a space on either side, in one pair of
    parentheses; each operand is numbered after the arguments of those
    before it, and the arguments are those of the operands in order. *)
Lemma infix_list_emits (pieces : list Piece) :
  SqlOps_get name = Some SqlInfix ->
  2 <= length args ->
  Forall2 (fun x p => emits (decode x) p) args pieces ->
  emits (decodeList self decode input)
        (fun k => parens (joined (" " ++ name ++ " ") pieces k), values pieces).
Proof.
  intros Hop Hlen HF. rewrite decodeList_dispatch, Hop.
  apply SqlOps_names in Hop as [Hsolid _].
  apply decodeOpInfix_emits; assumption.
Qed.

(** X6. A list whose head is [any], with two operands, compiles to the first
    operand, [=], the operator and the second operand in parentheses of
    its own, all in parentheses; the second operand is numbered after the
    arguments of the first. *)
Lemma any_list_emits (x y : string) (p q : Piece) :
  SqlOps_get name = Some SqlAny ->
  args = [x; y] ->
  emits (decode x) p -> emits (decode y) q ->
  emits (decodeList self decode input)
        (fun k => parens (fst p k ++ " = " ++ name ++ " " ++
                          parens (fst q (k + length (snd p)))),
         snd p ++ snd q)%list.
Proof.
  intros Hop Ha Hp Hq. rewrite decodeList_dispatch, Hop, Ha.
  apply SqlOps_names in Hop as [Hsolid _].
  apply decodeOpAny_emits; assumption.
Qed.

(** X7. A list whose head is [between], with three operands, compiles to the
    first operand, [between], the second, [and], the third, in
    parentheses; each operand is numbered after the arguments of those
    before it. *)
Lemma between_list_emits (x y z : string) (p q r : Piece) :
  SqlOps_get name = Some SqlBetween ->
  args = [x; y; z] ->
  emits (decode x) p -> emits (decode y) q -> emits (decode z) r ->
  emits (decodeList self decode input)
        (fun k => parens (fst p k ++ " between " ++
                          fst q (k + length (snd p)) ++ " and " ++
                          fst r (k + length (snd p) + length (snd q))),
         snd p ++ snd q ++ snd r)%list.
Proof.
  intros Hop Ha Hp Hq Hr. rewrite decodeList_dispatch, Hop, Ha.
  apply decodeOpBetween_emits; assumption.
Qed.

End Dispatch.

Lemma prefix_list_emits_witness :
  emits (decodeList (ExprFor None) plain ("[" ++ TestSchema.jstr "not" ++ ",true]"))
        (fun k => parens ("not" ++ " " ++ "$" ++ itoa (S k)), [VBool true]).
Proof.
  apply (prefix_list_emits (ExprFor None) plain ("[" ++ TestSchema.jstr "not" ++ ",true]")
           (TestSchema.jstr "not") "not" ["true"] eq_refl eq_refl eq_refl
           "true" (param_of (VBool true)) eq_refl eq_refl).
  apply plain_true.
Defined.

Lemma postfix_list_emits_witness :
  emits (decodeList (ExprFor None) plain ("[" ++ TestSchema.jstr "is null" ++ ",true]"))
        (fun k => parens (("$" ++ itoa (S k)) ++ " " ++ "is null"), [VBool true]).
Proof.
  apply (postfix_list_emits (ExprFor None) plain
           ("[" ++ TestSchema.jstr "is null" ++ ",true]")
           (TestSchema.jstr "is null") "is null" ["true"] eq_refl eq_refl eq_refl
           "true" (param_of (VBool true)) eq_refl eq_refl).
  apply plain_true.
Defined.

Lemma infix_list_emits_witness :
  emits (decodeList (ExprFor None) plain ("[" ++ TestSchema.jstr "and" ++ ",true,false,10]"))
        (fun k => parens (joined (" " ++ "and" ++ " ")
                                 [param_of (VBool true); param_of (VBool false);
                                  param_of (VNumber "10")] k),
         [VBool true; VBool false; VNumber "10"]).
Proof.
  apply (infix_list_emits (ExprFor None) plain
           ("[" ++ TestSchema.jstr "and" ++ ",true,false,10]")
           (TestSchema.jstr "and") "and" ["true"; "false"; "10"] eq_refl eq_refl eq_refl
           [param_of (VBool true); param_of (VBool false); param_of (VNumber "10")]
           eq_refl).
  - simpl. lia.
  - repeat constructor; [apply plain_true|apply plain_false|apply plain_number].
Defined.

Lemma any_list_emits_witness :
  emits (decodeList (ExprFor None) plain ("[" ++ TestSchema.jstr "any" ++ ",true,10]"))
        (fun k => parens (("$" ++ itoa (S k)) ++ " = " ++ "any" ++ " " ++
                          parens ("$" ++ itoa (S (k + 1)))),
         [VBool true; VNumber "10"]).
Proof.
  apply (any_list_emits (ExprFor None) plain ("[" ++ TestSchema.jstr "any" ++ ",true,10]")
           (TestSchema.jstr "any") "any" ["true"; "10"] eq_refl eq_refl eq_refl
           "true" "10" (param_of (VBool true)) (param_of (VNumber "10")) eq_refl eq_refl);
    [apply plain_true|apply plain_number].
Defined.

Lemma between_list_emits_witness :
  emits (decodeList (ExprFor None) plain
                    ("[" ++ TestSchema.jstr "between" ++ ",10,true,false]"))
        (fun k => parens (("$" ++ itoa (S k)) ++ " between " ++
                          ("$" ++ itoa (S (k + 1))) ++ " and " ++
                          ("$" ++ itoa (S (k + 1 + 1)))),
         [VNumber "10"; VBool true; VBool false]).
Proof.
  apply (between_list_emits (ExprFor None) plain
           ("[" ++ TestSchema.jstr "between" ++ ",10,true,false]")
           (TestSchema.jstr "between") "between" ["10"; "true"; "false"]
           eq_refl eq_refl eq_refl
           "10" "true" "false"
           (param_of (VNumber "10")) (param_of (VBool true)) (param_of (VBool false))
           eq_refl eq_refl);
    [apply plain_number|apply plain_true|apply plain_false].
Defined.

Lemma decodeOpInfix_refuses_witness :
  refuses (decodeOpInfix plain "or" ["true"; "{}"; "nope"]) (ErrUnexpectedDict "{}").
Proof.
  apply (FirstRefusal.decodeOpInfix_refuses plain "or" ["true"] "{}" ["nope"]
           [param_of (VBool true)]).
  - simpl. lia.
  - repeat constructor. apply plain_true.
  - apply plain_dict.
Defined.

Lemma sfieldByJsonName_found_witness :
  let f := MkField "Internal" false "internal" "internal" TestSchema.Internal in
  Utils.sfieldJsonFieldName f = "internal"
  /\ Anonymous f && Refut.derefs_to_struct (Reflect.Type_ f) = false
  /\ exists t, Some TestSchema.External = Some t /\ Refut.derefs_to_struct t = true.
Proof.
  intros f.
  apply (Resolve.sfieldByJsonName_found (Some TestSchema.External) "internal" f).
  reflexivity.
Defined.

Lemma structFieldByJsonPath_resolves_witness :
  exists fields,
    fields <> []
    /\ map Utils.sfieldJsonFieldName fields = Utils.split_dots "internal.internalTime"
    /\ ["internal"; "internal_time"] = map Utils.sfieldColumnName fields
    /\ Forall (fun col => col <> "") ["internal"; "internal_time"]
    /\ Some (MkField "InternalTime" false "internalTime" "internal_time"
                     (Ptr TestSchema.timeType))
       = List.last (map Some fields) None.
Proof.
  apply (Resolved.structFieldByJsonPath_resolves (Some TestSchema.External)
                                                 "internal.internalTime").
  vm_compute. reflexivity.
Defined.

End Lists.

(* ------------------------------------------------------------------ *)
(** ** The two generations agree *)

Module Generations.
Import Reflect Sqlb Shapes Uniform.

Module Q := ExprQuery.
Module B := ExprBui.

Section Steps.
Variable ty : option Rtype.

Lemma advances_ret : advances ty (ret tt) [].
Proof.
  intros s Hs. exists s. unfold ret. rewrite app_nil_r. auto.
Qed.

Lemma advances_Append (src : string) (vals : list Value) :
  advances ty (Q.Append src vals) vals.
Proof.
  intros s Hs. eexists. unfold Q.Append, modify. split; [reflexivity|].
  unfold Q.with_query, Query_Append. cbn [Q.Type_ Q.Query Args]. auto.
Qed.

Lemma advances_bind (m1 m2 : M Q.Expr unit) (v1 v2 : list Value) :
  advances ty m1 v1 -> advances ty m2 v2 -> advances ty (m1 ;; m2) (v1 ++ v2).
Proof.
  intros H1 H2 s Hs. destruct (H1 s Hs) as (s1 & E1 & T1 & A1).
  destruct (H2 s1 T1) as (s2 & E2 & T2 & A2).
  exists s2. unfold bind. rewrite E1, E2. repeat split; [assumption|].
  rewrite A2, A1. symmetry. apply app_assoc.
Qed.

Lemma advances_eq (m : M Q.Expr unit) (v w : list Value) :
  advances ty m v -> v = w -> advances ty m w.
Proof. intros H <-. exact H. Qed.

Lemma advances_must (d : M Q.Expr error) (vals : list Value) :
  finishes ty d vals -> advances ty (err <- d ;; Utils.must err) vals.
Proof.
  intros H s Hs. destruct (H s Hs) as (s1 & E & T & A).
  exists s1. unfold bind. rewrite E. auto.
Qed.

Lemma fails_must (d : M Q.Expr error) (e : Error) :
  errs ty d e -> fails ty (err <- d ;; Utils.must err) e.
Proof.
  intros H s Hs. destruct (H s Hs) as (s1 & E).
  exists s1. unfold bind. rewrite E. reflexivity.
Qed.

Lemma fails_bind_l {A B : Type} (m : M Q.Expr A) (k : A -> M Q.Expr B) (e : Error) :
  fails ty m e -> fails ty (bind m k) e.
Proof.
  intros H s Hs. destruct (H s Hs) as (s1 & E). exists s1. unfold bind. rewrite E. reflexivity.
Qed.

Lemma fails_after {A : Type} (m1 : M Q.Expr unit) (m2 : M Q.Expr A)
      (v : list Value) (e : Error) :
  advances ty m1 v -> fails ty m2 e -> fails ty (m1 ;; m2) e.
Proof.
  intros H1 H2 s Hs. destruct (H1 s Hs) as (s1 & E1 & T1 & _).
  destruct (H2 s1 T1) as (s2 & E2). exists s2. unfold bind. rewrite E1. exact E2.
Qed.

Lemma finishes_ret : finishes ty (ret None) [].
Proof. intros s Hs. exists s. unfold ret. rewrite app_nil_r. auto. Qed.

Lemma finishes_bind (m1 : M Q.Expr unit) (m2 : M Q.Expr error) (v1 v2 : list Value) :
  advances ty m1 v1 -> finishes ty m2 v2 -> finishes ty (m1 ;; m2) (v1 ++ v2).
Proof.
  intros H1 H2 s Hs. destruct (H1 s Hs) as (s1 & E1 & T1 & A1).
  destruct (H2 s1 T1) as (s2 & E2 & T2 & A2).
  exists s2. unfold bind. rewrite E1, E2. repeat split; [assumption|].
  rewrite A2, A1. symmetry. apply app_assoc.
Qed.

Lemma finishes_eq (m : M Q.Expr error) (v w : list Value) :
  finishes ty m v -> v = w -> finishes ty m w.
Proof. intros H <-. exact H. Qed.

Lemma finishes_rec (m : M Q.Expr error) (v : list Value) :
  finishes ty m v -> finishes ty (Utils.rec m) v.
Proof.
  intros H s Hs. destruct (H s Hs) as (s1 & E & R). exists s1.
  unfold Utils.rec. rewrite E. auto.
Qed.

Lemma errs_rec (m : M Q.Expr error) (e : Error) :
  fails ty m e -> errs ty (Utils.rec m) e.
Proof.
  intros H s Hs. destruct (H s Hs) as (s1 & E). exists s1.
  unfold Utils.rec. rewrite E. reflexivity.
Qed.

Lemma errs_rec_ret (e : Error) : errs ty (Utils.rec (ret (Some e))) e.
Proof. intros s Hs. exists s. reflexivity. Qed.

Lemma errs_ret (e : Error) : errs ty (ret (Some e)) e.
Proof. intros s Hs. exists s. reflexivity. Qed.

End Steps.

Ltac adv_leaf :=
  first [ apply advances_Append
        | apply advances_ret
        | apply advances_must; eassumption
        | eapply advances_bind; [adv_leaf|adv_leaf] ].

(** The steps of a method that returns [nil]. *)
Ltac finish :=
  first [ apply finishes_ret
        | eapply finishes_bind; [solve [adv_leaf]|finish] ].

(** The steps of a method up to the one that panics. *)
Ltac failure :=
  first [ apply fails_must; eassumption
        | eapply fails_after; [solve [adv_leaf]|failure]
        | apply fails_bind_l; failure ].

Ltac same_values := cbn [app snd fst]; rewrite ?app_nil_r; reflexivity.

Section Operations.
Variables (ty : option Rtype) (older : Q.Decoder) (newer : B.Decoder) (name : string).
Hypothesis Hname : solid name.

Lemma decodeOpPrefix_mirrors (args : list string) :
  (forall arg, In arg args -> mirrors ty (older arg) (newer arg)) ->
  mirrors ty (Q.decodeOpPrefix older name args) (B.decodeOpPrefix newer name args).
Proof.
  intros Hargs. unfold Q.decodeOpPrefix, B.decodeOpPrefix.
  destruct args as [|x [|y args]]; cbn [length Nat.eqb negb nth];
    try (left; eexists; split; [apply errs_rec_ret|apply refuses_panic]).
  destruct (Hargs x (or_introl eq_refl)) as [(e & Ho & Hn)|(p & Ho & Hn)].
  - left. exists e. split.
    + apply errs_rec. unfold Q.openParen, Q.closeParen. failure.
    + unfold B.openParen, B.closeParen. refusal.
  - right. eexists. split; [|apply (decodeOpPrefix_emits newer name x p Hname Hn)].
    apply finishes_rec. unfold Q.openParen, Q.closeParen.
    eapply finishes_eq; [finish|same_values].
Qed.

Lemma decodeOpPostfix_mirrors (args : list string) :
  (forall arg, In arg args -> mirrors ty (older arg) (newer arg)) ->
  mirrors ty (Q.decodeOpPostfix older name args) (B.decodeOpPostfix newer name args).
Proof.
  intros Hargs. unfold Q.decodeOpPostfix, B.decodeOpPostfix.
  destruct args as [|x [|y args]]; cbn [length Nat.eqb negb nth];
    try (left; eexists; split; [apply errs_rec_ret|apply refuses_panic]).
  destruct (Hargs x (or_introl eq_refl)) as [(e & Ho & Hn)|(p & Ho & Hn)].
  - left. exists e. split.
    + apply errs_rec. unfold Q.openParen, Q.closeParen. failure.
    + unfold B.openParen, B.closeParen. refusal.
  - right. eexists. split; [|apply (decodeOpPostfix_emits newer name x p Hname Hn)].
    apply finishes_rec. unfold Q.openParen, Q.closeParen.
    eapply finishes_eq; [finish|same_values].
Qed.

Lemma decodeOpAny_mirrors (args : list string) :
  (forall arg, In arg args -> mirrors ty (older arg) (newer arg)) ->
  mirrors ty (Q.decodeOpAny older name args) (B.decodeOpAny newer name args).
Proof.
  intros Hargs. unfold Q.decodeOpAny, B.decodeOpAny.
  destruct args as [|x [|y [|z args]]]; cbn [length Nat.eqb negb nth];
    try (left; eexists; split; [apply errs_rec_ret|apply refuses_panic]).
  destruct (Hargs x ltac:(simpl; auto)) as [(e & Ho & Hn)|(p & Hp & Ep)].
  { left. exists e. split.
    - apply errs_rec. unfold Q.openParen, Q.closeParen. failure.
    - unfold B.openParen, B.closeParen. refusal. }
  pose proof (proj1 Ep) as Wp.
  destruct (Hargs y ltac:(simpl; auto)) as [(e & Ho & Hn)|(q & Hq & Eq)].
  { left. exists e. split.
    - apply errs_rec. unfold Q.openParen, Q.closeParen. failure.
    - unfold B.openParen, B.closeParen. refusal. }
  right. eexists. split; [|apply (decodeOpAny_emits newer name x y p q Hname Ep Eq)].
  apply finishes_rec. unfold Q.openParen, Q.closeParen.
  eapply finishes_eq; [finish|same_values].
Qed.

Lemma decodeOpBetween_mirrors (args : list string) :
  (forall arg, In arg args -> mirrors ty (older arg) (newer arg)) ->
  mirrors ty (Q.decodeOpBetween older name args) (B.decodeOpBetween newer name args).
Proof.
  intros Hargs. unfold Q.decodeOpBetween, B.decodeOpBetween.
  destruct args as [|x [|y [|z [|w args]]]]; cbn [length Nat.eqb negb nth];
    try (left; eexists; split; [apply errs_rec_ret|apply refuses_panic]).
  destruct (Hargs x ltac:(simpl; auto)) as [(e & Ho & Hn)|(p & Hp & Ep)].
  { left. exists e. split.
    - apply errs_rec. unfold Q.openParen, Q.closeParen. failure.
    - unfold B.openParen, B.closeParen. refusal. }
  pose proof (proj1 Ep) as Wp.
  destruct (Hargs y ltac:(simpl; auto)) as [(e & Ho & Hn)|(q & Hq & Eq)].
  { left. exists e. split.
    - apply errs_rec. unfold Q.openParen, Q.closeParen. failure.
    - unfold B.openParen, B.closeParen. refusal. }
  pose proof (proj1 Eq) as Wq.
  destruct (Hargs z ltac:(simpl; auto)) as [(e & Ho & Hn)|(r & Hr & Er)].
  { left. exists e. split.
    - apply errs_rec. unfold Q.openParen, Q.closeParen. failure.
    - unfold B.openParen, B.closeParen. refusal. }
  right. eexists. split; [|apply (decodeOpBetween_emits newer name x y z p q r Ep Eq Er)].
  apply finishes_rec. unfold Q.openParen, Q.closeParen.
  eapply finishes_eq; [finish|same_values].
Qed.

Lemma operands_mirror (args : list string) :
  (forall arg, In arg args -> mirrors ty (older arg) (newer arg)) ->
  (exists pieces,
      Forall2 (fun x p => finishes ty (older x) (snd p) /\ emits (newer x) p) args pieces)
  \/ (exists pre x post pieces e,
         args = (pre ++ x :: post)%list
         /\ Forall2 (fun x p => finishes ty (older x) (snd p) /\ emits (newer x) p) pre pieces
         /\ errs ty (older x) e /\ refuses (newer x) e).
Proof.
  induction args as [|x args IH]; intros Hargs.
  - left. exists []. constructor.
  - destruct (Hargs x (or_introl eq_refl)) as [(e & Ho & Hn)|(p & Ho & Hn)].
    + right. exists [], x, args, [], e. repeat split; [constructor|exact Ho|exact Hn].
    + destruct (IH (fun arg Hin => Hargs arg (or_intror Hin)))
        as [[pieces HF]|(pre & y & post & pieces & e & -> & HF & He)].
      * left. exists (p :: pieces). constructor; [split|]; assumption.
      * right. exists (x :: pre), y, post, (p :: pieces), e.
        repeat split; [constructor; [split|]; assumption|apply He..].
Qed.

Lemma older_loop_advances (args : list string) (pieces : list Piece) :
  Forall2 (fun x p => finishes ty (older x) (snd p) /\ emits (newer x) p) args pieces ->
  forall i, advances ty (for_range (Q.infixArg older name) i args) (values pieces).
Proof.
  induction 1 as [|x p args pieces [Ho _] HF IH]; intros i; cbn [for_range].
  - apply advances_ret.
  - unfold values. cbn [map concat]. fold (values pieces).
    apply advances_bind; [|apply IH].
    unfold Q.infixArg. eapply advances_eq;
      [destruct (0 <? i); adv_leaf|same_values].
Qed.

Lemma older_loop_fails (pre : list string) (x : string) (post : list string)
      (pieces : list Piece) (e : Error) :
  Forall2 (fun x p => finishes ty (older x) (snd p) /\ emits (newer x) p) pre pieces ->
  errs ty (older x) e ->
  forall i, fails ty (for_range (Q.infixArg older name) i (pre ++ x :: post)) e.
Proof.
  intros HF He. induction HF as [|y p pre pieces [Ho _] HF IH]; intros i;
    cbn [app for_range].
  - apply fails_bind_l. unfold Q.infixArg. destruct (0 <? i); failure.
  - eapply fails_after; [|apply IH].
    unfold Q.infixArg. destruct (0 <? i); adv_leaf.
Qed.

Lemma Forall2_emits (args : list string) (pieces : list Piece) :
  Forall2 (fun x p => finishes ty (older x) (snd p) /\ emits (newer x) p) args pieces ->
  Forall2 (fun x p => emits (newer x) p) args pieces.
Proof. intros H. eapply Forall2_impl; [|exact H]. intros a b [_ Hb]. exact Hb. Qed.

Lemma decodeOpInfix_mirrors (args : list string) :
  (forall arg, In arg args -> mirrors ty (older arg) (newer arg)) ->
  mirrors ty (Q.decodeOpInfix older name args) (B.decodeOpInfix newer name args).
Proof.
  intros Hargs. destruct (Nat.leb_spec 2 (length args)) as [Hlen|Hlen].
  - destruct (operands_mirror args Hargs)
      as [[pieces HF]|(pre & y & post & pieces & e & -> & HF & Ho & Hn)].
    + right. eexists. split;
        [|apply (decodeOpInfix_emits newer name args pieces Hname Hlen (Forall2_emits _ _ HF))].
      unfold Q.decodeOpInfix.
      destruct (Nat.leb_spec 2 (length args)); [|lia]. cbn [negb snd].
      apply finishes_rec. unfold Q.openParen, Q.closeParen.
      eapply finishes_eq.
      * eapply finishes_bind; [apply advances_Append|].
        eapply finishes_bind; [apply (older_loop_advances args pieces HF)|].
        eapply finishes_bind; [apply advances_Append|apply finishes_ret].
      * same_values.
    + left. exists e. split.
      * unfold Q.decodeOpInfix.
        destruct (Nat.leb_spec 2 (length (pre ++ y :: post))); [|lia]. cbn [negb].
        apply errs_rec. unfold Q.openParen.
        eapply fails_after; [apply advances_Append|].
        apply fails_bind_l. eapply older_loop_fails; eassumption.
      * unfold B.decodeOpInfix.
        destruct (Nat.leb_spec 2 (length (pre ++ y :: post))); [|lia]. cbn [negb].
        unfold B.openParen. apply refuses_after; [apply passes_Str|].
        apply refuses_bind_l.
        eapply infix_loop_refuses; [apply (Forall2_emits _ _ HF)|exact Hn].
  - left. eexists. unfold Q.decodeOpInfix, B.decodeOpInfix.
    destruct (Nat.leb_spec 2 (length args)); [lia|]. cbn [negb].
    split; [apply errs_rec_ret|apply refuses_panic].
Qed.

End Operations.

Lemma decodeAny_mirrors (ty : option Rtype) (input : string) :
  mirrors ty (Q.decodeAny input) (B.decodeAny input).
Proof.
  unfold Q.decodeAny. destruct (Json.unmarshalAny input) as [val|] eqn:E.
  - right. exists (fun k => "$" ++ itoa (S k), [val]). cbn [snd].
    split; [|apply Leaves.decodeAny_emits, E].
    eapply finishes_eq; [finish|same_values].
  - left. exists ErrJson. split; [apply errs_ret|apply Leaves.decodeAny_refuses, E].
Qed.

Lemma decodeCast_mirrors (self : B.Expr) (name : string) (args : list string) :
  mirrors (B.Type_ self) (Q.decodeCast name args) (B.decodeCast self name args).
Proof.
  destruct args as [|arg [|arg' args]];
    try (left; eexists; unfold Q.decodeCast, B.decodeCast; cbn [length Nat.eqb negb];
         split; [apply errs_rec_ret|apply refuses_panic]).
  change Internal.fieldByJsonPath with Utils.structFieldByJsonPath.
  destruct (Utils.structFieldByJsonPath (B.Type_ self) name) as [e|[sfield path]] eqn:Ep.
  - left. exists e. split.
    + intros s Hs. unfold Q.decodeCast, Utils.rec, bind, get. cbn [length Nat.eqb negb].
      rewrite Hs, Ep. eexists. reflexivity.
    + unfold B.decodeCast. cbn [length Nat.eqb negb].
      change Internal.fieldByJsonPath with Utils.structFieldByJsonPath. rewrite Ep.
      apply refuses_panic.
  - destruct (B.unmarshalField sfield arg) as [e|val] eqn:Ev.
    + left. exists e. split.
      * intros s Hs. unfold Q.decodeCast, Utils.rec, bind, get. cbn [length Nat.eqb negb nth].
        rewrite Hs, Ep. change Q.unmarshalField with B.unmarshalField. rewrite Ev.
        eexists. reflexivity.
      * unfold B.decodeCast. cbn [length Nat.eqb negb nth].
        change Internal.fieldByJsonPath with Utils.structFieldByJsonPath. rewrite Ep, Ev.
        apply refuses_panic.
    + right. exists (fun k => "$" ++ itoa (S k), [val]). cbn [snd]. split.
      * intros s Hs. unfold Q.decodeCast, Utils.rec, bind, get. cbn [length Nat.eqb negb nth].
        rewrite Hs, Ep. change Q.unmarshalField with B.unmarshalField. rewrite Ev.
        eexists. split; [reflexivity|]. cbn [Q.Type_ Q.Query Args]. auto.
      * eapply Uniform.decodeCast_emits; [exact Ep|exact Ev].
Qed.

Lemma decodeString_mirrors (self : B.Expr) (input : string) :
  mirrors (B.Type_ self) (Q.decodeString input) (B.decodeString self input).
Proof.
  destruct (Json.unmarshalString input) as [str|] eqn:Es.
  - destruct (Utils.structFieldByJsonPath (B.Type_ self) str) as [e|[sfield path]] eqn:Ep.
    + left. exists e. split.
      * intros s Hs. unfold Q.decodeString, Utils.rec, bind, get. rewrite Es, Hs, Ep.
        eexists. reflexivity.
      * unfold B.decodeString. rewrite Es.
        change Internal.fieldByJsonPath with Utils.structFieldByJsonPath. rewrite Ep.
        apply refuses_panic.
    + destruct (first_quoted path) as [bad|] eqn:Eq.
      * left. exists (ErrQuoteInIdent bad). split.
        -- intros s Hs. rewrite (decodeString_resolved s input str sfield path Es);
             [|rewrite Hs; exact Ep].
           apply PathFacts.first_quoted_split in Eq as (pre & post & -> & Hpre & Hbad).
           rewrite PathFacts.appendSqlPath_panic by assumption. eexists. reflexivity.
        -- intros [t a]. unfold B.decodeString. rewrite Es.
           change Internal.fieldByJsonPath with Utils.structFieldByJsonPath. rewrite Ep.
           unfold bind, get, Bui_Get, Path_AppendExpr. cbn [BuiText BuiArgs].
           rewrite Eq. eexists. reflexivity.
      * right. exists (fun _ => render_path path, []). cbn [snd]. split.
        -- intros s Hs. rewrite (decodeString_resolved s input str sfield path Es);
             [|rewrite Hs; exact Ep].
           rewrite PathFacts.appendSqlPath_ok by assumption.
           eexists. split; [reflexivity|].
           unfold Q.with_text, Q.with_query. cbn [Q.Type_ Q.Query Args].
           rewrite app_nil_r. auto.
        -- eapply Uniform.decodeString_emits; [exact Es|exact Ep|exact Eq].
  - left. exists ErrJson. split.
    + intros s Hs. unfold Q.decodeString, Utils.rec, bind. rewrite Es. eexists. reflexivity.
    + unfold B.decodeString. rewrite Es. apply refuses_panic.
Qed.

Lemma decodeList_mirrors (self : B.Expr) (older : Q.Decoder) (newer : B.Decoder)
      (input : string) :
  (forall arg, String.length arg < String.length input ->
               mirrors (B.Type_ self) (older arg) (newer arg)) ->
  mirrors (B.Type_ self) (Q.decodeList older input) (B.decodeList self newer input).
Proof.
  intros Hd. unfold Q.decodeList, B.decodeList.
  change Internal.isJsonString with Utils.isJsonString.
  destruct (Json.unmarshalList input) as [list|] eqn:El;
    [|left; eexists; split; [apply errs_ret|apply refuses_panic]].
  apply JsonFacts.unmarshalList_shorter in El. rewrite Forall_forall in El.
  assert (Hargs : forall arg, In arg (tl list) ->
                              mirrors (B.Type_ self) (older arg) (newer arg)).
  { intros arg Hin. apply Hd, El, ExprQueryFacts.tl_incl, Hin. }
  destruct (negb (0 <? length list));
    [left; eexists; split; [apply errs_ret|apply refuses_panic]|].
  destruct (negb (Utils.isJsonString (nth 0 list "")));
    [left; eexists; split; [apply errs_ret|apply refuses_panic]|].
  destruct (Json.unmarshalString (nth 0 list "")) as [name|];
    [|left; eexists; split; [apply errs_ret|apply refuses_panic]].
  destruct (SqlOps_get name) as [syntax|] eqn:Eo; [|apply decodeCast_mirrors].
  apply SqlOps_names in Eo as [Hn Hf].
  destruct syntax; try congruence.
  - apply decodeOpPrefix_mirrors; assumption.
  - apply decodeOpPostfix_mirrors; assumption.
  - apply decodeOpInfix_mirrors; assumption.
  - apply decodeOpAny_mirrors; assumption.
  - apply decodeOpBetween_mirrors; assumption.
Qed.

Lemma decode_mirrors (self : B.Expr) (fuel : nat) :
  forall input, String.length input < fuel ->
                mirrors (B.Type_ self) (Q.decode fuel input) (B.decode fuel self input).
Proof.
  induction fuel as [|fuel IH]; intros input Hlen; [lia|].
  cbn [Q.decode B.decode].
  change Internal.isJsonDict with Utils.isJsonDict.
  change Internal.isJsonList with Utils.isJsonList.
  change Internal.isJsonString with Utils.isJsonString.
  destruct (Utils.isJsonDict input);
    [left; eexists; split; [apply errs_ret|apply refuses_panic]|].
  destruct (Utils.isJsonList input).
  - apply decodeList_mirrors. intros arg Harg. apply IH. lia.
  - destruct (Utils.isJsonString input);
      [apply decodeString_mirrors|apply decodeAny_mirrors].
Qed.

(** X1. The two generations accept the same inputs and compile them to the
    same arguments.  For one schema type and one input, [UnmarshalText] of
    the older generation returns an error exactly when [AppendExpr] of the
    newer generation panics, and the error is the same; otherwise the one
    adds to its arguments the values that the other adds to the arguments
    it is given.  (The empty text of a boolean expression, which compiles
    to [true], is the exception.) *)
Lemma generations_agree (old : Q.Expr) (self : B.Expr) (text : string) (args : list Value) :
  Q.Type_ old = B.Type_ self ->
  B.IsBool self = false \/ B.Text self <> "" ->
  (exists e old',
      Q.UnmarshalText old (B.Text self) = Returns (old', Some e)
      /\ B.AppendExpr self text args = Panics e)
  \/ (exists vals old' text',
         Q.UnmarshalText old (B.Text self) = Returns (old', None)
         /\ Args (Q.Query old') = (Args (Q.Query old) ++ vals)%list
         /\ B.AppendExpr self text args = Returns (text', (args ++ vals)%list)).
Proof.
  intros Hty Hc. unfold Q.UnmarshalText, Q.call, B.AppendExpr, B.AppendExprWith.
  assert (E : B.IsBool self && (String.length (B.Text self) =? 0) = false).
  { destruct Hc as [->|Hne]; [reflexivity|].
    destruct (B.Text self); [congruence|]. apply andb_false_r. }
  rewrite E. cbv zeta.
  destruct (decode_mirrors self (S (String.length (B.Text self))) (B.Text self)
                           ltac:(lia))
    as [(e & Ho & Hn)|([frag vals] & Ho & (Hw & _))].
  - left. destruct (Ho old Hty) as (old' & Eo). destruct (Hn (MkBui text args)) as (b' & En).
    exists e, old'. unfold Q.enough, B.enough. rewrite Eo, En. split; reflexivity.
  - right. destruct (Ho old Hty) as (old' & Eo & _ & Ha). cbn [fst snd] in *.
    exists vals, old', (appendMaybeSpaced text (frag (length args))).
    unfold Q.enough, B.enough. rewrite Eo, Hw. repeat split. exact Ha.
Qed.

Lemma generations_agree_witness :
  let old := Q.ExprFor (Some TestSchema.External) in
  let self := B.MkExpr TestSchema.src (Some TestSchema.External) false in
  (exists e old',
      Q.UnmarshalText old (B.Text self) = Returns (old', Some e)
      /\ B.AppendExpr self "" [] = Panics e)
  \/ (exists vals old' text',
         Q.UnmarshalText old (B.Text self) = Returns (old', None)
         /\ Args (Q.Query old') = (Args (Q.Query old) ++ vals)%list
         /\ B.AppendExpr self "" [] = Returns (text', ([] ++ vals)%list)).
Proof.
  intros old self. apply (generations_agree old self "" []).
  - reflexivity.
  - left. reflexivity.
Defined.

End Generations.
